(** * A shallow embedding of the crossword CSP solver (generate.py)

    The solver of [CrosswordCreator] is embedded as executable Rocq
    functions: node consistency, [revise], the AC-3 worklist, the
    consistency check on assignments, the two ordering heuristics and the
    recursive backtracking search.

    The puzzle model ([Variable], [Crossword]) lives in another module of
    the program; the solver reads its variables, its vocabulary, its
    overlap table and its neighbour relation, and these are modelled from
    the specification.

    Conventions of the embedding.
    - A Python [dict] is an insertion-ordered association list with unique
      keys ([Dict]); a Python [set] is the list of its elements in
      iteration order.  Every statement is proved for arbitrary orders.
    - Python exceptions ([KeyError], [IndexError], [ValueError]) are
      results of the [outcome] monad; loops that are not bounded by a
      list carry fuel, and running out of it is the third result.
    - [self.domains] is threaded explicitly through the functions that
      write it; the assignment dictionary, which [backtrack] mutates in
      place and returns by reference, is threaded through the search. *)

From stdpp Require Import base option list strings sorting.
From Stdlib Require Import ZArith Lia.

Local Open Scope nat_scope.

(** ** Exceptions and results *)

Inductive exn := KeyError | IndexError | ValueError.

#[global] Instance exn_eq_dec : EqDecision exn.
Proof. solve_decision. Defined.

Inductive outcome (A : Type) : Type :=
  | Ok (a : A)
  | Raise (e : exn)
  | OutOfFuel.
Arguments Ok {A} a.
Arguments Raise {A} e.
Arguments OutOfFuel {A}.

#[global] Instance outcome_eq_dec {A} `{EqDecision A} : EqDecision (outcome A).
Proof. solve_decision. Defined.

#[global] Instance outcome_ret : MRet outcome := λ A, @Ok A.
#[global] Instance outcome_bind : MBind outcome := λ A B f m,
  match m with
  | Ok a => f a
  | Raise e => Raise e
  | OutOfFuel => OutOfFuel
  end.

(** A [for] loop whose body may raise: a left fold in the monad. *)
Fixpoint foldM {A B : Type} (f : B → A → outcome B) (b : B) (l : list A)
  : outcome B :=
  match l with
  | [] => Ok b
  | a :: l' => b' ← f b a; foldM f b' l'
  end.

(** A loop that leaves with [False] at the first element failing the test
    (Python's [all], and the nested [return False] of [consistent]). *)
Fixpoint allM {A : Type} (f : A → outcome bool) (l : list A) : outcome bool :=
  match l with
  | [] => Ok true
  | a :: l' => c ← f a; if (c : bool) then allM f l' else Ok false
  end.

(** Calling a function on each element in order, as [sorted] does with its
    key function. *)
Fixpoint mapM {A B : Type} (f : A → outcome B) (l : list A) : outcome (list B) :=
  match l with
  | [] => Ok []
  | a :: l' => b ← f a; bs ← mapM f l'; Ok (b :: bs)
  end.

(** ** Dictionaries *)

Section dict.
Context {K V : Type} `{EqDecision K}.

Definition Dict := list (K * V).

Fixpoint dict_get (d : Dict) (k : K) : option V :=
  match d with
  | [] => None
  | (k', v) :: d' => if decide (k' = k) then Some v else dict_get d' k
  end.

Definition dict_keys (d : Dict) : list K := d.*1.

Definition dict_values (d : Dict) : list V := d.*2.

Definition dict_mem (k : K) (d : Dict) : bool :=
  bool_decide (is_Some (dict_get d k)).

(** [d[k] = v]: the value is replaced in place, a new key goes last. *)
Fixpoint dict_set (d : Dict) (k : K) (v : V) : Dict :=
  match d with
  | [] => [(k, v)]
  | (k', v') :: d' =>
      if decide (k' = k) then (k, v) :: d' else (k', v') :: dict_set d' k v
  end.

(** [del d[k]], which raises [KeyError] on a missing key. *)
Fixpoint dict_del (d : Dict) (k : K) : outcome Dict :=
  match d with
  | [] => Raise KeyError
  | (k', v') :: d' =>
      if decide (k' = k) then Ok d'
      else d'' ← dict_del d' k; Ok ((k', v') :: d'')
  end.

(** [d[k]] as an expression. *)
Definition dict_item (d : Dict) (k : K) : outcome V :=
  match dict_get d k with
  | Some v => Ok v
  | None => Raise KeyError
  end.
End dict.
Arguments Dict : clear implicits.

(** ** The puzzle model *)

(** Modelled from the spec: the two directions of the class [Variable],
    which the solver's source file imports. *)
Inductive Direction := ACROSS | DOWN.

(** Modelled from the spec: the class [Variable] of the puzzle model, a
    slot identified by its starting cell [(i, j)], its direction and its
    length; two variables are equal iff all fields match. *)
Record Var := mkVar {
  var_i : nat;
  var_j : nat;
  var_direction : Direction;
  var_length : nat
}.

#[global] Instance Direction_eq_dec : EqDecision Direction.
Proof. solve_decision. Defined.
#[global] Instance Var_eq_dec : EqDecision Var.
Proof. solve_decision. Defined.

(** Modelled from the spec: the part of the class [Crossword] that the
    solver reads, namely the set of variables, the vocabulary and the
    overlap table, which gives for a pair of crossing variables the index
    of the shared cell in the word of each.  [overlaps x y = None] stands
    both for a pair without entry and for an entry holding [None]. *)
Record Crossword := mkCrossword {
  variables : list Var;
  words : list string;
  overlaps : Var → Var → option (nat * nat)
}.

(** Modelled from the spec: [Crossword.neighbors] is not part of the
    solver's source file.  It is the derived view over the overlap
    relation, the set of variables overlapping the given one, the variable
    itself excluded. *)
Definition neighbors (cw : Crossword) (x : Var) : list Var :=
  filter (λ v, v ≠ x ∧ is_Some (overlaps cw x v)) (variables cw).

(** ** The domain store *)

Abbreviation Domains := (Dict Var (list string)).

(** [self.domains[x].remove(w)].  The solver removes only words it reads
    from a copy of the same set, so the word is there. *)
Definition dom_remove (d : Domains) (x : Var) (w : string) : outcome Domains :=
  ws ← dict_item d x; Ok (dict_set d x (filter (λ u, u ≠ w) ws)).

(** [__init__]: every variable starts with a copy of the vocabulary. *)
Definition init_domains (cw : Crossword) : Domains :=
  foldl (λ d var, dict_set d var (words cw)) [] (variables cw).

(** [w[i]] on a string. *)
Definition str_index (w : string) (i : nat) : outcome Ascii.ascii :=
  match String.get i w with
  | Some c => Ok c
  | None => Raise IndexError
  end.

(** ** Node consistency *)

Definition node_step (var : Var) (d : Domains) (word : string) : outcome Domains :=
  if decide (String.length word ≠ var_length var) then dom_remove d var word
  else Ok d.

(** The body of the outer loop: the inner loop runs over a copy of the
    domain of [var]. *)
Definition node_body (d : Domains) (var : Var) : outcome Domains :=
  ws ← dict_item d var; foldM (node_step var) d ws.

Definition enforce_node_consistency (d : Domains) : outcome Domains :=
  foldM node_body d (dict_keys d).

(** ** Arc consistency *)

(** [all(word_x[i] != word_y[j] for word_y in ys)]: the generator indexes
    [word_x] and then [word_y] for each candidate, and [all] stops at the
    first agreeing one. *)
Definition all_differ (word_x : string) (i j : nat) (ys : list string)
  : outcome bool :=
  allM (λ word_y, a ← str_index word_x i; b ← str_index word_y j;
                  Ok (bool_decide (a ≠ b))) ys.

(** One iteration of the loop of [revise], on the pair of the store and
    the flag [revised]. *)
Definition revise_step (x y : Var) (i j : nat) (acc : Domains * bool)
  (word_x : string) : outcome (Domains * bool) :=
  ys ← dict_item acc.1 y;
  c ← all_differ word_x i j ys;
  if (c : bool) then d' ← dom_remove acc.1 x word_x; Ok (d', true)
  else Ok acc.

Definition revise (cw : Crossword) (d : Domains) (x y : Var)
  : outcome (Domains * bool) :=
  match overlaps cw x y with
  | None => Ok (d, false)
  | Some (i, j) =>
      xs ← dict_item d x;
      foldM (revise_step x y i j) (d, false) xs
  end.

Abbreviation arc := (Var * Var)%type.

(** The default queue: [[(x, y) for x in self.domains for y in neighbors(x)]]. *)
Definition default_arcs (cw : Crossword) (d : Domains) : list arc :=
  x ← dict_keys d; y ← neighbors cw x; [(x, y)].

(** The arcs appended after a revision of [x] against [y]:
    [(z, x)] for [z] in [neighbors(x) - {y}]. *)
Definition requeue (cw : Crossword) (x y : Var) : list arc :=
  (λ z, (z, x)) <$> filter (λ z, z ≠ y) (neighbors cw x).

(** The [while queue] loop; each test of the loop condition uses one unit
    of fuel. *)
Fixpoint ac3_loop (fuel : nat) (cw : Crossword) (d : Domains)
  (queue : list arc) : outcome (Domains * bool) :=
  match fuel with
  | 0 => OutOfFuel
  | S fuel' =>
      match queue with
      | [] => Ok (d, true)
      | (x, y) :: queue' =>
          r ← revise cw d x y;
          if (r.2 : bool) then
            xs ← dict_item r.1 x;
            match xs with
            | [] => Ok (r.1, false)
            | _ :: _ => ac3_loop fuel' cw r.1 (queue' ++ requeue cw x y)
            end
          else ac3_loop fuel' cw r.1 queue'
      end
  end.

(** The number of candidate words left in the whole store. *)
Definition store_size (d : Domains) : nat := sum_list (length <$> dict_values d).

(** Enough fuel for the worklist: every iteration either shortens the
    queue by one arc or removes a word and appends at most one arc per
    variable. *)
Definition ac3_fuel (cw : Crossword) (d : Domains) (queue : list arc) : nat :=
  S (store_size d * S (length (variables cw)) + length queue).

Definition ac3 (cw : Crossword) (d : Domains) (arcs : option (list arc))
  : outcome (Domains * bool) :=
  let queue := match arcs with
               | None => default_arcs cw d
               | Some arcs => arcs
               end in
  ac3_loop (ac3_fuel cw d queue) cw d queue.

(** ** Assignments *)

Abbreviation Assignment := (Dict Var string).

(** [set(assignment.keys()) == set(self.crossword.variables)] *)
Definition assignment_complete (cw : Crossword) (a : Assignment) : bool :=
  forallb (λ v, bool_decide (v ∈ variables cw)) (dict_keys a)
  && forallb (λ v, bool_decide (v ∈ dict_keys a)) (variables cw).

(** The test of the innermost loop of [consistent] on one pair; [true]
    lets the loops go on, [false] is [return False]. *)
Definition overlap_agrees (cw : Crossword) (a : Assignment)
  (var neighbor : Var) : outcome bool :=
  if dict_mem neighbor a then
    match overlaps cw var neighbor with
    | None => Raise KeyError
    | Some (i, j) =>
        wv ← dict_item a var; cv ← str_index wv i;
        wn ← dict_item a neighbor; cn ← str_index wn j;
        Ok (bool_decide (cv = cn))
    end
  else Ok true.

Definition consistent (cw : Crossword) (a : Assignment) : outcome bool :=
  if decide (length (remove_dups (dict_values a)) ≠ length a) then Ok false
  else if negb (forallb
                  (λ e : Var * string,
                     bool_decide (String.length e.2 = var_length e.1)) a)
  then Ok false
  else allM (λ var, allM (overlap_agrees cw a var) (neighbors cw var))
            (dict_keys a).

(** ** Heuristics *)

(** The innermost loop body of [count_conflicts]: one candidate of a
    neighbour. *)
Definition conflict_step (value : string) (i j : nat) (conflicts : nat)
  (neighbor_value : string) : outcome nat :=
  cv ← str_index value i;
  cn ← str_index neighbor_value j;
  Ok (if decide (cv ≠ cn) then S conflicts else conflicts).

(** The outer loop body of [count_conflicts]: one neighbour. *)
Definition neighbor_step (cw : Crossword) (d : Domains) (a : Assignment)
  (var : Var) (value : string) (conflicts : nat) (neighbor : Var)
  : outcome nat :=
  if dict_mem neighbor a then Ok conflicts
  else match overlaps cw var neighbor with
       | None => Raise KeyError
       | Some (i, j) =>
           ns ← dict_item d neighbor;
           foldM (conflict_step value i j) conflicts ns
       end.

(** The inner function [count_conflicts] of [order_domain_values]. *)
Definition count_conflicts (cw : Crossword) (d : Domains) (a : Assignment)
  (var : Var) (value : string) : outcome nat :=
  foldM (neighbor_step cw d a var value) 0 (neighbors cw var).

(** Insertion before the first element whose key is not smaller, so that
    the sort below is stable. *)
Fixpoint insert_by_key (kx : nat * string) (l : list (nat * string))
  : list (nat * string) :=
  match l with
  | [] => [kx]
  | ky :: l' =>
      if kx.1 <=? ky.1 then kx :: l else ky :: insert_by_key kx l'
  end.

(** [sorted] on keyed elements.  Python's sort is stable, and a stable
    sort has one possible result, which insertion from the right
    computes. *)
Definition sort_by_key (l : list (nat * string)) : list (nat * string) :=
  foldr insert_by_key [] l.

Definition order_domain_values (cw : Crossword) (d : Domains) (var : Var)
  (a : Assignment) : outcome (list string) :=
  ws ← dict_item d var;
  ks ← mapM (count_conflicts cw d a var) ws;
  Ok (sort_by_key (zip ks ws)).*2.

(** The inner functions [mrv] and [degree] of
    [select_unassigned_variable]. *)
Definition mrv (d : Domains) (v : Var) : outcome nat :=
  ws ← dict_item d v; Ok (length ws).

Definition degree (cw : Crossword) (v : Var) : nat := length (neighbors cw v).

(** The key [(mrv(var), -degree(var))]. *)
Definition select_key (cw : Crossword) (d : Domains) (v : Var)
  : outcome (nat * Z) :=
  m ← mrv d v; Ok (m, (- Z.of_nat (degree cw v))%Z).

(** Python's order on pairs. *)
Definition key_lt (k1 k2 : nat * Z) : bool :=
  (k1.1 <? k2.1) || ((k1.1 =? k2.1) && (k1.2 <? k2.2)%Z).

(** [[v for v in self.crossword.variables if v not in assignment]] *)
Definition unassigned (cw : Crossword) (a : Assignment) : list Var :=
  filter (λ v, dict_mem v a = false) (variables cw).

(** One comparison of [min]: a later element replaces the best one only
    when its key is smaller. *)
Definition select_step (cw : Crossword) (d : Domains)
  (best : Var * (nat * Z)) (v : Var) : outcome (Var * (nat * Z)) :=
  k ← select_key cw d v;
  Ok (if key_lt k best.2 then (v, k) else best).

(** [min(unassigned, key=...)]: the first element with the least key;
    [ValueError] on an empty sequence. *)
Definition select_unassigned_variable (cw : Crossword) (d : Domains)
  (a : Assignment) : outcome Var :=
  match unassigned cw a with
  | [] => Raise ValueError
  | v0 :: rest =>
      k0 ← select_key cw d v0;
      best ← foldM (select_step cw d) (v0, k0) rest;
      Ok best.1
  end.

(** ** Backtracking search *)

(** Calls recorded while the search runs, each with the assignment at the
    time of the call.  The record is not part of the program: it makes
    statements about which calls are made expressible. *)
Inductive event :=
  | Call_backtrack (a : Assignment)
  | Call_select_unassigned_variable (a : Assignment).

#[global] Instance event_eq_dec : EqDecision event.
Proof. solve_decision. Defined.

(** What the search can reach: the solver's store, the assignment
    dictionary (one object, shared by all frames) and the calls made so
    far. *)
Record search := mkSearch {
  s_domains : Domains;
  s_assignment : Assignment;
  s_trace : list event
}.

(** The value [backtrack] returns: [None], or the assignment dictionary
    itself. *)
Inductive retval := PyNone | TheAssignment.

(** [if result]: [None] and an empty dictionary are false. *)
Definition truthy (s : search) (r : retval) : bool :=
  match r, s_assignment s with
  | TheAssignment, _ :: _ => true
  | _, _ => false
  end.

Definition log (e : event) (s : search) : search :=
  mkSearch (s_domains s) (s_assignment s) (s_trace s ++ [e]).

Definition bind_var (var : Var) (value : string) (s : search) : search :=
  mkSearch (s_domains s) (dict_set (s_assignment s) var value) (s_trace s).

Definition unbind_var (var : Var) (s : search) : outcome search :=
  a ← dict_del (s_assignment s) var;
  Ok (mkSearch (s_domains s) a (s_trace s)).

(** The [for value in ...] loop of [backtrack], [rec] being the recursive
    call. *)
Fixpoint try_values (cw : Crossword) (rec : search → outcome (search * retval))
  (var : Var) (values : list string) (s : search) : outcome (search * retval) :=
  match values with
  | [] => Ok (s, PyNone)
  | value :: values' =>
      let s1 := bind_var var value s in
      c ← consistent cw (s_assignment s1);
      if (c : bool) then
        r ← rec s1;
        if truthy r.1 r.2 then Ok r
        else s2 ← unbind_var var r.1; try_values cw rec var values' s2
      else s2 ← unbind_var var s1; try_values cw rec var values' s2
  end.

(** [backtrack], with fuel for the depth of the recursion. *)
Fixpoint backtrack_rec (fuel : nat) (cw : Crossword) (s : search)
  : outcome (search * retval) :=
  match fuel with
  | 0 => OutOfFuel
  | S fuel' =>
      let s := log (Call_backtrack (s_assignment s)) s in
      if assignment_complete cw (s_assignment s) then Ok (s, TheAssignment)
      else
        let s := log (Call_select_unassigned_variable (s_assignment s)) s in
        var ← select_unassigned_variable cw (s_domains s) (s_assignment s);
        values ← order_domain_values cw (s_domains s) var (s_assignment s);
        try_values cw (backtrack_rec fuel' cw) var values s
  end.

(** Every frame below the first binds one more variable, so the depth is
    at most the number of variables. *)
Definition backtrack (cw : Crossword) (s : search) : outcome (search * retval) :=
  backtrack_rec (S (length (variables cw))) cw s.

(** [solve]: the result of [ac3] is not looked at, and the search starts
    from a fresh dictionary. *)
Definition solve (cw : Crossword) (d : Domains) : outcome (search * retval) :=
  d1 ← enforce_node_consistency d;
  r ← ac3 cw d1 None;
  backtrack cw (mkSearch r.1 [] []).

(** What the caller of [solve] holds: [None] or the assignment. *)
Definition result_of (r : search * retval) : option Assignment :=
  match r.2 with
  | PyNone => None
  | TheAssignment => Some (s_assignment r.1)
  end.

(** A creator built by [__init__] and solved at once, as [main] does. *)
Definition run (cw : Crossword) : outcome (search * retval) :=
  solve cw (init_domains cw).

(** ** Specification predicates *)

(** A word has the declared length of a variable. *)
Definition fits (v : Var) (w : string) : Prop := String.length w = var_length v.

#[global] Instance fits_dec v w : Decision (fits v w).
Proof. unfold fits. apply _. Defined.

(** The letter of [wx] at [i] exists and is the letter of [wy] at [j]. *)
Definition agree (i j : nat) (wx wy : string) : Prop :=
  is_Some (String.get i wx) ∧ String.get i wx = String.get j wy.

(** Some word of [ys] agrees with [wx] at the overlap. *)
Definition supported (i j : nat) (ys : list string) (wx : string) : Prop :=
  Exists (agree i j wx) ys.

#[global] Instance agree_dec i j wx wy : Decision (agree i j wx wy).
Proof. unfold agree. apply _. Defined.
#[global] Instance supported_dec i j ys wx : Decision (supported i j ys wx).
Proof. unfold supported. apply _. Defined.

(** The test of [revise] keeps the word: [all] found an agreeing word. *)
Definition kept (i j : nat) (ys : list string) (wx : string) : Prop :=
  all_differ wx i j ys = Ok false.

#[global] Instance kept_dec i j ys wx : Decision (kept i j ys wx).
Proof. unfold kept. apply _. Defined.

(** A computation that ends, with a value or an exception. *)
Definition halts {A} (m : outcome A) : Prop :=
  match m with
  | OutOfFuel => False
  | _ => True
  end.

(** ** Well-formed puzzles *)

(** The overlap table as the puzzle model builds it: an entry relates two
    distinct variables, and the crossing is recorded in both directions,
    each with its own index pair, which is the other one swapped. *)
Definition mirrored (cw : Crossword) (x y : Var) : Prop :=
  match overlaps cw x y with
  | None => True
  | Some (i, j) => x ≠ y ∧ overlaps cw y x = Some (j, i)
  end.

#[global] Instance mirrored_dec cw x y : Decision (mirrored cw x y).
Proof. unfold mirrored. destruct (overlaps cw x y) as [[i j]|]; apply _. Defined.

Definition well_formed (cw : Crossword) : Prop :=
  Forall (λ x, Forall (mirrored cw x) (variables cw)) (variables cw).

#[global] Instance well_formed_dec cw : Decision (well_formed cw).
Proof. unfold well_formed. apply _. Defined.

(** The keys of the store are the variables of the puzzle, as [__init__]
    makes them. *)
Definition covers (cw : Crossword) (d : Domains) : Prop :=
  Forall (λ v, v ∈ variables cw) (dict_keys d)
  ∧ Forall (λ v, v ∈ dict_keys d) (variables cw).

#[global] Instance covers_dec cw d : Decision (covers cw d).
Proof. unfold covers. apply _. Defined.

(** The arc [(x, y)] is consistent: the test of [revise] keeps every
    candidate of [x]. *)
Definition arc_ok (cw : Crossword) (d : Domains) (x y : Var) : Prop :=
  match overlaps cw x y with
  | None => True
  | Some (i, j) =>
      ∀ xs ys, dict_get d x = Some xs → dict_get d y = Some ys →
               Forall (kept i j ys) xs
  end.

(** The invariant of the worklist: an arc between variables is queued or
    consistent. *)
Definition ac3_inv (cw : Crossword) (d : Domains) (queue : list arc) : Prop :=
  ∀ x y, x ∈ variables cw → y ∈ variables cw →
         (x, y) ∈ queue ∨ arc_ok cw d x y.


(** ** Sample puzzles *)

(** Two across slots of length 3 crossed by one down slot of length 3. *)
Definition top : Var := mkVar 0 0 ACROSS 3.
Definition down : Var := mkVar 0 1 DOWN 3.
Definition bottom : Var := mkVar 2 0 ACROSS 3.

Definition crossings : Dict (Var * Var) (nat * nat) :=
  [((top, down), (1, 0)); ((down, top), (0, 1));
   ((bottom, down), (1, 2)); ((down, bottom), (2, 1))].

Definition overlap_table (t : Dict (Var * Var) (nat * nat)) (x y : Var)
  : option (nat * nat) := dict_get t (x, y).

(** A puzzle with a solution. *)
Definition puzzle3 : Crossword :=
  mkCrossword [top; down; bottom] ["CAT"; "ART"; "STY"; "DOGS"]
              (overlap_table crossings).

(** The three-slot scenario of the vocabulary CAT, CAR, ART, TAR. *)
Definition puzzle3_unsat : Crossword :=
  mkCrossword [top; down; bottom] ["CAT"; "CAR"; "ART"; "TAR"]
              (overlap_table crossings).

(** One slot, and a vocabulary without a word of its length. *)
Definition lone_slot : Crossword :=
  mkCrossword [top] ["AB"] (overlap_table []).

(** Two slots that do not cross, and one word for both. *)
Definition twin_slots : Crossword :=
  mkCrossword [top; bottom] ["CAT"] (overlap_table []).

(** A grid without slots. *)
Definition no_slots : Crossword :=
  mkCrossword [] ["CAT"] (overlap_table []).

(** The value of a computation that returned, for use on the samples. *)
Definition value_of {A} (m : outcome A) (dft : A) : A :=
  match m with
  | Ok a => a
  | _ => dft
  end.

(** The store of a sample after [enforce_node_consistency]. *)
Definition node_consistent_store (cw : Crossword) : Domains :=
  value_of (enforce_node_consistency (init_domains cw)) [].

(** Short-circuiting on a failed propagation: after [ac3] has returned
    [False], [solve] returns [None] and its trace records no call of
    [backtrack]. *)
Definition solve_skips_search (cw : Crossword) (d : Domains) : Prop :=
  ∀ d1 d2 r,
    enforce_node_consistency d = Ok d1 →
    ac3 cw d1 None = Ok (d2, false) →
    solve cw d = Ok r →
    r.2 = PyNone ∧ ∀ a, Call_backtrack a ∉ s_trace r.1.

(** ** Solutions *)

(** The key set of the assignment is the set of variables. *)
Definition complete (cw : Crossword) (a : Assignment) : Prop :=
  ∀ v, v ∈ dict_keys a ↔ v ∈ variables cw.

(** The three invariants of a consistent assignment: distinct words,
    words of the declared length, and equal letters where two assigned
    variables of the puzzle overlap. *)
Definition consistent_assignment (cw : Crossword) (a : Assignment) : Prop :=
  NoDup (dict_values a)
  ∧ (∀ v w, dict_get a v = Some w → fits v w)
  ∧ (∀ x y wx wy i j,
       x ≠ y → y ∈ variables cw →
       dict_get a x = Some wx → dict_get a y = Some wy →
       overlaps cw x y = Some (i, j) → agree i j wx wy).

(** What a call of the search leaves behind: the store as it was, and,
    when the call returns [None], the assignment as it was. *)
Definition restores (s : search) (r : search * retval) : Prop :=
  s_domains r.1 = s_domains s
  ∧ (r.2 = PyNone → s_assignment r.1 = s_assignment s).

(** ** The conflict count of the value ordering, as the specification
    words it *)

(** The letters at the overlap positions differ. *)
Definition differs_at (i j : nat) (value w : string) : Prop :=
  String.get i value ≠ String.get j w.

#[global] Instance differs_at_dec i j value w : Decision (differs_at i j value w).
Proof. unfold differs_at. apply _. Defined.

(** The candidates of the neighbour [n] that the value rules out. *)
Definition ruled_out (cw : Crossword) (d : Domains) (var : Var)
  (value : string) (n : Var) : list string :=
  match overlaps cw var n with
  | Some (i, j) => filter (differs_at i j value) (default [] (dict_get d n))
  | None => []
  end.

(** The number of pairs of an unassigned neighbour of [var] and a word of
    its current domain that the value rules out. *)
Definition conflict_count (cw : Crossword) (d : Domains) (a : Assignment)
  (var : Var) (value : string) : nat :=
  sum_list ((λ n, length (ruled_out cw d var value n))
              <$> filter (λ n, dict_mem n a = false) (neighbors cw var)).

(** The order of [sorted] on keyed elements. *)
Definition key_le (p q : nat * string) : Prop := p.1 ≤ q.1.

(** [count_conflicts] can read what it needs for the neighbour [n]: when
    [n] is unassigned, the overlap is recorded, [n] has a domain, and the
    overlap indices are within the value and within the candidates of
    [n]. *)
Definition indexable (cw : Crossword) (d : Domains) (a : Assignment)
  (var : Var) (value : string) (n : Var) : Prop :=
  dict_mem n a = false →
  ∃ i j ns, overlaps cw var n = Some (i, j)
            ∧ dict_get d n = Some ns
            ∧ is_Some (String.get i value)
            ∧ Forall (λ w, is_Some (String.get j w)) ns.

(** ** Puzzles and stores on which nothing raises *)

(** The index pair of an overlap lies within the two slots. *)
Definition within (cw : Crossword) (x y : Var) : Prop :=
  match overlaps cw x y with
  | None => True
  | Some (i, j) => i < var_length x ∧ j < var_length y
  end.

#[global] Instance within_dec cw x y : Decision (within cw x y).
Proof. unfold within. destruct (overlaps cw x y) as [[i j]|]; apply _. Defined.

Definition in_range (cw : Crossword) : Prop :=
  Forall (λ x, Forall (within cw x) (variables cw)) (variables cw).

#[global] Instance in_range_dec cw : Decision (in_range cw).
Proof. unfold in_range. apply _. Defined.

(** Every candidate has the length of its variable. *)
Definition node_consistent (d : Domains) : Prop :=
  ∀ v ws, dict_get d v = Some ws → Forall (fits v) ws.

(** The state of a search on a puzzle: only variables are assigned, and
    the store is the node consistent store of the puzzle. *)
Definition search_ok (cw : Crossword) (s : search) : Prop :=
  Forall (λ v, v ∈ variables cw) (dict_keys (s_assignment s))
  ∧ covers cw (s_domains s)
  ∧ node_consistent (s_domains s).

(** A computation that returns a value. *)
Definition returns {A} (m : outcome A) : Prop := ∃ a, m = Ok a.

(** A call of the search that returns the assignment has kept the
    bindings it was given. *)
Definition keeps (s : search) (r : search * retval) : Prop :=
  r.2 = TheAssignment →
  ∀ k, k ∈ dict_keys (s_assignment s) → k ∈ dict_keys (s_assignment r.1).

(** ** Solutions of a puzzle *)

(** Every binding of [a] is a binding of [b]. *)
Definition extends (a b : Assignment) : Prop :=
  ∀ v w, dict_get a v = Some w → dict_get b v = Some w.

(** Every word of the assignment is a candidate of its variable in the
    store. *)
Definition drawn_from (d : Domains) (a : Assignment) : Prop :=
  ∀ v w, dict_get a v = Some w → ∃ ws, dict_get d v = Some ws ∧ w ∈ ws.

(** A solution of the puzzle: a complete and consistent assignment of
    words of the vocabulary. *)
Definition solution (cw : Crossword) (sol : Assignment) : Prop :=
  complete cw sol
  ∧ consistent_assignment cw sol
  ∧ ∀ v w, dict_get sol v = Some w → w ∈ words cw.

(** A solution that can still be found in a store. *)
Definition solution_in (cw : Crossword) (d : Domains) (sol : Assignment)
  : Prop :=
  complete cw sol ∧ consistent_assignment cw sol ∧ drawn_from d sol.

(** The store [d'] keeps the keys of [d] and holds no candidate that [d]
    does not hold. *)
Definition narrows (d d' : Domains) : Prop :=
  dict_keys d' = dict_keys d
  ∧ ∀ v ws', dict_get d' v = Some ws' →
             ∃ ws, dict_get d v = Some ws ∧ ws' ⊆ ws.

(** The arcs that the worklist of [ac3] holds when it starts from the
    default queue: two distinct variables. *)
Definition proper_arc (cw : Crossword) (a : arc) : Prop :=
  a.1 ∈ variables cw ∧ a.2 ∈ variables cw ∧ a.1 ≠ a.2.

(** ** The letter grid *)

(** [letters]: a list of rows, each a list of cells; a cell is [None] or
    a letter. *)
Abbreviation Grid := (list (list (option Ascii.ascii))).

(** The list comprehension of [letter_grid]: [height] fresh rows of
    [width] cells holding [None].  The height and the width are the two
    fields of [self.crossword] that [letter_grid] reads. *)
Definition blank_grid (height width : nat) : Grid :=
  replicate height (replicate width None).

(** The cell of the [k]-th letter of a variable. *)
Definition cell_of (v : Var) (k : nat) : nat * nat :=
  (var_i v + (if decide (var_direction v = DOWN) then k else 0),
   var_j v + (if decide (var_direction v = ACROSS) then k else 0)).

(** [letters[i][j] = c]: both indexings raise [IndexError] out of range. *)
Definition grid_store (g : Grid) (i j : nat) (c : Ascii.ascii) : outcome Grid :=
  match g !! i with
  | None => Raise IndexError
  | Some row =>
      if decide (j < length row) then Ok (<[i := <[j := Some c]> row]> g)
      else Raise IndexError
  end.

(** The body of the inner loop of [letter_grid]. *)
Definition letter_step (v : Var) (word : string) (g : Grid) (k : nat)
  : outcome Grid :=
  c ← str_index word k;
  grid_store g (cell_of v k).1 (cell_of v k).2 c.

(** The body of the outer loop of [letter_grid]. *)
Definition word_step (g : Grid) (entry : Var * string) : outcome Grid :=
  foldM (letter_step entry.1 entry.2) g (seq 0 (String.length entry.2)).

Definition letter_grid (height width : nat) (a : Assignment) : outcome Grid :=
  foldM word_step (blank_grid height width) a.

(** [letters[i][j]], when both indices are in range. *)
Definition grid_get (g : Grid) (i j : nat) : option (option Ascii.ascii) :=
  row ← g !! i; row !! j.

(** A grid of [height] rows of [width] cells. *)
Definition grid_shape (height width : nat) (g : Grid) : Prop :=
  length g = height ∧ Forall (λ row, length row = width) g.

(** The letter that the word of a variable puts on the cell [(i, j)], if
    the word passes over that cell. *)
Definition letter_of (v : Var) (word : string) (i j : nat)
  : option Ascii.ascii :=
  match var_direction v with
  | ACROSS =>
      if decide (i = var_i v ∧ var_j v ≤ j) then String.get (j - var_j v) word
      else None
  | DOWN =>
      if decide (j = var_j v ∧ var_i v ≤ i) then String.get (i - var_i v) word
      else None
  end.

(** The letter of the last entry of the assignment, in the order of its
    items, whose word passes over the cell. *)
Fixpoint last_letter (a : Assignment) (i j : nat) : option Ascii.ascii :=
  match a with
  | [] => None
  | (v, word) :: a' =>
      match last_letter a' i j with
      | Some c => Some c
      | None => letter_of v word i j
      end
  end.

(** Every letter of every word of the assignment has its cell inside the
    grid. *)
Definition inside (height width : nat) (a : Assignment) : Prop :=
  ∀ v word k, (v, word) ∈ a → k < String.length word →
    (cell_of v k).1 < height ∧ (cell_of v k).2 < width.

(** Two words that pass over the same cell put the same letter there. *)
Definition legible (a : Assignment) : Prop :=
  ∀ v1 word1 v2 word2 i j c1 c2,
    (v1, word1) ∈ a → (v2, word2) ∈ a →
    letter_of v1 word1 i j = Some c1 → letter_of v2 word2 i j = Some c2 →
    c1 = c2.
(** * Proofs *)

(** ** The monad *)

Lemma bind_Ok {A B} (m : outcome A) (f : A → outcome B) (b : B) :
  (m ≫= f) = Ok b ↔ ∃ a, m = Ok a ∧ f a = Ok b.
Proof.
  destruct m as [a| |]; simpl; split.
  - eauto.
  - by intros (a' & [= ->] & ?).
  - done.
  - by intros (? & ? & ?).
  - done.
  - by intros (? & ? & ?).
Qed.

(** ** Dictionaries *)

Section dict_facts.
Context {K V : Type} `{EqDecision K}.
Implicit Types (d : Dict K V) (k : K) (v : V).

Lemma dict_get_set_eq d k v : dict_get (dict_set d k v) k = Some v.
Proof.
  induction d as [|[k' v'] d IH]; simpl.
  - by rewrite decide_True.
  - destruct (decide (k' = k)) as [->|Hne]; simpl.
    + by rewrite decide_True.
    + by rewrite decide_False.
Qed.

Lemma dict_get_set_ne d k k' v :
  k ≠ k' → dict_get (dict_set d k v) k' = dict_get d k'.
Proof.
  intros Hne. induction d as [|[k0 v0] d IH]; simpl.
  - by rewrite decide_False.
  - destruct (decide (k0 = k)) as [->|Hne0]; simpl.
    + by rewrite !decide_False.
    + by rewrite IH.
Qed.

Lemma dict_keys_set d k v :
  is_Some (dict_get d k) → dict_keys (dict_set d k v) = dict_keys d.
Proof.
  unfold dict_keys. induction d as [|[k0 v0] d IH]; simpl.
  - by intros [? ?].
  - destruct (decide (k0 = k)) as [->|Hne]; simpl; [done|].
    intros Hs. f_equal. by apply IH.
Qed.

Lemma dict_get_is_Some d k : is_Some (dict_get d k) ↔ k ∈ dict_keys d.
Proof.
  unfold dict_keys. induction d as [|[k0 v0] d IH]; simpl.
  - split; [by intros [? ?]|by intros ?%elem_of_nil].
  - rewrite elem_of_cons. destruct (decide (k0 = k)) as [->|Hne].
    + split; eauto.
    + rewrite IH. intuition congruence.
Qed.

Lemma dict_get_None d k : dict_get d k = None ↔ k ∉ dict_keys d.
Proof. rewrite <-dict_get_is_Some, eq_None_not_Some. done. Qed.

Lemma dict_get_elem_of d k v : dict_get d k = Some v → (k, v) ∈ d.
Proof.
  induction d as [|[k0 v0] d IH]; simpl; [done|].
  destruct (decide (k0 = k)) as [->|Hne].
  - intros [= ->]. left.
  - intros ?. right. auto.
Qed.

Lemma dict_mem_true k d : dict_mem k d = true ↔ k ∈ dict_keys d.
Proof. unfold dict_mem. by rewrite bool_decide_eq_true, dict_get_is_Some. Qed.

Lemma dict_mem_false k d : dict_mem k d = false ↔ k ∉ dict_keys d.
Proof. unfold dict_mem. by rewrite bool_decide_eq_false, dict_get_is_Some. Qed.

Lemma dict_set_fresh d k v : k ∉ dict_keys d → dict_set d k v = d ++ [(k, v)].
Proof.
  unfold dict_keys. induction d as [|[k0 v0] d IH]; simpl; [done|].
  rewrite not_elem_of_cons. intros [Hne Hnin].
  rewrite decide_False by done. by rewrite IH.
Qed.

Lemma dict_del_snoc d k v : k ∉ dict_keys d → dict_del (d ++ [(k, v)]) k = Ok d.
Proof.
  unfold dict_keys. induction d as [|[k0 v0] d IH]; simpl.
  - by rewrite decide_True.
  - rewrite not_elem_of_cons. intros [Hne Hnin].
    rewrite decide_False by done. by rewrite IH.
Qed.

Lemma dict_item_Ok d k v : dict_item d k = Ok v ↔ dict_get d k = Some v.
Proof. unfold dict_item. destruct (dict_get d k); intuition congruence. Qed.
End dict_facts.

(** ** Lists *)

Lemma filter_ext_elem {A} (P Q : A → Prop) `{!∀ x, Decision (P x)}
  `{!∀ x, Decision (Q x)} (l : list A) :
  (∀ x, x ∈ l → (P x ↔ Q x)) → filter P l = filter Q l.
Proof.
  induction l as [|a l IH]; intros Hext; [done|].
  rewrite !filter_cons.
  rewrite IH by (intros; apply Hext; by right).
  destruct (decide (P a)) as [Hp|Hp], (decide (Q a)) as [Hq|Hq]; try done.
  - apply Hext in Hp; [done|left].
  - apply Hext in Hq; [done|left].
Qed.

Lemma filter_all {A} (P : A → Prop) `{!∀ x, Decision (P x)} (l : list A) :
  (∀ x, x ∈ l → P x) → filter P l = l.
Proof.
  induction l as [|a l IH]; intros Hall; [done|].
  rewrite filter_cons_True by (apply Hall; left).
  f_equal. apply IH. intros; apply Hall; by right.
Qed.

(** ** Node consistency *)

Lemma dom_remove_Ok (d : Domains) x w ws :
  dict_get d x = Some ws →
  dom_remove d x w = Ok (dict_set d x (filter (λ u, u ≠ w) ws)).
Proof. intros Hx. unfold dom_remove, dict_item. by rewrite Hx. Qed.

Lemma node_step_unfit var (d : Domains) w :
  ¬ fits var w → node_step var d w = dom_remove d var w.
Proof. intros Hbad. unfold node_step. by rewrite decide_True. Qed.

Lemma node_step_fit var (d : Domains) w : fits var w → node_step var d w = Ok d.
Proof. intros Hfit. unfold node_step. rewrite decide_False; [done|]. by intros []. Qed.

(** The inner loop over the snapshot [l] of the domain of [var]. *)
Lemma node_loop_spec var (l : list string) : ∀ (d : Domains) ws,
  dict_get d var = Some ws →
  ∃ d', foldM (node_step var) d l = Ok d'
        ∧ dict_keys d' = dict_keys d
        ∧ dict_get d' var = Some (filter (λ w, w ∈ l → fits var w) ws)
        ∧ ∀ v, v ≠ var → dict_get d' v = dict_get d v.
Proof.
  induction l as [|w l IH]; intros d ws Hd; cbn [foldM].
  - exists d. split_and!; try done.
    rewrite Hd. f_equal. symmetry. apply filter_all.
    intros ? _ ?%elem_of_nil. done.
  - destruct (decide (fits var w)) as [Hgood|Hbad].
    2:{ rewrite node_step_unfit, (dom_remove_Ok _ _ _ _ Hd) by done. simpl.
      destruct (IH (dict_set d var (filter (λ u, u ≠ w) ws)) _
                  (dict_get_set_eq _ _ _)) as (d' & Hok & Hk & Hv & Ho).
      exists d'. split_and!; try done.
      * rewrite Hk. apply dict_keys_set. by rewrite Hd.
      * rewrite Hv. f_equal. rewrite list_filter_filter.
        apply list_filter_iff. intros u. rewrite elem_of_cons.
        split; [tauto|]. intros H1. split; [tauto|].
        intros ->. apply Hbad, H1. by left.
      * intros v Hne. rewrite Ho by done. by apply dict_get_set_ne. }
    rewrite node_step_fit by done. simpl.
    destruct (IH d ws Hd) as (d' & Hok & Hk & Hv & Ho).
    exists d'. split_and!; try done.
    rewrite Hv. f_equal. apply list_filter_iff. intros u.
    rewrite elem_of_cons. split; [|tauto].
    intros H1 [->|Hin]; by auto.
Qed.

Lemma node_body_spec (d : Domains) var ws :
  dict_get d var = Some ws →
  ∃ d', node_body d var = Ok d'
        ∧ dict_keys d' = dict_keys d
        ∧ dict_get d' var = Some (filter (fits var) ws)
        ∧ ∀ v, v ≠ var → dict_get d' v = dict_get d v.
Proof.
  intros Hd. unfold node_body, dict_item. rewrite Hd. simpl.
  destruct (node_loop_spec var ws d ws Hd) as (d' & Hok & Hk & Hv & Ho).
  exists d'. split_and!; try done.
  rewrite Hv. f_equal. apply filter_ext_elem. tauto.
Qed.

Lemma node_outer_spec (ks : list Var) : ∀ d : Domains,
  (∀ k, k ∈ ks → k ∈ dict_keys d) →
  ∃ d', foldM node_body d ks = Ok d'
        ∧ dict_keys d' = dict_keys d
        ∧ ∀ v, dict_get d' v
               = (if decide (v ∈ ks) then filter (fits v) else id)
                   <$> dict_get d v.
Proof.
  induction ks as [|k ks IH]; intros d Hks; simpl.
  - exists d. split_and!; try done. intros v.
    destruct (decide (v ∈ [])) as [?%elem_of_nil|]; [done|].
    by destruct (dict_get d v).
  - assert (is_Some (dict_get d k)) as [ws Hws].
    { apply dict_get_is_Some, Hks. left. }
    destruct (node_body_spec d k ws Hws) as (d1 & Hok1 & Hk1 & Hv1 & Ho1).
    rewrite Hok1. simpl.
    destruct (IH d1) as (d' & Hok & Hk & Hv).
    { intros k' Hk'. rewrite Hk1. apply Hks. by right. }
    exists d'. split_and!; [done|congruence|].
    intros v. rewrite Hv. destruct (decide (v = k)) as [->|Hne].
    + rewrite Hv1, Hws.
      destruct (decide (k ∈ k :: ks)) as [_|[]]; [|left].
      simpl. f_equal. destruct (decide (k ∈ ks)); [|done].
      apply list_filter_filter_l. done.
    + rewrite Ho1 by done. destruct (dict_get d v); [|done]. simpl.
      f_equal. destruct (decide (v ∈ ks)) as [Hin|Hnin],
        (decide (v ∈ k :: ks)) as [Hin'|Hnin']; try done.
      * destruct Hnin'. by right.
      * apply elem_of_cons in Hin'. tauto.
Qed.

(** The whole pass: every domain is filtered by the length test. *)
Lemma enforce_node_consistency_Ok (d : Domains) :
  ∃ d', enforce_node_consistency d = Ok d'
        ∧ dict_keys d' = dict_keys d
        ∧ ∀ v, dict_get d' v = filter (fits v) <$> dict_get d v.
Proof.
  destruct (node_outer_spec (dict_keys d) d) as (d' & Hok & Hk & Hv); [done|].
  exists d'. split_and!; [done..|].
  intros v. rewrite Hv. destruct (decide (v ∈ dict_keys d)) as [|Hnin]; [done|].
  apply dict_get_None in Hnin. by rewrite Hnin.
Qed.

(** C7. [enforce_node_consistency] never raises, keeps the keys of the
    store, and leaves in the domain of every variable exactly the words of
    its former domain whose length is the declared length of the variable:
    every remaining word fits, and no fitting word is removed. *)
Theorem enforce_node_consistency_spec (d : Domains) :
  ∃ d', enforce_node_consistency d = Ok d'
        ∧ dict_keys d' = dict_keys d
        ∧ (∀ v, dict_get d' v = filter (fits v) <$> dict_get d v)
        ∧ (∀ v ws', dict_get d' v = Some ws' → Forall (fits v) ws')
        ∧ (∀ v ws ws' w, dict_get d v = Some ws → dict_get d' v = Some ws' →
             w ∈ ws → fits v w → w ∈ ws').
Proof.
  destruct (enforce_node_consistency_Ok d) as (d' & Hok & Hk & Hget).
  exists d'. split_and!; try done.
  - intros v ws'. rewrite Hget. destruct (dict_get d v) as [ws|]; [|done].
    intros [= <-]. apply Forall_forall. intros w.
    rewrite list_elem_of_filter. tauto.
  - intros v ws ws' w Hd. rewrite Hget, Hd. intros [= <-] Hin Hfit.
    apply list_elem_of_filter. done.
Qed.

(** On the sample with a solution the word of four letters leaves every
    domain and the words of three letters stay. *)
Lemma enforce_node_consistency_spec_witness :
  ∃ d', enforce_node_consistency (init_domains puzzle3) = Ok d'
        ∧ dict_get d' top = Some ["CAT"; "ART"; "STY"]
        ∧ Forall (fits top) ["CAT"; "ART"; "STY"].
Proof.
  destruct (enforce_node_consistency_spec (init_domains puzzle3))
    as (d' & Hrun & _ & Hget & Hfit & _).
  exists d'. split; [exact Hrun|].
  assert (dict_get d' top = Some ["CAT"; "ART"; "STY"]) as Htop.
  { rewrite Hget. vm_compute. reflexivity. }
  split; [exact Htop|]. exact (Hfit top _ Htop).
Defined.

(** ** [revise] *)

Lemma str_index_Ok w i c : str_index w i = Ok c ↔ String.get i w = Some c.
Proof. unfold str_index. destruct (String.get i w); intuition congruence. Qed.

Lemma all_differ_nil w i j : all_differ w i j [] = Ok true.
Proof. done. Qed.

Lemma all_differ_cons w i j y ys :
  all_differ w i j (y :: ys)
  = a ← str_index w i; b ← str_index y j;
    if decide (a = b) then Ok false else all_differ w i j ys.
Proof.
  unfold all_differ. cbn [allM].
  destruct (str_index w i) as [a| |]; simpl; try done.
  destruct (str_index y j) as [b| |]; simpl; try done.
  destruct (decide (a = b)) as [->|Hne].
  - rewrite bool_decide_eq_false_2; [done|]. by intros [].
  - by rewrite bool_decide_eq_true_2.
Qed.

Lemma all_differ_false w i j ys : all_differ w i j ys = Ok false → supported i j ys w.
Proof.
  induction ys as [|y ys IH]; [done|]. rewrite all_differ_cons. intros H.
  apply bind_Ok in H as (a & Ha & H). apply bind_Ok in H as (b & Hb & H).
  apply str_index_Ok in Ha, Hb.
  destruct (decide (a = b)) as [->|Hne].
  - left. split; [by rewrite Ha|congruence].
  - right. by apply IH.
Qed.

Lemma all_differ_true w i j ys : all_differ w i j ys = Ok true → ¬ supported i j ys w.
Proof.
  induction ys as [|y ys IH]; [by intros _ ?%Exists_nil|].
  rewrite all_differ_cons. intros H.
  apply bind_Ok in H as (a & Ha & H). apply bind_Ok in H as (b & Hb & H).
  apply str_index_Ok in Ha, Hb.
  destruct (decide (a = b)) as [->|Hne]; [done|].
  intros [[_ Heq]|Hs]%Exists_cons; [congruence|]. by apply IH.
Qed.

Lemma all_differ_total w i j ys :
  is_Some (String.get i w) → Forall (λ y, is_Some (String.get j y)) ys →
  ∃ c, all_differ w i j ys = Ok c.
Proof.
  intros [a Ha]. induction 1 as [|y ys [b Hb] _ IH]; [by eexists|].
  rewrite all_differ_cons.
  apply str_index_Ok in Ha as Ha', Hb. rewrite Ha', Hb. simpl.
  destruct (decide (a = b)); eauto.
Qed.

Lemma kept_supported i j ys w c :
  all_differ w i j ys = Ok c → kept i j ys w ↔ supported i j ys w.
Proof.
  intros Hc. unfold kept. split.
  - apply all_differ_false.
  - intros Hs. destruct c; [|done]. by apply all_differ_true in Hc.
Qed.

Section dict_more.
Context {K V : Type} `{EqDecision K}.
Implicit Types (d : Dict K V) (k : K) (v : V).

Lemma dict_set_same d k v : dict_get d k = Some v → dict_set d k v = d.
Proof.
  induction d as [|[k0 v0] d IH]; simpl; [done|].
  destruct (decide (k0 = k)) as [->|Hne]; [by intros [= ->]|].
  intros Hd. by rewrite IH.
Qed.

Lemma dict_set_set d k v v' : dict_set (dict_set d k v) k v' = dict_set d k v'.
Proof.
  induction d as [|[k0 v0] d IH]; simpl.
  - by rewrite decide_True.
  - destruct (decide (k0 = k)) as [->|Hne]; simpl.
    + by rewrite decide_True.
    + rewrite decide_False by done. by rewrite IH.
Qed.
End dict_more.

(** One iteration of the loop of [revise] when the word is kept, and when
    it is removed. *)
Lemma revise_step_kept x y i j (d : Domains) flag w ys :
  dict_get d y = Some ys → kept i j ys w →
  revise_step x y i j (d, flag) w = Ok (d, flag).
Proof.
  intros Hy Hk. unfold revise_step, dict_item. simpl. rewrite Hy. simpl.
  by rewrite Hk.
Qed.

Lemma revise_step_removed x y i j (d : Domains) flag w xs ys :
  dict_get d x = Some xs → dict_get d y = Some ys →
  all_differ w i j ys = Ok true →
  revise_step x y i j (d, flag) w
  = Ok (dict_set d x (filter (λ u, u ≠ w) xs), true).
Proof.
  intros Hx Hy Hk. unfold revise_step, dict_item. simpl. rewrite Hy. simpl.
  rewrite Hk. simpl. by rewrite (dom_remove_Ok _ _ _ _ Hx).
Qed.

Lemma revise_step_inv x y i j (d : Domains) flag w r :
  revise_step x y i j (d, flag) w = Ok r →
  ∃ ys c, dict_get d y = Some ys ∧ all_differ w i j ys = Ok c
          ∧ (c = true → ∃ xs, dict_get d x = Some xs).
Proof.
  unfold revise_step. simpl. intros H.
  apply bind_Ok in H as (ys & Hy%dict_item_Ok & H).
  apply bind_Ok in H as (c & Hc & H).
  exists ys, c. split_and!; try done. intros ->.
  apply bind_Ok in H as (d' & H & _). unfold dom_remove in H.
  apply bind_Ok in H as (xs & Hx%dict_item_Ok & _). eauto.
Qed.

(** The loop of [revise] over a snapshot [l], on distinct variables: the
    domain of [y] does not change while the loop runs, every test returns,
    and the domain of [x] loses the words of [l] that are not kept. *)
Lemma revise_loop_closed x y i j ys (l : list string) :
  x ≠ y → ∀ (d : Domains) flag xs r,
  dict_get d x = Some xs → dict_get d y = Some ys →
  foldM (revise_step x y i j) (d, flag) l = Ok r →
  Forall (λ w, ∃ c, all_differ w i j ys = Ok c) l
  ∧ r.1 = dict_set d x (filter (λ w, w ∈ l → kept i j ys w) xs)
  ∧ r.2 = (flag || bool_decide (Exists (λ w, ¬ kept i j ys w) l)).
Proof.
  intros Hxy. induction l as [|w l IH]; intros d flag xs r Hx Hy; cbn [foldM].
  - intros [= <-]. split_and!; [done| |].
    + simpl. rewrite filter_all by (by intros ? _ ?%elem_of_nil).
      symmetry. by apply dict_set_same.
    + simpl. by destruct flag.
  - intros H. apply bind_Ok in H as (acc & Hstep & Hrest).
    destruct (revise_step_inv _ _ _ _ _ _ _ _ Hstep) as (ys' & c & Hy' & Hc & _).
    assert (ys' = ys) as -> by congruence.
    destruct c.
    + rewrite (revise_step_removed _ _ _ _ _ _ _ _ _ Hx Hy Hc) in Hstep.
      injection Hstep as <-.
      apply IH with (xs := filter (λ u, u ≠ w) xs) in Hrest
        as (Hall & Hd & Hb).
      2:{ apply dict_get_set_eq. }
      2:{ by rewrite dict_get_set_ne. }
      assert (¬ kept i j ys w) as Hnk by (unfold kept; congruence).
      split_and!.
      * constructor; eauto.
      * rewrite Hd, dict_set_set. f_equal. rewrite list_filter_filter.
        apply list_filter_iff. intros u. rewrite elem_of_cons.
        split; [tauto|]. intros H1. split; [tauto|].
        intros ->. apply Hnk, H1. by left.
      * rewrite Hb. simpl. symmetry. apply orb_true_iff. right.
        apply bool_decide_eq_true_2. by left.
    + rewrite (revise_step_kept _ _ _ _ _ _ _ _ Hy Hc) in Hstep.
      injection Hstep as <-.
      apply IH with (xs := xs) in Hrest as (Hall & Hd & Hb); [|done..].
      split_and!.
      * constructor; eauto.
      * rewrite Hd. f_equal. apply list_filter_iff. intros u.
        rewrite elem_of_cons. split; [|tauto].
        intros H1 [->|Hin]; by auto.
      * rewrite Hb. f_equal. apply bool_decide_ext.
        rewrite Exists_cons. unfold kept at 2. tauto.
Qed.

Lemma revise_loop_total x y i j ys (l : list string) :
  x ≠ y →
  Forall (λ w, is_Some (String.get i w)) l →
  Forall (λ w, is_Some (String.get j w)) ys →
  ∀ (d : Domains) flag xs,
  dict_get d x = Some xs → dict_get d y = Some ys →
  ∃ r, foldM (revise_step x y i j) (d, flag) l = Ok r.
Proof.
  intros Hxy Hl Hys. induction Hl as [|w l Hw _ IH]; intros d flag xs Hx Hy.
  - by eexists.
  - cbn [foldM]. destruct (all_differ_total w i j ys Hw Hys) as [[] Hc].
    + rewrite (revise_step_removed _ _ _ _ _ _ _ _ _ Hx Hy Hc). simpl.
      eapply IH; [apply dict_get_set_eq|by rewrite dict_get_set_ne].
    + rewrite (revise_step_kept _ _ _ _ _ _ _ _ Hy Hc). simpl. eauto.
Qed.

(** What a returning [revise] on distinct variables has done. *)
Lemma revise_result cw (d d' : Domains) x y i j xs ys b :
  overlaps cw x y = Some (i, j) → x ≠ y →
  dict_get d x = Some xs → dict_get d y = Some ys →
  revise cw d x y = Ok (d', b) →
  d' = dict_set d x (filter (supported i j ys) xs)
  ∧ (b = true ↔ ∃ w, w ∈ xs ∧ ¬ supported i j ys w).
Proof.
  intros Hov Hxy Hx Hy. unfold revise, dict_item. rewrite Hov, Hx. simpl.
  intros Hrun.
  destruct (revise_loop_closed x y i j ys xs Hxy d false xs _ Hx Hy Hrun)
    as (Hall & Hd & Hb). simpl in Hd, Hb. subst d' b.
  rewrite Forall_forall in Hall.
  assert (∀ w, w ∈ xs → (kept i j ys w ↔ supported i j ys w)) as Hks.
  { intros w Hw. destruct (Hall w Hw) as [c Hc].
    by apply (kept_supported _ _ _ _ _ Hc). }
  split.
  - f_equal. apply filter_ext_elem. intros w Hw. rewrite <-(Hks w Hw).
    tauto.
  - rewrite bool_decide_eq_true, Exists_exists.
    split; intros (w & Hw & Hn); exists w; (split; [done|]);
      by rewrite ?(Hks w Hw) in *.
Qed.

Lemma revise_total cw (d : Domains) x y i j xs ys :
  overlaps cw x y = Some (i, j) → x ≠ y →
  dict_get d x = Some xs → dict_get d y = Some ys →
  Forall (λ w, is_Some (String.get i w)) xs →
  Forall (λ w, is_Some (String.get j w)) ys →
  ∃ d' b, revise cw d x y = Ok (d', b).
Proof.
  intros Hov Hxy Hx Hy Hxs Hys. unfold revise, dict_item. rewrite Hov, Hx.
  simpl.
  destruct (revise_loop_total x y i j ys xs Hxy Hxs Hys d false xs Hx Hy)
    as [[d' b] Hr].
  eauto.
Qed.

(** C6. [revise(x, y)] without a recorded overlap changes nothing and
    returns [False].  With the overlap [(i, j)], on two distinct variables
    of the store, a call that returns has removed from the domain of [x]
    exactly the words that no word of the domain of [y] agrees with at the
    overlap, has kept the other words of [x] and the domains of all other
    variables, and returns [True] iff a word was removed; and the call does
    return when the overlap indices are within the candidate words. *)
Theorem revise_spec (cw : Crossword) (d : Domains) (x y : Var) :
  (overlaps cw x y = None → revise cw d x y = Ok (d, false))
  ∧ (∀ i j xs ys,
       overlaps cw x y = Some (i, j) → x ≠ y →
       dict_get d x = Some xs → dict_get d y = Some ys →
       (∀ d' b, revise cw d x y = Ok (d', b) →
          ∃ xs', dict_get d' x = Some xs'
                 ∧ xs' = filter (supported i j ys) xs
                 ∧ (∀ v, v ≠ x → dict_get d' v = dict_get d v)
                 ∧ dict_keys d' = dict_keys d
                 ∧ (b = true ↔ ∃ w, w ∈ xs ∧ w ∉ xs'))
       ∧ (Forall (λ w, is_Some (String.get i w)) xs →
          Forall (λ w, is_Some (String.get j w)) ys →
          ∃ d' b, revise cw d x y = Ok (d', b))).
Proof.
  split.
  { intros Hov. unfold revise. by rewrite Hov. }
  intros i j xs ys Hov Hxy Hx Hy. split; [|by apply revise_total].
  intros d' b Hrun.
  destruct (revise_result cw d d' x y i j xs ys b Hov Hxy Hx Hy Hrun)
    as [-> Hb].
  eexists. split_and!; [apply dict_get_set_eq|done| | |].
  - intros v Hv. by apply dict_get_set_ne.
  - apply dict_keys_set. by rewrite Hx.
  - rewrite Hb. split; intros (w & Hw & Hn); exists w; (split; [done|]).
    + rewrite list_elem_of_filter. tauto.
    + intros Hs. apply Hn, list_elem_of_filter. done.
Qed.

Lemma revise_spec_witness :
  ∃ d' b, revise puzzle3 (node_consistent_store puzzle3) top down = Ok (d', b)
          ∧ dict_get d' top = Some ["CAT"]
          ∧ dict_get d' down = Some ["CAT"; "ART"; "STY"]
          ∧ b = true.
Proof.
  destruct (revise_spec puzzle3 (node_consistent_store puzzle3) top down)
    as [_ Hspec].
  destruct (Hspec 1 0 ["CAT"; "ART"; "STY"] ["CAT"; "ART"; "STY"])
    as [Hret Htotal].
  - vm_compute. reflexivity.
  - apply (bool_decide_unpack _). vm_compute. exact I.
  - vm_compute. reflexivity.
  - vm_compute. reflexivity.
  - destruct Htotal as (d' & b & Hrun).
    + apply (bool_decide_unpack _). vm_compute. exact I.
    + apply (bool_decide_unpack _). vm_compute. exact I.
    + exists d', b. split; [exact Hrun|].
      destruct (Hret d' b Hrun) as (xs' & Hx & -> & Hother & _ & Hb).
      split_and!.
      * rewrite Hx. vm_compute. reflexivity.
      * rewrite Hother; [vm_compute; reflexivity|].
        apply (bool_decide_unpack _). vm_compute. exact I.
      * apply Hb. exists "ART". split.
        -- apply (bool_decide_unpack _). vm_compute. exact I.
        -- apply (bool_decide_unpack _). vm_compute. exact I.
Defined.

(** ** Termination of the loops *)

Lemma halts_bind {A B} (m : outcome A) (f : A → outcome B) :
  halts m → (∀ a, m = Ok a → halts (f a)) → halts (m ≫= f).
Proof. destruct m; simpl; auto. Qed.

Lemma halts_foldM {A B} (f : B → A → outcome B) (l : list A) :
  (∀ b a, halts (f b a)) → ∀ b, halts (foldM f b l).
Proof.
  intros Hf. induction l as [|a l IH]; intros b; [done|].
  cbn [foldM]. apply halts_bind; auto.
Qed.

Lemma halts_allM {A} (f : A → outcome bool) (l : list A) :
  (∀ a, halts (f a)) → halts (allM f l).
Proof.
  intros Hf. induction l as [|a l IH]; [done|].
  cbn [allM]. apply halts_bind; [done|]. by intros [] _.
Qed.

Lemma halts_mapM {A B} (f : A → outcome B) (l : list A) :
  (∀ a, halts (f a)) → halts (mapM f l).
Proof.
  intros Hf. induction l as [|a l IH]; [done|].
  cbn [mapM]. apply halts_bind; [done|]. intros b _.
  apply halts_bind; [done|]. done.
Qed.

Lemma halts_dict_item {K V} `{EqDecision K} (d : Dict K V) k :
  halts (dict_item d k).
Proof. unfold dict_item. by destruct (dict_get d k). Qed.

Lemma halts_str_index w i : halts (str_index w i).
Proof. unfold str_index. by destruct (String.get i w). Qed.

Lemma halts_dom_remove (d : Domains) x w : halts (dom_remove d x w).
Proof.
  unfold dom_remove. apply halts_bind; [apply halts_dict_item|done].
Qed.

Lemma halts_all_differ w i j ys : halts (all_differ w i j ys).
Proof.
  apply halts_allM. intros y.
  apply halts_bind; [apply halts_str_index|]. intros a _.
  apply halts_bind; [apply halts_str_index|]. done.
Qed.

Lemma halts_revise cw (d : Domains) x y : halts (revise cw d x y).
Proof.
  unfold revise. destruct (overlaps cw x y) as [[i j]|]; [|done].
  apply halts_bind; [apply halts_dict_item|]. intros xs _.
  apply halts_foldM. intros acc w. unfold revise_step.
  apply halts_bind; [apply halts_dict_item|]. intros ys _.
  apply halts_bind; [apply halts_all_differ|]. intros [] _; [|done].
  apply halts_bind; [apply halts_dom_remove|]. done.
Qed.

(** ** The size of the store *)

Lemma store_size_cons (d : Domains) x xs :
  store_size ((x, xs) :: d) = length xs + store_size d.
Proof. done. Qed.

Lemma store_size_set (d : Domains) x xs xs' :
  dict_get d x = Some xs →
  store_size (dict_set d x xs') + length xs = store_size d + length xs'.
Proof.
  induction d as [|[k v] d IH]; cbn [dict_get dict_set]; [done|].
  destruct (decide (k = x)) as [->|Hne].
  - intros [= ->]. rewrite !store_size_cons. lia.
  - intros Hd. rewrite !store_size_cons. specialize (IH Hd). lia.
Qed.

Lemma revise_step_cases x y i j (d : Domains) flag w r :
  revise_step x y i j (d, flag) w = Ok r →
  r = (d, flag)
  ∨ ∃ xs, dict_get d x = Some xs
          ∧ r = (dict_set d x (filter (λ u, u ≠ w) xs), true).
Proof.
  intros Hstep.
  destruct (revise_step_inv _ _ _ _ _ _ _ _ Hstep) as (ys & c & Hy & Hc & Hx).
  destruct c.
  - destruct Hx as [xs Hx]; [done|]. right. exists xs. split; [done|].
    rewrite (revise_step_removed _ _ _ _ _ _ _ _ _ Hx Hy Hc) in Hstep.
    congruence.
  - left. rewrite (revise_step_kept _ _ _ _ _ _ _ _ Hy Hc) in Hstep.
    congruence.
Qed.

Lemma revise_loop_mono x y i j (l : list string) : ∀ (d : Domains) flag r,
  foldM (revise_step x y i j) (d, flag) l = Ok r →
  dict_keys r.1 = dict_keys d
  ∧ store_size r.1 ≤ store_size d
  ∧ (flag = true → r.2 = true).
Proof.
  induction l as [|w l IH]; intros d flag r; cbn [foldM].
  - by intros [= <-].
  - intros H. apply bind_Ok in H as ([d1 f1] & Hstep & Hrest).
    apply IH in Hrest as (Hk & Hs & Hf). simpl in *.
    apply revise_step_cases in Hstep as [[= -> ->]|(xs & Hx & [= -> ->])].
    + done.
    + split_and!; [| |auto].
      * rewrite Hk. apply dict_keys_set. by rewrite Hx.
      * pose proof (store_size_set d x xs (filter (λ u, u ≠ w) xs) Hx).
        pose proof (length_filter (λ u, u ≠ w) xs). lia.
Qed.

Lemma revise_loop_strict x y i j (l : list string) : ∀ (d : Domains) flag r,
  foldM (revise_step x y i j) (d, flag) l = Ok r →
  (∀ xs, dict_get d x = Some xs → l ⊆ xs) →
  r = (d, flag) ∨ (r.2 = true ∧ store_size r.1 < store_size d).
Proof.
  induction l as [|w l IH]; intros d flag r; cbn [foldM].
  - intros [= <-]. by left.
  - intros H Hsub. apply bind_Ok in H as ([d1 f1] & Hstep & Hrest).
    apply revise_step_cases in Hstep as [[= -> ->]|(xs & Hx & [= -> ->])].
    + apply IH in Hrest; [done|]. intros xs Hx u Hu.
      apply (Hsub xs Hx). by right.
    + right. apply revise_loop_mono in Hrest as (_ & Hs & Hf). simpl in *.
      split; [auto|].
      pose proof (store_size_set d x xs (filter (λ u, u ≠ w) xs) Hx).
      assert (length (filter (λ u, u ≠ w) xs) < length xs).
      { apply length_filter_lt with w; [|tauto].
        apply (Hsub xs Hx). left. }
      lia.
Qed.

(** What a call of [revise] does to the store: nothing when it returns
    [False], and it takes away at least one word when it returns [True]. *)
Lemma revise_effect cw (d : Domains) x y r :
  revise cw d x y = Ok r →
  dict_keys r.1 = dict_keys d
  ∧ (r = (d, false) ∨ (r.2 = true ∧ store_size r.1 < store_size d)).
Proof.
  unfold revise. destruct (overlaps cw x y) as [[i j]|].
  - intros H. apply bind_Ok in H as (xs & Hx%dict_item_Ok & Hloop). split.
    + by apply revise_loop_mono in Hloop as (? & _).
    + apply revise_loop_strict in Hloop; [done|]. intros xs'. rewrite Hx.
      by intros [= ->].
  - intros [= <-]. split; [done|by left].
Qed.

(** ** Termination of [ac3] *)

Lemma requeue_length cw x y : length (requeue cw x y) ≤ length (variables cw).
Proof.
  unfold requeue, neighbors. rewrite length_fmap.
  etrans; [apply length_filter|]. apply length_filter.
Qed.

Lemma ac3_loop_halts cw : ∀ fuel (d : Domains) queue,
  store_size d * S (length (variables cw)) + length queue < fuel →
  halts (ac3_loop fuel cw d queue).
Proof.
  induction fuel as [|fuel IH]; intros d queue Hfuel; [lia|].
  cbn [ac3_loop]. destruct queue as [|[x y] queue]; [done|].
  simpl in Hfuel. apply halts_bind; [apply halts_revise|].
  intros r [Hk [->|[Hb Hsize]]]%revise_effect.
  - simpl. apply IH. lia.
  - rewrite Hb. apply halts_bind; [apply halts_dict_item|].
    intros [|w ws] _; [done|]. apply IH.
    rewrite length_app. pose proof (requeue_length cw x y). nia.
Qed.

Lemma ac3_loop_fuel_mono cw : ∀ fuel fuel' (d : Domains) queue,
  fuel ≤ fuel' → halts (ac3_loop fuel cw d queue) →
  ac3_loop fuel' cw d queue = ac3_loop fuel cw d queue.
Proof.
  induction fuel as [|fuel IH]; intros fuel' d queue Hle; [done|].
  destruct fuel' as [|fuel']; [lia|]. cbn [ac3_loop].
  destruct queue as [|[x y] queue]; [done|].
  destruct (revise cw d x y) as [r| |]; simpl; [|done..].
  destruct r.2.
  - destruct (dict_item r.1 x) as [[|w ws]| |]; simpl; try done.
    apply IH. lia.
  - apply IH. lia.
Qed.

(** C8. [ac3] ends on every store and every initial list of arcs, the
    default one included: the worklist is emptied, or an emptied domain or
    an exception stops it, within [ac3_fuel] iterations, and more fuel
    does not change the result.  The bound holds because a call of
    [revise] that returns [False] leaves the store as it is, so that the
    queue only loses its first arc, and a call that returns [True] makes
    the store smaller, while at most one arc per variable is appended. *)
Theorem ac3_terminates (cw : Crossword) (d : Domains) (arcs : option (list arc)) :
  halts (ac3 cw d arcs)
  ∧ (∀ extra,
       ac3_loop (ac3_fuel cw d (default (default_arcs cw d) arcs) + extra) cw d
                (default (default_arcs cw d) arcs)
       = ac3 cw d arcs)
  ∧ (∀ x y,
       match revise cw d x y with
       | Ok r => r = (d, false)
                 ∨ (r.2 = true ∧ store_size r.1 < store_size d
                    ∧ length (requeue cw x y) ≤ length (variables cw))
       | Raise _ => True
       | OutOfFuel => False
       end).
Proof.
  assert (∀ queue, halts (ac3_loop (ac3_fuel cw d queue) cw d queue)) as Hh.
  { intros queue. apply ac3_loop_halts. unfold ac3_fuel. lia. }
  assert (∀ queue extra,
            ac3_loop (ac3_fuel cw d queue + extra) cw d queue
            = ac3_loop (ac3_fuel cw d queue) cw d queue) as Hm.
  { intros queue extra. apply ac3_loop_fuel_mono; [lia|apply Hh]. }
  split_and!.
  - destruct arcs as [queue|]; apply Hh.
  - destruct arcs as [queue|]; apply Hm.
  - intros x y. pose proof (halts_revise cw d x y) as Hhalts.
    destruct (revise cw d x y) as [r| |] eqn:Hrev; [|done..].
    apply revise_effect in Hrev as [_ [->|[Hb Hsize]]]; [by left|].
    right. split_and!; [done..|]. apply requeue_length.
Qed.

(** ** Arc consistency at the end of [ac3] *)

Lemma well_formed_overlap cw x y i j :
  well_formed cw → x ∈ variables cw → y ∈ variables cw →
  overlaps cw x y = Some (i, j) → x ≠ y ∧ overlaps cw y x = Some (j, i).
Proof.
  unfold well_formed. rewrite Forall_forall. intros Hwf Hx Hy Hov.
  specialize (Hwf x Hx). rewrite Forall_forall in Hwf.
  specialize (Hwf y Hy). unfold mirrored in Hwf. by rewrite Hov in Hwf.
Qed.

Lemma covers_elem cw (d : Domains) v :
  covers cw d → v ∈ dict_keys d ↔ v ∈ variables cw.
Proof.
  intros [H1 H2]. rewrite Forall_forall in H1, H2. split; auto.
Qed.

Lemma covers_lookup cw (d : Domains) v :
  covers cw d → v ∈ variables cw → ∃ ws, dict_get d v = Some ws.
Proof.
  intros Hc Hv. apply (covers_elem _ _ _ Hc) in Hv.
  by apply dict_get_is_Some in Hv.
Qed.

Lemma covers_keys cw (d d' : Domains) :
  dict_keys d' = dict_keys d → covers cw d → covers cw d'.
Proof. unfold covers. by intros ->. Qed.

Lemma revise_closed cw (d : Domains) x y i j xs ys r :
  overlaps cw x y = Some (i, j) → x ≠ y →
  dict_get d x = Some xs → dict_get d y = Some ys →
  revise cw d x y = Ok r →
  Forall (λ w, ∃ c, all_differ w i j ys = Ok c) xs
  ∧ r.1 = dict_set d x (filter (kept i j ys) xs)
  ∧ r.2 = bool_decide (Exists (λ w, ¬ kept i j ys w) xs).
Proof.
  intros Hov Hxy Hx Hy. unfold revise, dict_item. rewrite Hov, Hx. simpl.
  intros Hrun.
  destruct (revise_loop_closed x y i j ys xs Hxy d false xs _ Hx Hy Hrun)
    as (Hall & Hd & Hb).
  split_and!; [done| |done].
  rewrite Hd. f_equal. apply filter_ext_elem. tauto.
Qed.

(** A word of [y] that finds its support in [xs] still finds it after the
    words of [xs] without support in [ys] are gone. *)
Lemma kept_mirror i j ys wy (xs : list string) :
  wy ∈ ys →
  Forall (λ w, ∃ c, all_differ w i j ys = Ok c) xs →
  kept j i xs wy → kept j i (filter (kept i j ys) xs) wy.
Proof.
  intros Hwy. induction 1 as [|w xs [c Hc] _ IH]; [done|].
  intros H. change (all_differ wy j i (w :: xs) = Ok false) in H.
  rewrite all_differ_cons in H.
  apply bind_Ok in H as (a & Ha & H). apply bind_Ok in H as (b & Hb & H).
  destruct (decide (a = b)) as [->|Hne].
  - assert (kept i j ys w) as Hk.
    { apply (kept_supported _ _ _ _ _ Hc). apply Exists_exists.
      exists wy. split; [done|]. apply str_index_Ok in Ha, Hb.
      split; [by rewrite Hb|congruence]. }
    rewrite filter_cons_True by done.
    change (all_differ wy j i (w :: filter (kept i j ys) xs) = Ok false).
    rewrite all_differ_cons, Ha, Hb. simpl. by rewrite decide_True.
  - specialize (IH H). destruct (decide (kept i j ys w)).
    + rewrite filter_cons_True by done.
      change (all_differ wy j i (w :: filter (kept i j ys) xs) = Ok false).
      rewrite all_differ_cons, Ha, Hb. simpl. by rewrite decide_False.
    + by rewrite filter_cons_False.
Qed.

Lemma arc_ok_set_other cw (d : Domains) x xs' u v :
  u ≠ x → v ≠ x → arc_ok cw d u v → arc_ok cw (dict_set d x xs') u v.
Proof.
  intros Hu Hv. unfold arc_ok. destruct (overlaps cw u v) as [[i j]|]; [|done].
  intros Hok us vs. rewrite !dict_get_set_ne by done. apply Hok.
Qed.

Lemma arc_ok_set_fst cw (d : Domains) x xs xs' v :
  v ≠ x → dict_get d x = Some xs → xs' ⊆ xs →
  arc_ok cw d x v → arc_ok cw (dict_set d x xs') x v.
Proof.
  intros Hv Hx Hsub. unfold arc_ok.
  destruct (overlaps cw x v) as [[i j]|]; [|done].
  intros Hok us vs. rewrite dict_get_set_eq, dict_get_set_ne by done.
  intros [= <-] Hvs. specialize (Hok xs vs Hx Hvs).
  rewrite Forall_forall in Hok. apply Forall_forall. auto.
Qed.

Lemma neighbors_elem cw x v :
  v ∈ neighbors cw x ↔ (v ≠ x ∧ is_Some (overlaps cw x v)) ∧ v ∈ variables cw.
Proof. unfold neighbors. by rewrite list_elem_of_filter. Qed.

Lemma requeue_elem cw x y a :
  a ∈ requeue cw x y ↔ a.2 = x ∧ a.1 ≠ y ∧ a.1 ∈ neighbors cw x.
Proof.
  unfold requeue. rewrite list_elem_of_fmap. split.
  - intros (z & -> & Hz%list_elem_of_filter). tauto.
  - destruct a as [z x']. simpl. intros (-> & Hne & Hz). exists z.
    split; [done|]. by apply list_elem_of_filter.
Qed.

Lemma default_arcs_elem cw (d : Domains) x y :
  (x, y) ∈ default_arcs cw d ↔ x ∈ dict_keys d ∧ y ∈ neighbors cw x.
Proof.
  unfold default_arcs. rewrite list_elem_of_bind. split.
  - intros (x' & (y' & [= -> ->]%list_elem_of_singleton & Hy)%list_elem_of_bind & Hx).
    done.
  - intros [Hx Hy]. exists x. split; [|done]. apply list_elem_of_bind.
    exists y. split; [by apply list_elem_of_singleton|done].
Qed.

(** The invariant after a revision that took words away from [x]. *)
Lemma ac3_inv_revised cw (d : Domains) x y i j xs ys queue :
  well_formed cw → x ∈ variables cw → y ∈ variables cw →
  overlaps cw x y = Some (i, j) →
  dict_get d x = Some xs → dict_get d y = Some ys →
  Forall (λ w, ∃ c, all_differ w i j ys = Ok c) xs →
  ac3_inv cw d ((x, y) :: queue) →
  ac3_inv cw (dict_set d x (filter (kept i j ys) xs))
          (queue ++ requeue cw x y).
Proof.
  intros Hwf Hx Hy Hov Hdx Hdy Hall Hinv u v Hu Hv.
  destruct (well_formed_overlap cw x y i j Hwf Hx Hy Hov) as [Hxy Hov'].
  assert (arc_ok cw (dict_set d x (filter (kept i j ys) xs)) x y) as Hnew.
  { unfold arc_ok. rewrite Hov. intros us vs.
    rewrite dict_get_set_eq, dict_get_set_ne, Hdy by done.
    intros [= <-] [= <-]. apply Forall_forall. intros w.
    rewrite list_elem_of_filter. tauto. }
  destruct (Hinv u v Hu Hv) as [[[= -> ->]|Hin]%elem_of_cons|Hok].
  { by right. }
  { left. apply elem_of_app. by left. }
  destruct (decide (u = x)) as [->|Hux].
  { right. destruct (overlaps cw x v) as [[i' j']|] eqn:Hov1.
    - destruct (well_formed_overlap cw x v i' j' Hwf Hx Hv Hov1) as [Hxv _].
      apply arc_ok_set_fst with xs; [done|done| |done].
      apply list_subseteq_filter.
    - unfold arc_ok. by rewrite Hov1. }
  destruct (decide (v = x)) as [->|Hvx].
  2:{ right. by apply arc_ok_set_other. }
  destruct (overlaps cw u x) as [[i' j']|] eqn:Hov1.
  2:{ right. unfold arc_ok. by rewrite Hov1. }
  destruct (well_formed_overlap cw u x i' j' Hwf Hu Hx Hov1) as [_ Hov2].
  destruct (decide (u = y)) as [->|Huy].
  - right. assert (i' = j ∧ j' = i) as [-> ->] by (split; congruence).
    unfold arc_ok in Hok |- *. rewrite Hov1 in Hok |- *. intros us vs.
    rewrite dict_get_set_eq, dict_get_set_ne, Hdy by done.
    intros [= <-] [= <-]. specialize (Hok ys xs Hdy Hdx).
    rewrite Forall_forall in Hok. apply Forall_forall. intros wy Hwy.
    apply kept_mirror; auto.
  - left. apply elem_of_app. right. apply requeue_elem. simpl.
    split_and!; [done..|]. apply neighbors_elem. split_and!; [done| |done].
    by rewrite Hov2.
Qed.

Lemma ac3_loop_sound cw : well_formed cw → ∀ fuel (d : Domains) queue d',
  ac3_loop fuel cw d queue = Ok (d', true) →
  covers cw d →
  Forall (λ a : arc, a.1 ∈ variables cw ∧ a.2 ∈ variables cw) queue →
  ac3_inv cw d queue →
  dict_keys d' = dict_keys d
  ∧ ∀ x y, x ∈ variables cw → y ∈ variables cw → arc_ok cw d' x y.
Proof.
  intros Hwf. induction fuel as [|fuel IH]; intros d queue d'; [done|].
  cbn [ac3_loop]. destruct queue as [|[x y] queue].
  { intros [= <-] _ _ Hinv. split; [done|]. intros x y Hx Hy.
    by destruct (Hinv x y Hx Hy) as [?%elem_of_nil|]. }
  intros Hrun Hcov [[Hx Hy] Hq]%Forall_cons Hinv. simpl in Hx, Hy.
  apply bind_Ok in Hrun as (r & Hrev & Hrun).
  destruct (covers_lookup cw d x Hcov Hx) as [xs Hdx].
  destruct (covers_lookup cw d y Hcov Hy) as [ys Hdy].
  destruct (overlaps cw x y) as [[i j]|] eqn:Hov.
  2:{ unfold revise in Hrev. rewrite Hov in Hrev. injection Hrev as <-.
      simpl in Hrun. apply IH in Hrun; [done..|].
      intros u v Hu Hv.
      destruct (Hinv u v Hu Hv) as [[[= -> ->]|Hin]%elem_of_cons|Hok]; auto.
      right. unfold arc_ok. by rewrite Hov. }
  destruct (well_formed_overlap cw x y i j Hwf Hx Hy Hov) as [Hxy Hov'].
  destruct (revise_closed cw d x y i j xs ys r Hov Hxy Hdx Hdy Hrev)
    as (Hall & Hr1 & Hr2).
  assert (dict_keys r.1 = dict_keys d) as Hkeys.
  { rewrite Hr1. apply dict_keys_set. by rewrite Hdx. }
  destruct r.2 eqn:Hb.
  - apply bind_Ok in Hrun as (xs' & _ & Hrun).
    destruct xs' as [|w xs']; [done|].
    apply IH in Hrun as [Hk Harcs].
    + split; [congruence|done].
    + by apply (covers_keys cw d r.1).
    + apply Forall_app. split; [done|]. apply Forall_forall.
      intros [z x'] (Hx' & _ & Hz%neighbors_elem)%requeue_elem.
      simpl in *. subst x'. tauto.
    + rewrite Hr1. by apply ac3_inv_revised.
  - apply IH in Hrun as [Hk Harcs].
    + split; [congruence|done].
    + by apply (covers_keys cw d r.1).
    + done.
    + symmetry in Hr2. apply bool_decide_eq_false in Hr2.
      assert (Forall (kept i j ys) xs) as Hkept.
      { apply Forall_forall. intros w Hw.
        destruct (decide (kept i j ys w)) as [|Hnk]; [done|].
        destruct Hr2. apply Exists_exists. eauto. }
      assert (r.1 = d) as ->.
      { rewrite Hr1, filter_all; [by apply dict_set_same|].
        by apply Forall_forall. }
      intros u v Hu Hv.
      destruct (Hinv u v Hu Hv) as [[[= -> ->]|Hin]%elem_of_cons|Hok]; auto.
      right. unfold arc_ok. rewrite Hov. intros us vs. rewrite Hdx, Hdy.
      by intros [= <-] [= <-].
Qed.

Lemma revise_loop_noop x y i j ys (l : list string) (d : Domains) flag :
  dict_get d y = Some ys → Forall (kept i j ys) l →
  foldM (revise_step x y i j) (d, flag) l = Ok (d, flag).
Proof.
  intros Hy. induction 1 as [|w l Hw _ IH]; [done|].
  cbn [foldM]. by rewrite (revise_step_kept _ _ _ _ _ _ _ _ Hy Hw).
Qed.

Lemma ac3_inv_default cw (d : Domains) :
  well_formed cw → covers cw d → ac3_inv cw d (default_arcs cw d).
Proof.
  intros Hwf Hcov x y Hx Hy.
  destruct (overlaps cw x y) as [[i j]|] eqn:Hov.
  - left. apply default_arcs_elem. split; [by apply (covers_elem cw)|].
    destruct (well_formed_overlap cw x y i j Hwf Hx Hy Hov) as [Hxy _].
    apply neighbors_elem. rewrite Hov. intuition (subst; eauto).
  - right. unfold arc_ok. by rewrite Hov.
Qed.

Lemma default_arcs_variables cw (d : Domains) :
  covers cw d →
  Forall (λ a : arc, a.1 ∈ variables cw ∧ a.2 ∈ variables cw)
         (default_arcs cw d).
Proof.
  intros Hcov. apply Forall_forall.
  intros [x y] [Hx Hy%neighbors_elem]%default_arcs_elem. simpl.
  split; [by apply (covers_elem cw d)|tauto].
Qed.

(** C4. On a well-formed puzzle whose variables are the keys of the
    store, when [ac3] run with the default queue returns [True], every
    ordered pair of variables with an overlap [(i, j)] is arc consistent:
    each remaining candidate of [x] agrees at the overlap with a remaining
    candidate of [y], and a further [revise(x, y)] returns [False] and
    leaves the store as it is. *)
Theorem ac3_fixpoint (cw : Crossword) (d d' : Domains) :
  well_formed cw → covers cw d →
  ac3 cw d None = Ok (d', true) →
  ∀ x y i j,
    x ∈ variables cw → y ∈ variables cw → overlaps cw x y = Some (i, j) →
    ∃ xs ys, dict_get d' x = Some xs ∧ dict_get d' y = Some ys
             ∧ Forall (supported i j ys) xs
             ∧ revise cw d' x y = Ok (d', false).
Proof.
  intros Hwf Hcov Hrun x y i j Hx Hy Hov. unfold ac3 in Hrun.
  apply (ac3_loop_sound cw Hwf) in Hrun as [Hkeys Harcs];
    [|done|by apply default_arcs_variables|by apply ac3_inv_default].
  assert (covers cw d') as Hcov' by by apply (covers_keys cw d d').
  destruct (covers_lookup cw d' x Hcov' Hx) as [xs Hdx].
  destruct (covers_lookup cw d' y Hcov' Hy) as [ys Hdy].
  specialize (Harcs x y Hx Hy). unfold arc_ok in Harcs. rewrite Hov in Harcs.
  specialize (Harcs xs ys Hdx Hdy).
  exists xs, ys. split_and!; [done|done| |].
  - eapply Forall_impl; [exact Harcs|]. intros w. apply all_differ_false.
  - unfold revise, dict_item. rewrite Hov, Hdx. simpl.
    by apply revise_loop_noop with ys.
Qed.

Lemma ac3_fixpoint_witness :
  ∃ d', ac3 puzzle3 (node_consistent_store puzzle3) None = Ok (d', true)
        ∧ ∃ xs ys, dict_get d' top = Some xs ∧ dict_get d' down = Some ys
                   ∧ Forall (supported 1 0 ys) xs
                   ∧ revise puzzle3 d' top down = Ok (d', false).
Proof.
  eexists. split; [vm_compute; reflexivity|].
  apply (ac3_fixpoint puzzle3 (node_consistent_store puzzle3)).
  - apply (bool_decide_unpack _). vm_compute. exact I.
  - apply (bool_decide_unpack _). vm_compute. exact I.
  - vm_compute. reflexivity.
  - apply (bool_decide_unpack _). vm_compute. exact I.
  - apply (bool_decide_unpack _). vm_compute. exact I.
  - vm_compute. reflexivity.
Defined.

(** ** [ac3] and empty domains *)

(** C3, at the input where the code departs from it: one slot of length 3
    without neighbours and the vocabulary AB.  Node consistency empties
    the domain of the slot; [ac3] with the default queue finds no arc to
    revise and returns [True] over the empty domain. *)
Theorem ac3_true_over_empty_domain :
  enforce_node_consistency (init_domains lone_slot) = Ok [(top, [])]
  ∧ default_arcs lone_slot [(top, [])] = []
  ∧ ac3 lone_slot [(top, [])] None = Ok ([(top, [])], true).
Proof. split_and!; vm_compute; reflexivity. Qed.

Lemma ac3_loop_false cw : ∀ fuel (d : Domains) queue d',
  ac3_loop fuel cw d queue = Ok (d', false) →
  dict_keys d' = dict_keys d ∧ ∃ x, dict_get d' x = Some [].
Proof.
  induction fuel as [|fuel IH]; intros d queue d'; [done|].
  cbn [ac3_loop]. destruct queue as [|[x y] queue]; [done|].
  intros Hrun. apply bind_Ok in Hrun as (r & Hrev & Hrun).
  apply revise_effect in Hrev as [Hkeys _].
  destruct r.2.
  - apply bind_Ok in Hrun as (xs & Hx%dict_item_Ok & Hrun).
    destruct xs as [|w xs].
    + injection Hrun as <-. split; [done|]. eauto.
    + apply IH in Hrun as [Hk Hex]. split; [congruence|done].
  - apply IH in Hrun as [Hk Hex]. split; [congruence|done].
Qed.

Lemma revise_loop_others x y i j (l : list string) : ∀ (d : Domains) flag r,
  foldM (revise_step x y i j) (d, flag) l = Ok r →
  ∀ v, v ≠ x → dict_get r.1 v = dict_get d v.
Proof.
  induction l as [|w l IH]; intros d flag r; cbn [foldM].
  - by intros [= <-].
  - intros H v Hv. apply bind_Ok in H as ([d1 f1] & Hstep & Hrest).
    rewrite (IH _ _ _ Hrest v Hv). simpl.
    apply revise_step_cases in Hstep as [[= -> ->]|(xs & Hx & [= -> ->])];
      [done|]. by apply dict_get_set_ne.
Qed.

Lemma revise_others cw (d : Domains) x y r :
  revise cw d x y = Ok r → ∀ v, v ≠ x → dict_get r.1 v = dict_get d v.
Proof.
  unfold revise. destruct (overlaps cw x y) as [[i j]|].
  - intros H v Hv. apply bind_Ok in H as (xs & _ & Hloop).
    by apply (revise_loop_others _ _ _ _ _ _ _ _ Hloop).
  - by intros [= <-].
Qed.

(** Where the result of [ac3] can be relied on: when no domain is empty
    at the start, no domain is empty when [ac3] returns [True]. *)
Lemma ac3_loop_true_nonempty cw : ∀ fuel (d : Domains) queue d',
  ac3_loop fuel cw d queue = Ok (d', true) →
  (∀ v, dict_get d v ≠ Some []) → ∀ v, dict_get d' v ≠ Some [].
Proof.
  induction fuel as [|fuel IH]; intros d queue d'; [done|].
  cbn [ac3_loop]. destruct queue as [|[x y] queue]; [by intros [= <-]|].
  intros Hrun Hne. apply bind_Ok in Hrun as (r & Hrev & Hrun).
  pose proof (revise_others cw d x y r Hrev) as Hothers.
  apply revise_effect in Hrev as [_ [->|[Hb _]]].
  - simpl in Hrun. by apply (IH _ _ _ Hrun).
  - rewrite Hb in Hrun.
    apply bind_Ok in Hrun as (xs & Hx%dict_item_Ok & Hrun).
    destruct xs as [|w xs]; [done|]. apply (IH _ _ _ Hrun).
    intros v. destruct (decide (v = x)) as [->|Hvx].
    + by rewrite Hx.
    + rewrite Hothers by done. apply Hne.
Qed.

(** ** Variable selection *)

Lemma select_key_Ok cw (d : Domains) v k :
  select_key cw d v = Ok k ↔
  ∃ ws, dict_get d v = Some ws
        ∧ k = (length ws, (- Z.of_nat (length (neighbors cw v)))%Z).
Proof.
  unfold select_key, mrv, degree, dict_item.
  destruct (dict_get d v) as [ws|]; simpl.
  - split; [intros [= <-]; eauto|]. by intros (? & [= <-] & ->).
  - split; [done|]. by intros (? & ? & _).
Qed.

Lemma key_lt_false k1 k2 : key_lt k1 k2 = false → k2.1 ≤ k1.1.
Proof.
  unfold key_lt. intros [H1 _]%orb_false_iff.
  apply Nat.ltb_ge in H1. done.
Qed.

Lemma key_lt_true k1 k2 : key_lt k1 k2 = true → k1.1 ≤ k2.1.
Proof.
  unfold key_lt. intros [H1|[H1 _]%andb_true_iff]%orb_true_iff.
  - apply Nat.ltb_lt in H1. lia.
  - apply Nat.eqb_eq in H1. lia.
Qed.

Lemma select_loop_spec cw (d : Domains) (rest : list Var) : ∀ best r,
  foldM (select_step cw d) best rest = Ok r →
  select_key cw d best.1 = Ok best.2 →
  r.1 ∈ best.1 :: rest
  ∧ select_key cw d r.1 = Ok r.2
  ∧ r.2.1 ≤ best.2.1
  ∧ ∀ u k, u ∈ rest → select_key cw d u = Ok k → r.2.1 ≤ k.1.
Proof.
  induction rest as [|v rest IH]; intros best r; cbn [foldM].
  - intros [= <-] Hbest. split_and!; [left|done|done|].
    by intros u k ?%elem_of_nil.
  - intros H Hbest. apply bind_Ok in H as (best' & Hstep & Hrest).
    unfold select_step in Hstep.
    apply bind_Ok in Hstep as (k & Hk & [= <-]).
    destruct (key_lt k best.2) eqn:Hlt.
    + apply IH in Hrest as (Hin & Hkey & Hle & Hmin); [|done]. simpl in *.
      apply key_lt_true in Hlt. split_and!; [|done|lia|].
      * apply elem_of_cons in Hin as [->|Hin]; [right; left|by do 2 right].
      * intros u ku [->|Hu]%elem_of_cons Hku; [|by eauto].
        assert (ku = k) as -> by congruence. done.
    + apply IH in Hrest as (Hin & Hkey & Hle & Hmin); [|done].
      apply key_lt_false in Hlt. split_and!; [|done|done|].
      * apply elem_of_cons in Hin as [->|Hin]; [left|by do 2 right].
      * intros u ku [->|Hu]%elem_of_cons Hku; [|by eauto].
        assert (ku = k) as -> by congruence. lia.
Qed.

(** The variable [select_unassigned_variable] returns is unassigned and
    no unassigned variable has fewer candidates. *)
Lemma select_unassigned_variable_Ok cw (d : Domains) a v :
  select_unassigned_variable cw d a = Ok v →
  v ∈ unassigned cw a
  ∧ ∃ ws, dict_get d v = Some ws
          ∧ ∀ u us, u ∈ unassigned cw a → dict_get d u = Some us →
                    length ws ≤ length us.
Proof.
  unfold select_unassigned_variable.
  destruct (unassigned cw a) as [|v0 rest]; [done|]. intros H.
  apply bind_Ok in H as (k0 & Hk0 & H).
  apply bind_Ok in H as (best & Hloop & [= <-]).
  apply select_loop_spec in Hloop as (Hin & Hkey & Hle & Hmin); [|done].
  simpl in *. split; [done|].
  apply select_key_Ok in Hkey as (ws & Hws & Hk). exists ws. split; [done|].
  rewrite Hk in Hle, Hmin. simpl in *.
  intros u us [->|Hu]%elem_of_cons Hus.
  - apply select_key_Ok in Hk0 as (ws0 & Hws0 & ->). simpl in *.
    congruence.
  - apply (Hmin u (length us, (- Z.of_nat (length (neighbors cw u)))%Z));
      [done|]. apply select_key_Ok. eauto.
Qed.

Lemma select_loop_total cw (d : Domains) (rest : list Var) :
  Forall (λ v, is_Some (dict_get d v)) rest →
  ∀ best, ∃ r, foldM (select_step cw d) best rest = Ok r.
Proof.
  induction 1 as [|v rest [ws Hws] _ IH]; intros best; [by eexists|].
  cbn [foldM].
  assert (∃ b, select_step cw d best v = Ok b) as [b ->]; [|apply IH].
  unfold select_step, select_key, mrv, dict_item. rewrite Hws. simpl. eauto.
Qed.

Lemma select_unassigned_variable_total cw (d : Domains) a :
  Forall (λ v, is_Some (dict_get d v)) (unassigned cw a) →
  unassigned cw a ≠ [] →
  ∃ v, select_unassigned_variable cw d a = Ok v.
Proof.
  unfold select_unassigned_variable.
  destruct (unassigned cw a) as [|v0 rest]; [done|].
  intros [[ws Hws] Hrest]%Forall_cons _.
  unfold select_key at 1, mrv, dict_item. rewrite Hws. simpl.
  destruct (select_loop_total cw d rest Hrest
              (v0, (length ws, (- Z.of_nat (degree cw v0))%Z)))
    as [r Hr].
  rewrite Hr. simpl. eauto.
Qed.

(** ** [solve] after a failed propagation *)

Lemma unassigned_nil cw : unassigned cw [] = variables cw.
Proof. unfold unassigned. by apply filter_all. Qed.

Lemma assignment_complete_nil cw :
  variables cw ≠ [] → assignment_complete cw [] = false.
Proof.
  unfold assignment_complete. destruct (variables cw) as [|v vs]; [done|].
  intros _. done.
Qed.

Lemma order_domain_values_empty cw (d : Domains) v a :
  dict_get d v = Some [] → order_domain_values cw d v a = Ok [].
Proof. intros Hv. unfold order_domain_values, dict_item. by rewrite Hv. Qed.

Lemma backtrack_rec_dead_end cw (d : Domains) fuel x :
  covers cw d → dict_get d x = Some [] →
  backtrack_rec (S fuel) cw (mkSearch d [] [])
  = Ok (mkSearch d [] [Call_backtrack []; Call_select_unassigned_variable []],
        PyNone).
Proof.
  intros Hcov Hx.
  assert (x ∈ variables cw) as Hxv.
  { apply (covers_elem cw d x Hcov), dict_get_is_Some. by rewrite Hx. }
  cbn [backtrack_rec log s_assignment s_domains s_trace].
  rewrite assignment_complete_nil by (by intros Hnil; rewrite Hnil in Hxv;
                                      apply elem_of_nil in Hxv).
  destruct (select_unassigned_variable_total cw d []) as [v Hv].
  { rewrite unassigned_nil. apply Forall_forall. intros u Hu.
    apply dict_get_is_Some. by apply (covers_elem cw d u Hcov). }
  { rewrite unassigned_nil. intros Hnil. rewrite Hnil in Hxv.
    by apply elem_of_nil in Hxv. }
  rewrite Hv. cbn [mbind outcome_bind].
  apply select_unassigned_variable_Ok in Hv as (_ & ws & Hws & Hmin).
  specialize (Hmin x [] ltac:(by rewrite unassigned_nil) Hx).
  destruct ws; [|simpl in Hmin; lia].
  by rewrite (order_domain_values_empty cw d v [] Hws).
Qed.

(** C1, as the code has it.  When [ac3] returns [False], [solve] still
    calls [backtrack] on the empty assignment; that call selects a
    variable whose domain is empty, tries no value, makes no further call
    and returns [None], which is the result of [solve]. *)
Theorem solve_after_failed_ac3 (cw : Crossword) (d d1 d2 : Domains) :
  covers cw d →
  enforce_node_consistency d = Ok d1 →
  ac3 cw d1 None = Ok (d2, false) →
  solve cw d
  = Ok (mkSearch d2 [] [Call_backtrack []; Call_select_unassigned_variable []],
        PyNone).
Proof.
  intros Hcov Henf Hac3. unfold solve. rewrite Henf. cbn [mbind outcome_bind].
  rewrite Hac3. cbn [mbind outcome_bind fst].
  destruct (enforce_node_consistency_Ok d) as (d1' & Henf' & Hk1 & _).
  assert (d1' = d1) as -> by congruence.
  unfold ac3 in Hac3. apply ac3_loop_false in Hac3 as [Hk2 [x Hx]].
  apply backtrack_rec_dead_end with x; [|done].
  apply (covers_keys cw d d2); [congruence|done].
Qed.

Lemma solve_after_failed_ac3_witness :
  solve puzzle3_unsat (init_domains puzzle3_unsat)
  = Ok (mkSearch [(top, ["CAT"; "CAR"; "TAR"]); (down, []);
                  (bottom, ["CAT"; "CAR"; "ART"; "TAR"])] []
                 [Call_backtrack []; Call_select_unassigned_variable []],
        PyNone).
Proof.
  apply (solve_after_failed_ac3 puzzle3_unsat (init_domains puzzle3_unsat)
           (init_domains puzzle3_unsat)).
  - apply (bool_decide_unpack _). vm_compute. exact I.
  - vm_compute. reflexivity.
  - vm_compute. reflexivity.
Defined.

(** The search is entered after a failed [ac3]: on the sample without
    solution, [ac3] returns [False] and the trace of [solve] starts with
    the call of [backtrack]. *)
Lemma solve_enters_search_after_failed_ac3 :
  ¬ solve_skips_search puzzle3_unsat (init_domains puzzle3_unsat).
Proof.
  intros Hskip.
  destruct (Hskip (init_domains puzzle3_unsat)
              [(top, ["CAT"; "CAR"; "TAR"]); (down, []);
               (bottom, ["CAT"; "CAR"; "ART"; "TAR"])]
              (mkSearch [(top, ["CAT"; "CAR"; "TAR"]); (down, []);
                         (bottom, ["CAT"; "CAR"; "ART"; "TAR"])] []
                        [Call_backtrack []; Call_select_unassigned_variable []],
               PyNone)) as [_ Hno]; [vm_compute; reflexivity..|].
  apply (Hno []). simpl. left.
Qed.

(** ** The consistency check *)

Lemma remove_dups_length_le {A} `{EqDecision A} (l : list A) :
  length (remove_dups l) ≤ length l.
Proof.
  induction l as [|x l IH]; simpl; [done|].
  destruct (decide_rel elem_of x l); simpl; lia.
Qed.

Lemma remove_dups_length_NoDup {A} `{EqDecision A} (l : list A) :
  length (remove_dups l) = length l → NoDup l.
Proof.
  induction l as [|x l IH]; simpl; [constructor|].
  pose proof (remove_dups_length_le l).
  destruct (decide_rel elem_of x l); simpl; [lia|].
  intros [= Hlen]. constructor; auto.
Qed.

Lemma NoDup_remove_dups_length {A} `{EqDecision A} (l : list A) :
  NoDup l → length (remove_dups l) = length l.
Proof.
  induction 1 as [|x l Hx _ IH]; simpl; [done|].
  destruct (decide_rel elem_of x l); [done|]. simpl. by rewrite IH.
Qed.

Lemma allM_true {A} (f : A → outcome bool) (l : list A) :
  allM f l = Ok true → ∀ a, a ∈ l → f a = Ok true.
Proof.
  induction l as [|x l IH]; cbn [allM]; [by intros _ a ?%elem_of_nil|].
  intros H. apply bind_Ok in H as ([] & Hx & H); [|done].
  intros a [->|Ha]%elem_of_cons; auto.
Qed.

Lemma overlap_agrees_true cw a x y i j wx wy :
  overlap_agrees cw a x y = Ok true →
  dict_get a x = Some wx → dict_get a y = Some wy →
  overlaps cw x y = Some (i, j) → agree i j wx wy.
Proof.
  unfold overlap_agrees, dict_mem, dict_item. intros H Hx Hy Hov.
  rewrite bool_decide_eq_true_2, Hov, Hx, Hy in H by (by rewrite Hy).
  simpl in H. apply bind_Ok in H as (cv & Hcv%str_index_Ok & H).
  apply bind_Ok in H as (cn & Hcn%str_index_Ok & [= Heq]).
  apply bool_decide_eq_true in Heq. subst cn.
  split; [by rewrite Hcv|congruence].
Qed.

Lemma consistent_true cw a :
  consistent cw a = Ok true → consistent_assignment cw a.
Proof.
  unfold consistent.
  destruct (decide (length (remove_dups (dict_values a)) ≠ length a))
    as [|Hlen]; [done|].
  destruct (forallb _ a) eqn:Hfit; [|done]. simpl. intros Hov.
  split_and!.
  - apply remove_dups_length_NoDup. apply dec_stable in Hlen.
    rewrite Hlen. unfold dict_values. by rewrite length_fmap.
  - intros v w Hvw%dict_get_elem_of.
    rewrite forallb_forall in Hfit. apply list_elem_of_In in Hvw.
    specialize (Hfit _ Hvw). simpl in Hfit.
    by apply bool_decide_eq_true in Hfit.
  - intros x y wx wy i j Hxy Hy Hx Hwy Hoverlap.
    apply overlap_agrees_true with cw a x y; try done.
    eapply allM_true; [eapply (allM_true _ _ Hov x)|].
    + apply dict_get_is_Some. by rewrite Hx.
    + apply neighbors_elem. rewrite Hoverlap. intuition (subst; eauto).
Qed.

Lemma assignment_complete_true cw a :
  assignment_complete cw a = true ↔ complete cw a.
Proof.
  unfold assignment_complete, complete.
  rewrite andb_true_iff, !forallb_forall. split.
  - intros [H1 H2] v. split; intros Hv%list_elem_of_In.
    + by apply H1, bool_decide_eq_true in Hv.
    + by apply H2, bool_decide_eq_true in Hv.
  - intros H. split; intros v Hv%list_elem_of_In;
      apply bool_decide_eq_true; by apply H.
Qed.

Lemma consistent_nil cw : consistent cw [] = Ok true.
Proof. done. Qed.

(** ** Soundness of the search *)

Lemma truthy_true s r : truthy s r = true → r = TheAssignment.
Proof. by destruct r. Qed.

Lemma try_values_sound cw rec var (P : search → Prop) :
  (∀ s r, rec s = Ok (r, TheAssignment) →
          consistent cw (s_assignment s) = Ok true → P r) →
  ∀ values s r,
    try_values cw rec var values s = Ok (r, TheAssignment) → P r.
Proof.
  intros Hrec. induction values as [|value values IH]; intros s r;
    cbn [try_values]; [done|].
  intros H. apply bind_Ok in H as (c & Hc & H). destruct c.
  - apply bind_Ok in H as ([s1 r1] & Hr1 & H). cbn [fst snd] in H.
    destruct (truthy s1 r1) eqn:Htruthy.
    + injection H as -> ->. by apply Hrec in Hr1.
    + apply bind_Ok in H as (s2 & _ & H). by apply IH in H.
  - apply bind_Ok in H as (s2 & _ & H). by apply IH in H.
Qed.

Lemma backtrack_rec_sound cw : ∀ fuel s r,
  backtrack_rec fuel cw s = Ok (r, TheAssignment) →
  consistent cw (s_assignment s) = Ok true →
  assignment_complete cw (s_assignment r) = true
  ∧ consistent cw (s_assignment r) = Ok true.
Proof.
  induction fuel as [|fuel IH]; intros s r; [done|].
  cbn [backtrack_rec log s_assignment s_domains s_trace].
  destruct (assignment_complete cw (s_assignment s)) eqn:Hcomplete.
  - by intros [= <-] Hcons.
  - intros H _. apply bind_Ok in H as (var & _ & H).
    apply bind_Ok in H as (values & _ & H).
    revert H.
    apply (try_values_sound cw _ var
             (λ r, assignment_complete cw (s_assignment r) = true
                   ∧ consistent cw (s_assignment r) = Ok true)).
    intros s1 r1. apply IH.
Qed.

(** C2. An assignment that [solve] returns has the variables of the puzzle
    as its key set, so it is never partial, and it is consistent: its
    words are pairwise distinct, each has the length of its variable, and
    two assigned variables with an overlap carry the same letter at the
    overlap positions. *)
Theorem solve_sound (cw : Crossword) (d : Domains) r (a : Assignment) :
  solve cw d = Ok r → result_of r = Some a →
  complete cw a
  ∧ NoDup (dict_values a)
  ∧ (∀ v w, dict_get a v = Some w → fits v w)
  ∧ (∀ x y wx wy i j,
       x ≠ y → dict_get a x = Some wx → dict_get a y = Some wy →
       overlaps cw x y = Some (i, j) → agree i j wx wy).
Proof.
  unfold solve, backtrack, result_of. intros H Hres.
  apply bind_Ok in H as (d1 & _ & H). apply bind_Ok in H as (r1 & _ & H).
  destruct r as [s []]; [done|]. injection Hres as <-.
  apply backtrack_rec_sound in H as [Hcomplete Hcons]; [|done].
  apply assignment_complete_true in Hcomplete.
  apply consistent_true in Hcons as (Hdistinct & Hfit & Hagree).
  split_and!; try done.
  intros x y wx wy i j Hxy Hx Hy. apply Hagree; [done| |done..].
  apply Hcomplete, dict_get_is_Some. by rewrite Hy.
Qed.

Lemma solve_sound_witness :
  ∃ r, solve puzzle3 (init_domains puzzle3) = Ok r
       ∧ result_of r = Some [(down, "ART"); (top, "CAT"); (bottom, "STY")]
       ∧ complete puzzle3 [(down, "ART"); (top, "CAT"); (bottom, "STY")]
       ∧ NoDup ["ART"; "CAT"; "STY"]
       ∧ agree 1 0 "CAT" "ART".
Proof.
  eexists. split; [vm_compute; reflexivity|]. split; [reflexivity|].
  edestruct (solve_sound puzzle3 (init_domains puzzle3))
    as (Hcomplete & Hdistinct & _ & Hagree);
    [vm_compute; reflexivity|reflexivity|].
  split_and!; [exact Hcomplete|exact Hdistinct|].
  apply (Hagree top down); [|reflexivity..].
  apply (bool_decide_unpack _). vm_compute. exact I.
Defined.

(** ** Reversibility of the search *)

Lemma unbind_bind_var var value s :
  var ∉ dict_keys (s_assignment s) →
  unbind_var var (bind_var var value s) = Ok s.
Proof.
  intros Hfresh. unfold unbind_var, bind_var. simpl.
  rewrite dict_set_fresh, dict_del_snoc by done. simpl. by destruct s.
Qed.

Lemma try_values_restores cw rec var :
  (∀ s r, rec s = Ok r → restores s r) →
  ∀ values s r,
    var ∉ dict_keys (s_assignment s) →
    try_values cw rec var values s = Ok r → restores s r.
Proof.
  intros Hrec. induction values as [|value values IH]; intros s r Hfresh;
    cbn [try_values].
  { by intros [= <-]. }
  intros H. apply bind_Ok in H as (c & _ & H). destruct c.
  - apply bind_Ok in H as ([s1 r1] & Hr1 & H). cbn [fst snd] in H.
    apply Hrec in Hr1 as [Hdom Hasn]. simpl in Hdom, Hasn.
    destruct (truthy s1 r1) eqn:Htruthy.
    + injection H as <-. apply truthy_true in Htruthy as ->.
      split; [done|]. done.
    + apply bind_Ok in H as (s2 & Hunbind & H).
      assert (s2 = mkSearch (s_domains s) (s_assignment s) (s_trace s1))
        as ->.
      { destruct r1.
        - specialize (Hasn eq_refl). unfold unbind_var in Hunbind.
          rewrite Hasn in Hunbind. simpl in Hunbind.
          rewrite dict_set_fresh, dict_del_snoc in Hunbind by done.
          simpl in Hunbind. injection Hunbind as <-. by rewrite Hdom.
        - destruct s1 as [d1 [|e a1] t1]; [|done].
          by unfold unbind_var in Hunbind. }
      by apply IH in H.
  - rewrite unbind_bind_var in H by done. by apply IH in H.
Qed.

Lemma backtrack_rec_restores cw : ∀ fuel s r,
  backtrack_rec fuel cw s = Ok r → restores s r.
Proof.
  induction fuel as [|fuel IH]; intros s r; [done|].
  cbn [backtrack_rec log s_assignment s_domains s_trace].
  destruct (assignment_complete cw (s_assignment s)) eqn:Hcomplete.
  - by intros [= <-].
  - intros H. apply bind_Ok in H as (var & Hvar & H).
    apply bind_Ok in H as (values & _ & H).
    apply select_unassigned_variable_Ok in Hvar as [Hvar _].
    apply list_elem_of_filter in Hvar as [Hvar%dict_mem_false _].
    apply (try_values_restores cw _ var IH) in H; [done|done].
Qed.

(** C5. A call of [backtrack], at any depth of the recursion, leaves
    [self.domains] as it found it, and when it returns [None] the
    assignment dictionary holds exactly the bindings it held when the call
    was made: every tentative binding has been deleted again.  The
    functions [consistent], [order_domain_values] and
    [select_unassigned_variable] contain no statement that writes to the
    store, and are functions of the store to their result here. *)
Theorem backtrack_restores (cw : Crossword) (fuel : nat) (s : search) r :
  backtrack_rec fuel cw s = Ok r →
  s_domains r.1 = s_domains s
  ∧ (r.2 = PyNone → s_assignment r.1 = s_assignment s).
Proof. apply backtrack_rec_restores. Qed.

Lemma backtrack_restores_witness :
  ∃ s, backtrack twin_slots (mkSearch (node_consistent_store twin_slots) [] [])
       = Ok (s, PyNone)
       ∧ s_domains s = node_consistent_store twin_slots
       ∧ s_assignment s = []
       ∧ Call_backtrack [(top, "CAT")] ∈ s_trace s.
Proof.
  eexists. split; [vm_compute; reflexivity|].
  edestruct (backtrack_restores twin_slots 3
               (mkSearch (node_consistent_store twin_slots) [] []))
    as [Hdom Hasn]; [vm_compute; reflexivity|].
  split_and!; [exact Hdom|exact (Hasn eq_refl)|].
  apply (bool_decide_unpack _). vm_compute. exact I.
Defined.

(** ** A puzzle without variables, and complete assignments *)

Lemma default_arcs_no_variables cw (d : Domains) :
  variables cw = [] → default_arcs cw d = [].
Proof.
  intros Hvars. unfold default_arcs.
  induction (dict_keys d) as [|x ks IH]; [done|].
  rewrite bind_cons, IH. unfold neighbors. by rewrite Hvars.
Qed.

(** C10. On a puzzle without variables [solve] returns the empty
    assignment, not [None], whatever the store holds, and so does the run
    of a freshly built creator; and [backtrack] called on a complete
    assignment returns that assignment at once: the only call recorded is
    the call itself, no variable is selected. *)
Theorem solve_without_variables (cw : Crossword) :
  (variables cw = [] →
   (∀ d, ∃ r, solve cw d = Ok r ∧ result_of r = Some []
              ∧ s_trace r.1 = [Call_backtrack []])
   ∧ ∃ r, run cw = Ok r ∧ result_of r = Some []
          ∧ s_trace r.1 = [Call_backtrack []])
  ∧ (∀ s, assignment_complete cw (s_assignment s) = true →
          backtrack cw s
          = Ok (log (Call_backtrack (s_assignment s)) s, TheAssignment)).
Proof.
  split.
  - intros Hvars.
    assert (∀ d, ∃ r, solve cw d = Ok r ∧ result_of r = Some []
                      ∧ s_trace r.1 = [Call_backtrack []]) as Hsolve.
    { intros d. destruct (enforce_node_consistency_Ok d) as (d1 & Hd1 & _).
      unfold solve, ac3. rewrite Hd1. simpl.
      rewrite (default_arcs_no_variables cw d1 Hvars). simpl.
      assert (assignment_complete cw [] = true) as Hcomplete.
      { unfold assignment_complete. by rewrite Hvars. }
      unfold backtrack.
      cbn [backtrack_rec log s_assignment s_domains s_trace].
      rewrite Hcomplete. by eexists. }
    split; [done|]. apply Hsolve.
  - intros s Hcomplete. unfold backtrack.
    cbn [backtrack_rec log s_assignment s_domains s_trace].
    by rewrite Hcomplete.
Qed.

Lemma solve_without_variables_witness :
  (∃ r, run no_slots = Ok r ∧ result_of r = Some []
        ∧ s_trace r.1 = [Call_backtrack []])
  ∧ backtrack puzzle3
      (mkSearch (node_consistent_store puzzle3)
                [(down, "ART"); (top, "CAT"); (bottom, "STY")] [])
    = Ok (mkSearch (node_consistent_store puzzle3)
                   [(down, "ART"); (top, "CAT"); (bottom, "STY")]
                   [Call_backtrack
                      [(down, "ART"); (top, "CAT"); (bottom, "STY")]],
          TheAssignment).
Proof.
  split.
  - apply (proj1 (solve_without_variables no_slots)). reflexivity.
  - apply (proj2 (solve_without_variables puzzle3)
             (mkSearch (node_consistent_store puzzle3)
                [(down, "ART"); (top, "CAT"); (bottom, "STY")] [])).
    vm_compute. reflexivity.
Defined.

(** ** Value ordering *)

Lemma conflict_loop_spec value i j (ns : list string) : ∀ c0 c,
  foldM (conflict_step value i j) c0 ns = Ok c →
  c = c0 + length (filter (differs_at i j value) ns).
Proof.
  induction ns as [|w ns IH]; intros c0 c; cbn [foldM].
  - intros [= <-]. simpl. lia.
  - intros H. apply bind_Ok in H as (c1 & Hstep & H). apply IH in H as ->.
    unfold conflict_step in Hstep.
    apply bind_Ok in Hstep as (cv & Hcv%str_index_Ok & Hstep).
    apply bind_Ok in Hstep as (cn & Hcn%str_index_Ok & [= <-]).
    destruct (decide (cv ≠ cn)) as [Hne|Heq].
    + rewrite filter_cons_True; [simpl; lia|].
      unfold differs_at. congruence.
    + rewrite filter_cons_False; [lia|]. apply dec_stable in Heq.
      unfold differs_at. intros []. congruence.
Qed.

Lemma neighbor_loop_spec cw (d : Domains) a var value (l : list Var) :
  ∀ c0 c,
  foldM (neighbor_step cw d a var value) c0 l = Ok c →
  c = c0 + sum_list ((λ n, length (ruled_out cw d var value n))
                       <$> filter (λ n, dict_mem n a = false) l).
Proof.
  induction l as [|n l IH]; intros c0 c; cbn [foldM].
  - intros [= <-]. simpl. lia.
  - intros H. apply bind_Ok in H as (c1 & Hstep & H). apply IH in H as ->.
    unfold neighbor_step in Hstep. rewrite filter_cons.
    destruct (dict_mem n a) eqn:Hmem.
    + injection Hstep as <-. by rewrite decide_False.
    + rewrite decide_True by done.
      destruct (overlaps cw var n) as [[i j]|] eqn:Hov; [|done].
      apply bind_Ok in Hstep as (ns & Hns%dict_item_Ok & Hloop).
      apply conflict_loop_spec in Hloop as ->.
      rewrite fmap_cons. cbn [sum_list sum_list_with].
      unfold ruled_out at 2. rewrite Hov, Hns. simpl. lia.
Qed.

(** The count of the code is the count of the specification. *)
Lemma count_conflicts_Ok cw (d : Domains) a var value c :
  count_conflicts cw d a var value = Ok c →
  c = conflict_count cw d a var value.
Proof.
  unfold count_conflicts. intros H%neighbor_loop_spec. by subst.
Qed.

Lemma mapM_Ok {A B} (f : A → outcome B) (g : A → B) (l : list A) :
  (∀ a b, f a = Ok b → b = g a) →
  ∀ bs, mapM f l = Ok bs → bs = g <$> l.
Proof.
  intros Hfg. induction l as [|a l IH]; intros bs; cbn [mapM].
  - by intros [= <-].
  - intros H. apply bind_Ok in H as (b & Hb & H).
    apply bind_Ok in H as (bs' & Hbs & [= <-]).
    apply Hfg in Hb as ->. by rewrite (IH _ Hbs).
Qed.

Lemma insert_by_key_perm kx l : insert_by_key kx l ≡ₚ kx :: l.
Proof.
  induction l as [|ky l IH]; simpl; [done|].
  destruct (kx.1 <=? ky.1); [done|]. rewrite IH. apply Permutation_swap.
Qed.

Lemma insert_by_key_sorted kx l :
  StronglySorted key_le l → StronglySorted key_le (insert_by_key kx l).
Proof.
  induction 1 as [|ky l Hl IH Hky]; simpl.
  - by repeat constructor.
  - destruct (kx.1 <=? ky.1) eqn:Hle.
    + apply Nat.leb_le in Hle. constructor; [by constructor|].
      constructor; [done|]. eapply Forall_impl; [exact Hky|].
      unfold key_le. intros; lia.
    + apply Nat.leb_gt in Hle. constructor; [done|].
      rewrite insert_by_key_perm. constructor; [|done].
      unfold key_le. lia.
Qed.

Lemma sort_by_key_perm l : sort_by_key l ≡ₚ l.
Proof.
  unfold sort_by_key. induction l as [|kx l IH]; simpl; [done|].
  by rewrite insert_by_key_perm, IH.
Qed.

Lemma sort_by_key_sorted l : StronglySorted key_le (sort_by_key l).
Proof.
  unfold sort_by_key. induction l as [|kx l IH]; simpl; [constructor|].
  by apply insert_by_key_sorted.
Qed.

Lemma sorted_values (g : string → nat) (l : list (nat * string)) :
  Forall (λ p, p.1 = g p.2) l →
  StronglySorted key_le l →
  StronglySorted (λ u v, g u ≤ g v) l.*2.
Proof.
  intros Hkeys. induction 1 as [|p l Hl IH Hp]; simpl; [constructor|].
  apply Forall_cons in Hkeys as [Hk Hkeys].
  constructor; [by apply IH|].
  rewrite Forall_fmap. rewrite Forall_forall in Hp, Hkeys.
  apply Forall_forall. intros q Hq. simpl.
  specialize (Hp q Hq). specialize (Hkeys q Hq). unfold key_le in Hp. lia.
Qed.

Lemma zip_fmap_keys (g : string → nat) (ws : list string) :
  zip (g <$> ws) ws = (λ w, (g w, w)) <$> ws.
Proof. induction ws as [|w ws IH]; [done|]. rewrite !fmap_cons. simpl. by f_equal. Qed.

Lemma conflict_loop_total value i j (ns : list string) :
  is_Some (String.get i value) →
  Forall (λ w, is_Some (String.get j w)) ns →
  ∀ c0, ∃ c, foldM (conflict_step value i j) c0 ns = Ok c.
Proof.
  intros [cv Hcv%str_index_Ok]. induction 1 as [|w ns [cn Hcn%str_index_Ok] _ IH];
    intros c0; [by eexists|].
  cbn [foldM].
  assert (∃ c1, conflict_step value i j c0 w = Ok c1) as [c1 ->]; [|apply IH].
  unfold conflict_step. rewrite Hcv, Hcn. simpl. eauto.
Qed.

Lemma neighbor_loop_total cw (d : Domains) a var value (l : list Var) :
  (∀ n, n ∈ l → indexable cw d a var value n) →
  ∀ c0, ∃ c, foldM (neighbor_step cw d a var value) c0 l = Ok c.
Proof.
  induction l as [|n l IH]; intros Hl c0; [by eexists|].
  cbn [foldM].
  assert (∃ c1, neighbor_step cw d a var value c0 n = Ok c1) as [c1 ->].
  { unfold neighbor_step. destruct (dict_mem n a) eqn:Hmem; [by eexists|].
    destruct (Hl n) as (i & j & ns & Hov & Hns & Hi & Hj); [left|done|].
    rewrite Hov. unfold dict_item. rewrite Hns. simpl.
    by apply conflict_loop_total. }
  simpl. apply IH. intros n' Hn'. apply Hl. by right.
Qed.

Lemma mapM_total {A B} (f : A → outcome B) (l : list A) :
  (∀ a, a ∈ l → ∃ b, f a = Ok b) → ∃ bs, mapM f l = Ok bs.
Proof.
  induction l as [|a l IH]; intros Hl; [by eexists|].
  cbn [mapM]. destruct (Hl a) as [b ->]; [left|]. simpl.
  destruct IH as [bs ->]; [|by eexists]. intros a' Ha'. apply Hl. by right.
Qed.

Lemma order_domain_values_sorted cw (d : Domains) var a ws vs :
  dict_get d var = Some ws →
  order_domain_values cw d var a = Ok vs →
  vs ≡ₚ ws
  ∧ StronglySorted
      (λ u v, conflict_count cw d a var u ≤ conflict_count cw d a var v) vs.
Proof.
  intros Hws. unfold order_domain_values, dict_item. rewrite Hws. simpl.
  intros H. apply bind_Ok in H as (ks & Hks & [= <-]).
  apply (mapM_Ok _ (conflict_count cw d a var)) in Hks as ->;
    [|apply count_conflicts_Ok].
  rewrite zip_fmap_keys. split.
  - rewrite sort_by_key_perm. rewrite <-list_fmap_compose.
    by rewrite list_fmap_id.
  - apply sorted_values; [|apply sort_by_key_sorted].
    rewrite sort_by_key_perm. rewrite Forall_fmap. by apply Forall_true.
Qed.

Lemma order_domain_values_total cw (d : Domains) var a ws :
  dict_get d var = Some ws →
  (∀ value n, value ∈ ws → n ∈ neighbors cw var →
              indexable cw d a var value n) →
  ∃ vs, order_domain_values cw d var a = Ok vs.
Proof.
  intros Hws Hidx. unfold order_domain_values, dict_item. rewrite Hws. simpl.
  destruct (mapM_total (count_conflicts cw d a var) ws) as [ks ->];
    [|by eexists].
  intros value Hvalue. apply neighbor_loop_total. auto.
Qed.

(** C9. [order_domain_values] returns a rearrangement of the current
    domain of [var] in ascending order of the conflict count: the number
    of pairs of an unassigned neighbour and a word of that neighbour's
    current domain whose letter at the overlap differs from the letter of
    the value.  It does return when the unassigned neighbours are in the
    store and the overlap indices are within the words.  The function
    reads the store and the assignment and returns a new list. *)
Theorem order_domain_values_spec (cw : Crossword) (d : Domains) (var : Var)
  (a : Assignment) (ws : list string) :
  dict_get d var = Some ws →
  (∀ vs, order_domain_values cw d var a = Ok vs →
         vs ≡ₚ ws
         ∧ StronglySorted
             (λ u v, conflict_count cw d a var u ≤ conflict_count cw d a var v)
             vs)
  ∧ ((∀ value n, value ∈ ws → n ∈ neighbors cw var →
                 indexable cw d a var value n) →
     ∃ vs, order_domain_values cw d var a = Ok vs).
Proof.
  intros Hws. split.
  - intros vs. by apply order_domain_values_sorted.
  - by apply order_domain_values_total.
Qed.

Lemma order_domain_values_spec_witness :
  order_domain_values puzzle3 (node_consistent_store puzzle3) down []
  = Ok ["ART"; "CAT"; "STY"]
  ∧ ["ART"; "CAT"; "STY"] ≡ₚ ["CAT"; "ART"; "STY"]
  ∧ conflict_count puzzle3 (node_consistent_store puzzle3) [] down "ART" = 4
  ∧ conflict_count puzzle3 (node_consistent_store puzzle3) [] down "CAT" = 5
  ∧ conflict_count puzzle3 (node_consistent_store puzzle3) [] down "STY" = 6.
Proof.
  destruct (order_domain_values_spec puzzle3 (node_consistent_store puzzle3)
              down [] ["CAT"; "ART"; "STY"]) as [Hsorted Htotal];
    [vm_compute; reflexivity|].
  destruct Htotal as [vs Hvs].
  { intros value n Hvalue Hn _.
    assert (n = top ∧ overlaps puzzle3 down n = Some (0, 1)
            ∨ n = bottom ∧ overlaps puzzle3 down n = Some (2, 1))
      as [[-> Hov]|[-> Hov]].
    { apply list_elem_of_In in Hn. vm_compute in Hn.
      destruct Hn as [<-|[<-|[]]]; [left|right]; split; reflexivity. }
    - exists 0, 1, ["CAT"; "ART"; "STY"].
      split_and!; [exact Hov|vm_compute; reflexivity| |].
      + apply list_elem_of_In in Hvalue.
        destruct Hvalue as [<-|[<-|[<-|[]]]]; vm_compute; eauto.
      + apply (bool_decide_unpack _). vm_compute. exact I.
    - exists 2, 1, ["CAT"; "ART"; "STY"].
      split_and!; [exact Hov|vm_compute; reflexivity| |].
      + apply list_elem_of_In in Hvalue.
        destruct Hvalue as [<-|[<-|[<-|[]]]]; vm_compute; eauto.
      + apply (bool_decide_unpack _). vm_compute. exact I. }
  pose proof Hvs as Heq. vm_compute in Heq. injection Heq as <-.
  split; [exact Hvs|]. destruct (Hsorted _ Hvs) as [Hperm _].
  split; [exact Hperm|]. split_and!; vm_compute; reflexivity.
Defined.

(** ** The depth of the search *)

Lemma halts_dict_del {K V} `{EqDecision K} (d : Dict K V) k :
  halts (dict_del d k).
Proof.
  induction d as [|[k' v'] d IH]; simpl; [done|].
  destruct (decide (k' = k)); [done|]. apply halts_bind; [done|]. done.
Qed.

Lemma halts_unbind_var var s : halts (unbind_var var s).
Proof. unfold unbind_var. apply halts_bind; [apply halts_dict_del|done]. Qed.

Lemma halts_consistent cw a : halts (consistent cw a).
Proof.
  unfold consistent. destruct (decide _); [done|].
  destruct (negb _); [done|].
  apply halts_allM. intros x. apply halts_allM. intros y.
  unfold overlap_agrees. destruct (dict_mem y a); [|done].
  destruct (overlaps cw x y) as [[i j]|]; [|done].
  repeat (apply halts_bind;
          [first [apply halts_dict_item|apply halts_str_index]|intros ? _]).
  done.
Qed.

Lemma halts_select_unassigned_variable cw (d : Domains) a :
  halts (select_unassigned_variable cw d a).
Proof.
  assert (∀ v, halts (select_key cw d v)) as Hkey.
  { intros v. unfold select_key, mrv.
    repeat (apply halts_bind; [try apply halts_dict_item|intros ? _]);
      done. }
  unfold select_unassigned_variable.
  destruct (unassigned cw a) as [|v0 rest]; [done|].
  apply halts_bind; [done|]. intros k0 _.
  apply halts_bind; [|done]. apply halts_foldM. intros best v.
  unfold select_step. apply halts_bind; [done|]. done.
Qed.

Lemma halts_order_domain_values cw (d : Domains) var a :
  halts (order_domain_values cw d var a).
Proof.
  unfold order_domain_values.
  apply halts_bind; [apply halts_dict_item|]. intros ws _.
  apply halts_bind; [|done]. apply halts_mapM. intros value.
  apply halts_foldM. intros c n. unfold neighbor_step.
  destruct (dict_mem n a); [done|].
  destruct (overlaps cw var n) as [[i j]|]; [|done].
  apply halts_bind; [apply halts_dict_item|]. intros ns _.
  apply halts_foldM. intros c' nv. unfold conflict_step.
  repeat (apply halts_bind; [apply halts_str_index|intros ? _]). done.
Qed.

Lemma dict_mem_set {K V} `{EqDecision K} (a : Dict K V) k v k' :
  dict_mem k' (dict_set a k v) = false ↔ k' ≠ k ∧ dict_mem k' a = false.
Proof.
  unfold dict_mem. rewrite !bool_decide_eq_false.
  destruct (decide (k' = k)) as [->|Hne].
  - rewrite dict_get_set_eq. intuition (subst; eauto).
  - rewrite dict_get_set_ne by done. tauto.
Qed.

Lemma unassigned_bind cw a var value :
  var ∈ unassigned cw a →
  length (unassigned cw (dict_set a var value)) < length (unassigned cw a).
Proof.
  intros Hvar. unfold unassigned.
  rewrite (list_filter_iff _ (λ v, v ≠ var ∧ dict_mem v a = false))
    by (intros v; apply dict_mem_set).
  rewrite <-(list_filter_filter (λ v, v ≠ var)).
  apply length_filter_lt with var; [done|]. by intros [].
Qed.

(** After a recursive call that did not succeed, deleting the binding
    gives back the assignment of the caller. *)
Lemma unbind_after_failure var value s s1 r1 s2 :
  var ∉ dict_keys (s_assignment s) →
  restores (bind_var var value s) (s1, r1) →
  truthy s1 r1 = false →
  unbind_var var s1 = Ok s2 →
  s2 = mkSearch (s_domains s) (s_assignment s) (s_trace s1).
Proof.
  intros Hfresh [Hdom Hasn] Htruthy Hunbind. simpl in Hdom, Hasn.
  unfold unbind_var in Hunbind. destruct r1.
  - rewrite (Hasn eq_refl) in Hunbind. simpl in Hunbind.
    rewrite dict_set_fresh, dict_del_snoc in Hunbind by done.
    simpl in Hunbind. injection Hunbind as <-. by rewrite Hdom.
  - by destruct s1 as [d1 [|e a1] t1].
Qed.

Lemma try_values_halts cw rec var n :
  (∀ s, length (unassigned cw (s_assignment s)) < n → halts (rec s)) →
  (∀ s r, rec s = Ok r → restores s r) →
  ∀ values s,
    var ∈ unassigned cw (s_assignment s) →
    length (unassigned cw (s_assignment s)) ≤ n →
    halts (try_values cw rec var values s).
Proof.
  intros Hhalts Hrec. induction values as [|value values IH];
    intros s Hvar Hlen; cbn [try_values]; [done|].
  assert (var ∉ dict_keys (s_assignment s)) as Hfresh.
  { by apply list_elem_of_filter in Hvar as [?%dict_mem_false _]. }
  apply halts_bind; [apply halts_consistent|]. intros [] _.
  - apply halts_bind.
    { apply Hhalts. simpl.
      pose proof (unassigned_bind cw (s_assignment s) var value Hvar). lia. }
    intros [s1 r1] Hr1. cbn [fst snd].
    destruct (truthy s1 r1) eqn:Htruthy; [done|].
    apply halts_bind; [apply halts_unbind_var|]. intros s2 Hs2.
    apply Hrec in Hr1.
    rewrite (unbind_after_failure var value s s1 r1 s2) by done.
    by apply IH.
  - rewrite unbind_bind_var by done. simpl. by apply IH.
Qed.

Lemma backtrack_rec_halts cw : ∀ fuel s,
  length (unassigned cw (s_assignment s)) < fuel →
  halts (backtrack_rec fuel cw s).
Proof.
  induction fuel as [|fuel IH]; intros s Hfuel; [lia|].
  cbn [backtrack_rec log s_assignment s_domains s_trace].
  destruct (assignment_complete cw (s_assignment s)); [done|].
  apply halts_bind; [apply halts_select_unassigned_variable|].
  intros var [Hvar _]%select_unassigned_variable_Ok.
  apply halts_bind; [apply halts_order_domain_values|]. intros values _.
  apply try_values_halts with fuel; [done| |done|simpl; lia].
  intros s1 r1. apply backtrack_rec_restores.
Qed.

Lemma try_values_ext cw rec rec' var :
  (∀ s, halts (rec s) → rec' s = rec s) →
  ∀ values s,
    halts (try_values cw rec var values s) →
    try_values cw rec' var values s = try_values cw rec var values s.
Proof.
  intros Hext. induction values as [|value values IH]; intros s;
    cbn [try_values]; [done|].
  destruct (consistent cw _) as [[]| |]; simpl; try done.
  - destruct (rec (bind_var var value s)) as [[s1 r1]| |] eqn:Hrec;
      simpl; try done.
    + rewrite Hext, Hrec by (by rewrite Hrec). simpl.
      destruct (truthy s1 r1); [done|].
      destruct (unbind_var var s1); simpl; auto.
    + rewrite Hext, Hrec by (by rewrite Hrec). done.
  - destruct (unbind_var var _); simpl; auto.
Qed.

Lemma backtrack_rec_fuel_mono cw : ∀ fuel fuel' s,
  fuel ≤ fuel' → halts (backtrack_rec fuel cw s) →
  backtrack_rec fuel' cw s = backtrack_rec fuel cw s.
Proof.
  induction fuel as [|fuel IH]; intros fuel' s Hle; [done|].
  destruct fuel' as [|fuel']; [lia|].
  cbn [backtrack_rec log s_assignment s_domains s_trace].
  destruct (assignment_complete cw (s_assignment s)); [done|].
  destruct (select_unassigned_variable _ _ _) as [var| |]; simpl; try done.
  destruct (order_domain_values _ _ _ _) as [values| |]; simpl; try done.
  apply try_values_ext. intros s1. apply IH. lia.
Qed.

(** The fuel of [backtrack] is enough: the search ends, and deeper
    recursion limits give the same result. *)
Lemma backtrack_adequate cw s :
  halts (backtrack cw s)
  ∧ ∀ extra,
      backtrack_rec (S (length (variables cw)) + extra) cw s = backtrack cw s.
Proof.
  assert (halts (backtrack cw s)) as Hhalts.
  { apply backtrack_rec_halts. unfold unassigned.
    pose proof (length_filter (λ v, dict_mem v (s_assignment s) = false)
                  (variables cw)). lia. }
  split; [done|]. intros extra. apply backtrack_rec_fuel_mono; [lia|done].
Qed.

(** ** Well-formed puzzles raise nothing *)

Lemma str_get_is_Some w i : i < String.length w → is_Some (String.get i w).
Proof.
  revert i. induction w as [|c w IH]; intros i; simpl; [lia|].
  destruct i as [|i]; [by eexists|]. intros Hi. apply IH. lia.
Qed.

Lemma fits_index v w i : fits v w → i < var_length v → is_Some (String.get i w).
Proof. unfold fits. intros Hfit Hi. apply str_get_is_Some. lia. Qed.

Lemma in_range_overlap cw x y i j :
  in_range cw → x ∈ variables cw → y ∈ variables cw →
  overlaps cw x y = Some (i, j) → i < var_length x ∧ j < var_length y.
Proof.
  unfold in_range. rewrite Forall_forall. intros Hr Hx Hy Hov.
  specialize (Hr x Hx). rewrite Forall_forall in Hr.
  specialize (Hr y Hy). unfold within in Hr. by rewrite Hov in Hr.
Qed.

Lemma node_consistent_set (d : Domains) x xs xs' :
  node_consistent d → dict_get d x = Some xs → xs' ⊆ xs →
  node_consistent (dict_set d x xs').
Proof.
  intros Hnc Hx Hsub v ws. destruct (decide (v = x)) as [->|Hne].
  - rewrite dict_get_set_eq. intros [= <-].
    specialize (Hnc x xs Hx). rewrite Forall_forall in Hnc.
    apply Forall_forall. auto.
  - rewrite dict_get_set_ne by done. apply Hnc.
Qed.

Lemma dict_keys_set_elem {K V} `{EqDecision K} (d : Dict K V) k v k' :
  k' ∈ dict_keys (dict_set d k v) ↔ k' = k ∨ k' ∈ dict_keys d.
Proof.
  rewrite <-!dict_get_is_Some. destruct (decide (k' = k)) as [->|Hne].
  - rewrite dict_get_set_eq. intuition (subst; eauto).
  - rewrite dict_get_set_ne by done. tauto.
Qed.

Lemma init_domains_keys cw v :
  v ∈ dict_keys (init_domains cw) ↔ v ∈ variables cw.
Proof.
  unfold init_domains.
  assert (∀ l (d : Domains),
            v ∈ dict_keys (foldl (λ d var, dict_set d var (words cw)) d l)
            ↔ v ∈ dict_keys d ∨ v ∈ l) as Hgen.
  { induction l as [|x l IH]; intros d; simpl.
    - rewrite elem_of_nil. tauto.
    - rewrite IH, dict_keys_set_elem, elem_of_cons. tauto. }
  rewrite Hgen. unfold dict_keys at 1. simpl. rewrite elem_of_nil.
  tauto.
Qed.

Lemma covers_init cw : covers cw (init_domains cw).
Proof.
  split; apply Forall_forall; intros v; by rewrite init_domains_keys.
Qed.

(** The store that [solve] hands to [ac3]. *)
Lemma enforce_node_consistency_ok cw (d : Domains) :
  covers cw d →
  ∃ d1, enforce_node_consistency d = Ok d1 ∧ covers cw d1 ∧ node_consistent d1.
Proof.
  intros Hcov.
  destruct (enforce_node_consistency_Ok d) as (d1 & Hrun & Hkeys & Hget).
  exists d1. split_and!; [done|by apply (covers_keys cw d)|].
  intros v ws'. rewrite Hget. destruct (dict_get d v) as [ws|]; [|done].
  intros [= <-]. apply Forall_forall. intros w.
  rewrite list_elem_of_filter. tauto.
Qed.

Lemma try_values_keeps cw rec var :
  (∀ s r, rec s = Ok r → restores s r) →
  (∀ s r, rec s = Ok r → keeps s r) →
  ∀ values s r,
    var ∉ dict_keys (s_assignment s) →
    try_values cw rec var values s = Ok r → keeps s r.
Proof.
  intros Hrestores Hkeeps. induction values as [|value values IH];
    intros s r Hfresh; cbn [try_values].
  { by intros [= <-]. }
  intros H. apply bind_Ok in H as (c & _ & H). destruct c.
  - apply bind_Ok in H as ([s1 r1] & Hr1 & H). cbn [fst snd] in H.
    destruct (truthy s1 r1) eqn:Htruthy.
    + injection H as <-. apply Hkeeps in Hr1. intros Hret k Hk.
      apply Hr1; [done|]. simpl. apply dict_keys_set_elem. by right.
    + apply bind_Ok in H as (s2 & Hunbind & H). apply Hrestores in Hr1.
      rewrite (unbind_after_failure var value s s1 r1 s2) in H by done.
      by apply IH in H.
  - rewrite unbind_bind_var in H by done. by apply IH in H.
Qed.

Lemma backtrack_rec_keeps cw : ∀ fuel s r,
  backtrack_rec fuel cw s = Ok r → keeps s r.
Proof.
  induction fuel as [|fuel IH]; intros s r; [done|].
  cbn [backtrack_rec log s_assignment s_domains s_trace].
  destruct (assignment_complete cw (s_assignment s)) eqn:Hcomplete.
  - intros [= <-]. by intros _ k Hk.
  - intros H. apply bind_Ok in H as (var & Hvar & H).
    apply bind_Ok in H as (values & _ & H).
    apply select_unassigned_variable_Ok in Hvar as [Hvar _].
    apply list_elem_of_filter in Hvar as [Hvar%dict_mem_false _].
    apply (try_values_keeps cw _ var) in H; [done| |done..].
    intros s1 r1. apply backtrack_rec_restores.
Qed.

Lemma allM_returns {A} (f : A → outcome bool) (l : list A) :
  (∀ a, a ∈ l → returns (f a)) → returns (allM f l).
Proof.
  induction l as [|a l IH]; intros Hl; [by eexists|].
  cbn [allM]. destruct (Hl a) as [[] ->]; [left| |by eexists]. simpl.
  apply IH. intros a' Ha'. apply Hl. by right.
Qed.

Lemma unassigned_nonempty cw a :
  Forall (λ v, v ∈ variables cw) (dict_keys a) →
  assignment_complete cw a = false → unassigned cw a ≠ [].
Proof.
  intros Hkeys Hcomplete Hnil.
  assert (assignment_complete cw a = true) as Hc; [|congruence].
  apply assignment_complete_true. rewrite Forall_forall in Hkeys.
  intros v. split; [by auto|]. intros Hv.
  destruct (dict_mem v a) eqn:Hmem; [by apply dict_mem_true|].
  assert (v ∈ unassigned cw a) as Hin by by apply list_elem_of_filter.
  rewrite Hnil in Hin. by apply elem_of_nil in Hin.
Qed.

Lemma search_ok_bind cw var value s :
  search_ok cw s → var ∈ variables cw → search_ok cw (bind_var var value s).
Proof.
  intros (Hkeys & Hcov & Hnc) Hvar. split_and!; [|done..]. simpl.
  rewrite Forall_forall in Hkeys. apply Forall_forall.
  intros k [->|Hk]%dict_keys_set_elem; auto.
Qed.

(** From here on the puzzle is well formed and its overlap indices lie
    within the slots, as the puzzle model builds them. *)
Section well_formed_puzzle.
Context (cw : Crossword) (Hwf : well_formed cw) (Hrange : in_range cw).

Lemma revise_returns (d : Domains) x y :
  covers cw d → node_consistent d →
  x ∈ variables cw → y ∈ variables cw →
  ∃ r, revise cw d x y = Ok r
       ∧ covers cw r.1 ∧ node_consistent r.1 ∧ is_Some (dict_get r.1 x).
Proof.
  intros Hcov Hnc Hx Hy.
  destruct (covers_lookup cw d x Hcov Hx) as [xs Hdx].
  destruct (covers_lookup cw d y Hcov Hy) as [ys Hdy].
  destruct (overlaps cw x y) as [[i j]|] eqn:Hov.
  2:{ exists (d, false). unfold revise. rewrite Hov.
      split_and!; [done..|]. simpl. by rewrite Hdx. }
  destruct (well_formed_overlap cw x y i j Hwf Hx Hy Hov) as [Hxy _].
  destruct (in_range_overlap cw x y i j Hrange Hx Hy Hov) as [Hi Hj].
  destruct (revise_total cw d x y i j xs ys Hov Hxy Hdx Hdy)
    as (d' & b & Hrun).
  { eapply Forall_impl; [exact (Hnc x xs Hdx)|]. intros w Hw.
    by apply fits_index with x. }
  { eapply Forall_impl; [exact (Hnc y ys Hdy)|]. intros w Hw.
    by apply fits_index with y. }
  exists (d', b). split; [done|].
  destruct (revise_closed cw d x y i j xs ys _ Hov Hxy Hdx Hdy Hrun)
    as (_ & Hd' & _). simpl in Hd'. subst d'. simpl. split_and!.
  - apply (covers_keys cw d); [|done]. apply dict_keys_set. by rewrite Hdx.
  - apply node_consistent_set with xs; [done..|]. apply list_subseteq_filter.
  - by rewrite dict_get_set_eq.
Qed.

Lemma ac3_loop_returns : ∀ fuel (d : Domains) queue,
    covers cw d → node_consistent d →
    Forall (λ a : arc, a.1 ∈ variables cw ∧ a.2 ∈ variables cw) queue →
    store_size d * S (length (variables cw)) + length queue < fuel →
    ∃ r, ac3_loop fuel cw d queue = Ok r
         ∧ covers cw r.1 ∧ node_consistent r.1.
Proof.
  induction fuel as [|fuel IH];
    intros d queue Hcov Hnc Hq Hfuel; [lia|].
  cbn [ac3_loop]. destruct queue as [|[x y] queue]; [by eexists|].
  apply Forall_cons in Hq as [[Hx Hy] Hq]. simpl in Hx, Hy, Hfuel.
  destruct (revise_returns d x y Hcov Hnc Hx Hy)
    as (r & Hrev & Hcov' & Hnc' & [xs' Hxs']).
  rewrite Hrev. simpl.
  apply revise_effect in Hrev as [_ [->|[Hb Hsize]]].
  - simpl. apply IH; [done..|lia].
  - rewrite Hb. unfold dict_item. rewrite Hxs'. simpl.
    destruct xs' as [|w xs']; [by eexists|]. apply IH; [done..| |].
    + apply Forall_app. split; [done|]. apply Forall_forall.
      intros [z x'] (Hx' & _ & Hz%neighbors_elem)%requeue_elem.
      simpl in *. subst x'. tauto.
    + rewrite length_app. pose proof (requeue_length cw x y). nia.
Qed.

(** [ac3] with the default queue returns on a well-formed puzzle. *)
Lemma ac3_returns (d : Domains) :
  covers cw d → node_consistent d →
  ∃ r, ac3 cw d None = Ok r ∧ covers cw r.1 ∧ node_consistent r.1.
Proof.
  intros Hcov Hnc. unfold ac3.
  apply ac3_loop_returns; [done..| |unfold ac3_fuel; lia].
  by apply default_arcs_variables.
Qed.

Lemma consistent_returns a :
  Forall (λ v, v ∈ variables cw) (dict_keys a) →
  returns (consistent cw a).
Proof.
  intros Hkeys. unfold consistent.
  destruct (decide _); [by eexists|].
  destruct (forallb _ a) eqn:Hfit; [|by eexists]. simpl.
  assert (∀ v w, dict_get a v = Some w → fits v w) as Hfits.
  { intros v w Hvw%dict_get_elem_of%list_elem_of_In.
    rewrite forallb_forall in Hfit. specialize (Hfit _ Hvw).
    by apply bool_decide_eq_true in Hfit. }
  rewrite Forall_forall in Hkeys.
  apply allM_returns. intros x Hx. apply allM_returns.
  intros y [[Hyx [[i j] Hov]] Hy]%neighbors_elem.
  unfold overlap_agrees. destruct (dict_mem y a) eqn:Hmem; [|by eexists].
  rewrite Hov.
  apply dict_get_is_Some in Hx as Hx'. destruct Hx' as [wx Hwx].
  apply dict_mem_true, dict_get_is_Some in Hmem as [wy Hwy].
  destruct (in_range_overlap cw x y i j Hrange (Hkeys x Hx) Hy Hov) as [Hi Hj].
  destruct (fits_index x wx i (Hfits x wx Hwx) Hi) as [cx Hcx%str_index_Ok].
  destruct (fits_index y wy j (Hfits y wy Hwy) Hj) as [cy Hcy%str_index_Ok].
  unfold dict_item. rewrite Hwx, Hwy. simpl. rewrite Hcx. simpl.
  rewrite Hcy. simpl. by eexists.
Qed.

Lemma indexable_ok (d : Domains) a var value n ws :
  covers cw d → node_consistent d →
  var ∈ variables cw → dict_get d var = Some ws → value ∈ ws →
  n ∈ neighbors cw var → indexable cw d a var value n.
Proof.
  intros Hcov Hnc Hvar Hws Hvalue [[_ [[i j] Hov]] Hn]%neighbors_elem _.
  destruct (covers_lookup cw d n Hcov Hn) as [ns Hns].
  destruct (in_range_overlap cw var n i j Hrange Hvar Hn Hov) as [Hi Hj].
  exists i, j, ns. split_and!; [done..| |].
  - apply fits_index with var; [|done].
    specialize (Hnc var ws Hws). rewrite Forall_forall in Hnc. auto.
  - eapply Forall_impl; [exact (Hnc n ns Hns)|]. intros w Hw.
    by apply fits_index with n.
Qed.

Lemma try_values_returns rec var n :
  (∀ s, search_ok cw s → length (unassigned cw (s_assignment s)) < n →
        returns (rec s)) →
  (∀ s r, rec s = Ok r → restores s r) →
  (∀ s r, rec s = Ok r → keeps s r) →
  ∀ values s,
    search_ok cw s →
    var ∈ unassigned cw (s_assignment s) →
    length (unassigned cw (s_assignment s)) ≤ n →
    returns (try_values cw rec var values s).
Proof.
  intros Hreturns Hrestores Hkeeps.
  induction values as [|value values IH]; intros s Hok Hvar Hlen;
    cbn [try_values]; [by eexists|].
  assert ((var ∉ dict_keys (s_assignment s)) ∧ (var ∈ variables cw))
    as [Hfresh Hvar'].
  { by apply list_elem_of_filter in Hvar as [?%dict_mem_false ?]. }
  pose proof (search_ok_bind cw var value s Hok Hvar') as Hok1.
  destruct (consistent_returns (s_assignment (bind_var var value s)))
    as [[] ->]; [by destruct Hok1| |]; simpl.
  - destruct (Hreturns (bind_var var value s)) as [[s1 r1] Hr1]; [done| |].
    { pose proof (unassigned_bind cw (s_assignment s) var value Hvar).
      simpl. lia. }
    rewrite Hr1. simpl. destruct (truthy s1 r1) eqn:Htruthy; [by eexists|].
    pose proof (Hrestores _ _ Hr1) as Hres.
    pose proof (Hkeeps _ _ Hr1) as Hkeep.
    assert (r1 = PyNone) as ->.
    { destruct r1; [done|]. exfalso.
      specialize (Hkeep eq_refl var). simpl in Hkeep.
      destruct s1 as [d1 [|e a1] t1]; [|done].
      eapply elem_of_nil, Hkeep, dict_keys_set_elem. by left. }
    assert (unbind_var var s1
            = Ok (mkSearch (s_domains s) (s_assignment s) (s_trace s1)))
      as ->.
    { destruct Hres as [Hdom Hasn]. simpl in Hdom, Hasn.
      unfold unbind_var. rewrite (Hasn eq_refl). simpl.
      rewrite dict_set_fresh, dict_del_snoc by done. simpl. by rewrite Hdom. }
    simpl. apply IH; [by destruct Hok|done..].
  - rewrite unbind_bind_var by done. simpl. by apply IH.
Qed.

Lemma backtrack_rec_returns : ∀ fuel s,
  search_ok cw s →
  length (unassigned cw (s_assignment s)) < fuel →
  returns (backtrack_rec fuel cw s).
Proof.
  induction fuel as [|fuel IH]; intros s Hok Hfuel; [lia|].
  cbn [backtrack_rec log s_assignment s_domains s_trace].
  destruct (assignment_complete cw (s_assignment s)) eqn:Hcomplete;
    [by eexists|].
  destruct Hok as (Hkeys & Hcov & Hnc).
  destruct (select_unassigned_variable_total cw (s_domains s) (s_assignment s))
    as [var Hvar].
  { apply Forall_forall. intros v [_ Hv]%list_elem_of_filter.
    apply dict_get_is_Some. by apply (covers_elem cw). }
  { by apply unassigned_nonempty. }
  rewrite Hvar. simpl.
  apply select_unassigned_variable_Ok in Hvar as (Hvar & ws & Hws & _).
  assert (var ∈ variables cw) as Hvar'.
  { by apply list_elem_of_filter in Hvar as [_ ?]. }
  destruct (order_domain_values_total cw (s_domains s) var
              (s_assignment s) ws Hws) as [values ->].
  { intros value n Hvalue Hn. by apply indexable_ok with ws. }
  simpl. apply try_values_returns with fuel; try done.
  - intros s1 r1. apply backtrack_rec_restores.
  - intros s1 r1. apply backtrack_rec_keeps.
  - simpl. lia.
Qed.

(** On a well-formed puzzle whose overlap indices lie within the slots,
    [solve] on a freshly built creator raises nothing and returns. *)
Theorem run_returns : returns (run cw).
Proof.
  unfold run, solve.
  destruct (enforce_node_consistency_ok cw (init_domains cw))
    as (d1 & -> & Hcov1 & Hnc1); [apply covers_init|]. simpl.
  destruct (ac3_returns d1 Hcov1 Hnc1)
    as (r & -> & Hcov2 & Hnc2). simpl.
  apply backtrack_rec_returns.
  - split_and!; [constructor|done..].
  - simpl. rewrite unassigned_nil. lia.
Qed.
End well_formed_puzzle.

(** * Further properties of the solver *)

(** ** The store built by [__init__] *)

Lemma dict_keys_set_fresh {K V} `{EqDecision K} (d : Dict K V) k v :
  k ∉ dict_keys d → dict_keys (dict_set d k v) = dict_keys d ++ [k].
Proof.
  intros Hk. rewrite dict_set_fresh by done. unfold dict_keys.
  by rewrite fmap_app.
Qed.

Lemma dict_set_keys_NoDup {K V} `{EqDecision K} (d : Dict K V) k v :
  NoDup (dict_keys d) → NoDup (dict_keys (dict_set d k v)).
Proof.
  intros Hd. destruct (decide (k ∈ dict_keys d)) as [Hk|Hk].
  - rewrite dict_keys_set; [done|]. by apply dict_get_is_Some.
  - rewrite dict_keys_set_fresh by done. apply NoDup_app. split_and!; [done| |].
    + intros x Hx ->%list_elem_of_singleton. done.
    + apply NoDup_singleton.
Qed.

Lemma init_domains_fold cw (l : list Var) : ∀ d : Domains,
  NoDup (dict_keys d) →
  (∀ v ws, dict_get d v = Some ws → ws = words cw) →
  let d' := foldl (λ d var, dict_set d var (words cw)) d l in
  NoDup (dict_keys d')
  ∧ ∀ v ws, dict_get d' v = Some ws → ws = words cw.
Proof.
  induction l as [|x l IH]; intros d Hnd Hws; simpl; [done|].
  apply IH.
  - by apply dict_set_keys_NoDup.
  - intros v ws. destruct (decide (v = x)) as [->|Hne].
    + rewrite dict_get_set_eq. by intros [= <-].
    + rewrite dict_get_set_ne by done. apply Hws.
Qed.

Lemma init_domains_lookup cw v :
  v ∈ variables cw → dict_get (init_domains cw) v = Some (words cw).
Proof.
  intros Hv. apply init_domains_keys, dict_get_is_Some in Hv as [ws Hws].
  rewrite Hws. f_equal.
  destruct (init_domains_fold cw (variables cw) []) as [_ Hall];
    [constructor|done|]. by apply Hall in Hws.
Qed.

(** X1. The store of a new creator has exactly the variables of the
    puzzle as keys, each once, and every variable starts with the whole
    vocabulary as its domain; a variable listed twice gets one entry. *)
Theorem init_domains_spec (cw : Crossword) :
  NoDup (dict_keys (init_domains cw))
  ∧ (∀ v, v ∈ dict_keys (init_domains cw) ↔ v ∈ variables cw)
  ∧ (∀ v, v ∈ variables cw → dict_get (init_domains cw) v = Some (words cw))
  ∧ (∀ v, v ∉ variables cw → dict_get (init_domains cw) v = None).
Proof.
  split_and!.
  - by destruct (init_domains_fold cw (variables cw) []) as [Hnd _];
      [constructor|done|].
  - apply init_domains_keys.
  - apply init_domains_lookup.
  - intros v Hv. apply dict_get_None. by rewrite init_domains_keys.
Qed.

(** ** The choice of [select_unassigned_variable] *)

Lemma key_lt_spec k1 k2 :
  key_lt k1 k2 = true ↔ k1.1 < k2.1 ∨ (k1.1 = k2.1 ∧ (k1.2 < k2.2)%Z).
Proof.
  unfold key_lt.
  rewrite orb_true_iff, andb_true_iff, Nat.ltb_lt, Nat.eqb_eq, Z.ltb_lt.
  done.
Qed.

Lemma key_lt_not k1 k2 :
  key_lt k1 k2 = false ↔ k2.1 < k1.1 ∨ (k1.1 = k2.1 ∧ (k2.2 ≤ k1.2)%Z).
Proof.
  rewrite <-not_true_iff_false, key_lt_spec. lia.
Qed.

(** [min] keeps an element that no element seen so far undercuts. *)
Lemma select_loop_least cw (d : Domains) (rest : list Var) : ∀ best r,
  foldM (select_step cw d) best rest = Ok r →
  key_lt best.2 r.2 = false
  ∧ ∀ u ku, u ∈ rest → select_key cw d u = Ok ku → key_lt ku r.2 = false.
Proof.
  induction rest as [|v rest IH]; intros best r; cbn [foldM].
  - intros [= <-]. split; [apply key_lt_not; lia|].
    by intros u ku ?%elem_of_nil.
  - intros H. apply bind_Ok in H as (best' & Hstep & Hrest).
    unfold select_step in Hstep.
    apply bind_Ok in Hstep as (k & Hk & [= <-]).
    apply IH in Hrest as [Hbest Hall].
    destruct (key_lt k best.2) eqn:Hlt; simpl in *.
    + apply key_lt_spec in Hlt. apply key_lt_not in Hbest. split.
      * apply key_lt_not. lia.
      * intros u ku [->|Hu]%elem_of_cons Hku; [|by eauto].
        assert (ku = k) as -> by congruence. apply key_lt_not. lia.
    + apply key_lt_not in Hlt. apply key_lt_not in Hbest. split.
      * apply key_lt_not. lia.
      * intros u ku [->|Hu]%elem_of_cons Hku; [|by eauto].
        assert (ku = k) as -> by congruence. apply key_lt_not. lia.
Qed.

(** X2. The variable that [select_unassigned_variable] returns is
    unassigned, has the fewest remaining candidates among the unassigned
    variables, and among those with as few candidates it has the most
    neighbours. *)
Theorem select_unassigned_variable_choice (cw : Crossword) (d : Domains)
  (a : Assignment) (v : Var) :
  select_unassigned_variable cw d a = Ok v →
  (v ∈ variables cw) ∧ (v ∉ dict_keys a)
  ∧ ∃ ws, dict_get d v = Some ws
          ∧ ∀ u us, u ∈ variables cw → u ∉ dict_keys a →
                    dict_get d u = Some us →
                    length ws ≤ length us
                    ∧ (length ws = length us → degree cw u ≤ degree cw v).
Proof.
  intros Hsel.
  destruct (select_unassigned_variable_Ok cw d a v Hsel)
    as ([Hfresh%dict_mem_false Hvar]%list_elem_of_filter & ws & Hws & _).
  split_and!; [done..|]. exists ws. split; [done|].
  intros u us Hu Hufresh Hus.
  assert (u ∈ unassigned cw a) as Hin.
  { apply list_elem_of_filter. split; [by apply dict_mem_false|done]. }
  unfold select_unassigned_variable in Hsel.
  destruct (unassigned cw a) as [|v0 rest]; [done|].
  apply bind_Ok in Hsel as (k0 & Hk0 & Hsel).
  apply bind_Ok in Hsel as (best & Hloop & [= <-]).
  pose proof (select_loop_spec _ _ _ _ _ Hloop Hk0) as (_ & Hkey & _).
  apply select_loop_least in Hloop as [Hfirst Hrest]. simpl in *.
  assert (select_key cw d u
          = Ok (length us, (- Z.of_nat (degree cw u))%Z)) as Hku.
  { apply select_key_Ok. eauto. }
  assert (key_lt (length us, (- Z.of_nat (degree cw u))%Z) best.2 = false)
    as Hle.
  { apply elem_of_cons in Hin as [->|Hin]; [|by eauto].
    assert (k0 = (length us, (- Z.of_nat (degree cw v0))%Z)) as ->
      by congruence.
    done. }
  apply select_key_Ok in Hkey as (ws' & Hws' & Hbest).
  assert (ws' = ws) as -> by congruence.
  rewrite Hbest in Hle. apply key_lt_not in Hle. simpl in Hle.
  unfold degree in *. lia.
Qed.

Lemma select_unassigned_variable_choice_witness :
  select_unassigned_variable puzzle3 (node_consistent_store puzzle3) []
  = Ok down
  ∧ degree puzzle3 top ≤ degree puzzle3 down.
Proof.
  split; [vm_compute; reflexivity|].
  destruct (select_unassigned_variable_choice puzzle3
              (node_consistent_store puzzle3) [] down)
    as (_ & _ & ws & Hws & Hleast); [vm_compute; reflexivity|].
  vm_compute in Hws. injection Hws as <-.
  apply (Hleast top ["CAT"; "ART"; "STY"]).
  - apply (bool_decide_unpack _). vm_compute. exact I.
  - apply (bool_decide_unpack _). vm_compute. exact I.
  - vm_compute. reflexivity.
  - reflexivity.
Defined.

Lemma select_loop_outcome cw (d : Domains) (rest : list Var) : ∀ best,
  match foldM (select_step cw d) best rest with
  | Ok _ => Forall (λ v, is_Some (dict_get d v)) rest
  | Raise e => e = KeyError ∧ ¬ Forall (λ v, is_Some (dict_get d v)) rest
  | OutOfFuel => False
  end.
Proof.
  induction rest as [|v rest IH]; intros best; cbn [foldM]; [done|].
  destruct (dict_get d v) as [ws|] eqn:Hv.
  - assert (∃ b, select_step cw d best v = Ok b) as [b ->].
    { unfold select_step, select_key, mrv, dict_item. rewrite Hv. simpl.
      eauto. }
    simpl. specialize (IH b).
    destruct (foldM _ b rest) as [r|e|]; [| |done].
    + constructor; [by rewrite Hv|done].
    + destruct IH as [-> Hnot]. split; [done|].
      intros [_ Hrest]%Forall_cons. done.
  - assert (select_step cw d best v = Raise KeyError) as ->.
    { unfold select_step, select_key, mrv, dict_item. by rewrite Hv. }
    simpl. split; [done|]. intros [[? Hv'] _]%Forall_cons. congruence.
Qed.

(** X3. [select_unassigned_variable] raises [ValueError] exactly when no
    variable is left unassigned, [KeyError] exactly when a variable is
    left and some unassigned variable has no domain in the store, and it
    returns in every other case. *)
Theorem select_unassigned_variable_outcome (cw : Crossword) (d : Domains)
  (a : Assignment) :
  match select_unassigned_variable cw d a with
  | Ok v => unassigned cw a ≠ []
            ∧ Forall (λ v, is_Some (dict_get d v)) (unassigned cw a)
  | Raise ValueError => unassigned cw a = []
  | Raise KeyError =>
      unassigned cw a ≠ []
      ∧ ¬ Forall (λ v, is_Some (dict_get d v)) (unassigned cw a)
  | Raise IndexError => False
  | OutOfFuel => False
  end.
Proof.
  unfold select_unassigned_variable.
  destruct (unassigned cw a) as [|v0 rest]; [done|].
  destruct (dict_get d v0) as [ws|] eqn:Hv0.
  - assert (∃ k0, select_key cw d v0 = Ok k0) as [k0 ->].
    { unfold select_key, mrv, dict_item. rewrite Hv0. simpl. eauto. }
    simpl. pose proof (select_loop_outcome cw d rest (v0, k0)) as Hloop.
    destruct (foldM _ _ rest) as [r|e|]; simpl; [| |done].
    + split; [done|]. constructor; [by rewrite Hv0|done].
    + destruct Hloop as [-> Hnot]. split; [done|].
      intros [_ Hrest]%Forall_cons. done.
  - assert (select_key cw d v0 = Raise KeyError) as ->.
    { unfold select_key, mrv, dict_item. by rewrite Hv0. }
    simpl. split; [done|]. intros [[? Hv'] _]%Forall_cons. congruence.
Qed.

(** ** What [consistent] decides *)

Lemma allM_all_true {A} (f : A → outcome bool) (l : list A) :
  (∀ a, a ∈ l → f a = Ok true) → allM f l = Ok true.
Proof.
  induction l as [|a l IH]; intros Hl; [done|].
  cbn [allM]. rewrite Hl by left. simpl. apply IH.
  intros a' Ha'. apply Hl. by right.
Qed.

Lemma dict_get_of_entry {K V} `{EqDecision K} (d : Dict K V) k v :
  NoDup (dict_keys d) → (k, v) ∈ d → dict_get d k = Some v.
Proof.
  unfold dict_keys. induction d as [|[k0 v0] d IH]; simpl.
  - by intros _ ?%elem_of_nil.
  - intros [Hk0 Hnd]%NoDup_cons [[= -> ->]|Hin]%elem_of_cons.
    + by rewrite decide_True.
    + rewrite decide_False; [by apply IH|]. intros ->. apply Hk0.
      apply list_elem_of_fmap. by exists (k, v).
Qed.

Lemma overlap_agrees_of_agree cw a x y :
  y ∈ neighbors cw x → is_Some (dict_get a x) →
  (∀ wx wy i j, dict_get a x = Some wx → dict_get a y = Some wy →
                overlaps cw x y = Some (i, j) → agree i j wx wy) →
  overlap_agrees cw a x y = Ok true.
Proof.
  intros [[Hyx [[i j] Hov]] Hy]%neighbors_elem [wx Hwx] Hagree.
  unfold overlap_agrees, dict_mem.
  destruct (dict_get a y) as [wy|] eqn:Hwy.
  2:{ rewrite bool_decide_eq_false_2; [done|]. by intros [? ?]. }
  rewrite bool_decide_eq_true_2 by eauto. rewrite Hov.
  destruct (Hagree wx wy i j Hwx eq_refl Hov) as [[c Hc] Heq].
  unfold dict_item. rewrite Hwx, Hwy. simpl.
  unfold str_index. rewrite <-Heq, Hc. simpl.
  by rewrite bool_decide_eq_true_2.
Qed.

Lemma consistent_of_assignment cw a :
  NoDup (dict_keys a) → consistent_assignment cw a →
  consistent cw a = Ok true.
Proof.
  intros Hkeys (Hdistinct & Hfit & Hagree). unfold consistent.
  rewrite decide_False.
  2:{ intros Hne. apply Hne. rewrite NoDup_remove_dups_length by done.
      unfold dict_values. by rewrite length_fmap. }
  destruct (forallb _ a) eqn:Hall.
  2:{ apply not_true_iff_false in Hall. destruct Hall.
      apply forallb_forall. intros [v w] Hin%list_elem_of_In. simpl.
      apply bool_decide_eq_true. apply (Hfit v w).
      by apply dict_get_of_entry. }
  simpl. apply allM_all_true. intros x Hx. apply allM_all_true.
  intros y Hy. apply overlap_agrees_of_agree; [done| |].
  - by apply dict_get_is_Some.
  - intros wx wy i j Hwx Hwy Hov.
    apply neighbors_elem in Hy as [[Hyx _] Hy]. by apply (Hagree x y).
Qed.

(** X4. On a dictionary, [consistent] returns [True] exactly for the
    consistent assignments: all words distinct, every word of the length
    of its variable, and equal letters at the overlap of every two
    assigned variables of the puzzle. *)
Theorem consistent_iff (cw : Crossword) (a : Assignment) :
  NoDup (dict_keys a) →
  consistent cw a = Ok true
  ↔ NoDup (dict_values a)
    ∧ (∀ v w, dict_get a v = Some w → String.length w = var_length v)
    ∧ (∀ x y wx wy i j,
         x ≠ y → y ∈ variables cw →
         dict_get a x = Some wx → dict_get a y = Some wy →
         overlaps cw x y = Some (i, j) → agree i j wx wy).
Proof.
  intros Hkeys. split.
  - apply consistent_true.
  - by apply consistent_of_assignment.
Qed.

Lemma consistent_iff_witness :
  consistent puzzle3 [(down, "ART"); (top, "CAT")] = Ok true
  ∧ agree 1 0 "CAT" "ART".
Proof.
  destruct (consistent_iff puzzle3 [(down, "ART"); (top, "CAT")])
    as [Hsound _].
  { apply (bool_decide_unpack _). vm_compute. exact I. }
  split; [vm_compute; reflexivity|].
  destruct Hsound as (_ & _ & Hagree); [vm_compute; reflexivity|].
  apply (Hagree top down); [|apply (bool_decide_unpack _); vm_compute; exact I
                            |reflexivity..].
  apply (bool_decide_unpack _). vm_compute. exact I.
Defined.

(** X5. [consistent] tests in a fixed order and leaves at the first
    failure: an assignment that uses a word twice is rejected whether or
    not the two variables overlap, and an assignment with a word of the
    wrong length is rejected before any letter is indexed, so neither
    raises. *)
Theorem consistent_rejects_early (cw : Crossword) (a : Assignment) :
  (¬ NoDup (dict_values a) → consistent cw a = Ok false)
  ∧ (¬ Forall (λ e : Var * string, fits e.1 e.2) a →
     consistent cw a = Ok false).
Proof.
  unfold consistent. split.
  - intros Hdup. rewrite decide_True; [done|]. intros Hlen. apply Hdup.
    apply remove_dups_length_NoDup. rewrite Hlen. unfold dict_values.
    by rewrite length_fmap.
  - intros Hfit. destruct (decide _); [done|].
    destruct (forallb _ a) eqn:Hall; [|done]. destruct Hfit.
    apply Forall_forall. intros e He%list_elem_of_In.
    rewrite forallb_forall in Hall. apply Hall in He.
    by apply bool_decide_eq_true in He.
Qed.

Lemma consistent_rejects_early_witness :
  consistent twin_slots [(top, "CAT"); (bottom, "CAT")] = Ok false
  ∧ consistent puzzle3 [(top, "DOGS")] = Ok false.
Proof.
  split.
  - apply (proj1 (consistent_rejects_early twin_slots
                    [(top, "CAT"); (bottom, "CAT")])).
    apply (bool_decide_unpack _). vm_compute. exact I.
  - apply (proj2 (consistent_rejects_early puzzle3 [(top, "DOGS")])).
    apply (bool_decide_unpack _). vm_compute. exact I.
Defined.

(** ** Propagation only takes candidates away *)

Lemma narrows_refl (d : Domains) : narrows d d.
Proof. split; [done|]. intros v ws Hv. exists ws. by split. Qed.

Lemma narrows_trans (d1 d2 d3 : Domains) :
  narrows d1 d2 → narrows d2 d3 → narrows d1 d3.
Proof.
  intros [Hk12 H12] [Hk23 H23]. split; [congruence|].
  intros v ws3 Hv3. destruct (H23 v ws3 Hv3) as (ws2 & Hv2 & Hsub23).
  destruct (H12 v ws2 Hv2) as (ws1 & Hv1 & Hsub12).
  exists ws1. split; [done|]. by etrans.
Qed.

Lemma narrows_set (d : Domains) x xs xs' :
  dict_get d x = Some xs → xs' ⊆ xs → narrows d (dict_set d x xs').
Proof.
  intros Hx Hsub. split.
  - apply dict_keys_set. by rewrite Hx.
  - intros v ws'. destruct (decide (v = x)) as [->|Hne].
    + rewrite dict_get_set_eq. intros [= <-]. eauto.
    + rewrite dict_get_set_ne by done. intros Hv. exists ws'. by split.
Qed.

Lemma revise_loop_narrows x y i j (l : list string) : ∀ (d : Domains) flag r,
  foldM (revise_step x y i j) (d, flag) l = Ok r → narrows d r.1.
Proof.
  induction l as [|w l IH]; intros d flag r; cbn [foldM].
  - intros [= <-]. apply narrows_refl.
  - intros H. apply bind_Ok in H as ([d1 f1] & Hstep & Hrest).
    apply IH in Hrest. simpl in Hrest.
    apply revise_step_cases in Hstep as [[= -> ->]|(xs & Hx & [= -> ->])];
      [done|].
    eapply narrows_trans; [|exact Hrest].
    apply narrows_set with xs; [done|]. apply list_subseteq_filter.
Qed.

Lemma revise_narrows cw (d : Domains) x y r :
  revise cw d x y = Ok r → narrows d r.1.
Proof.
  unfold revise. destruct (overlaps cw x y) as [[i j]|].
  - intros H. apply bind_Ok in H as (xs & _ & Hloop).
    by apply revise_loop_narrows in Hloop.
  - intros [= <-]. apply narrows_refl.
Qed.

Lemma ac3_loop_narrows cw : ∀ fuel (d : Domains) queue r,
  ac3_loop fuel cw d queue = Ok r → narrows d r.1.
Proof.
  induction fuel as [|fuel IH]; intros d queue r; [done|].
  cbn [ac3_loop]. destruct queue as [|[x y] queue].
  { intros [= <-]. apply narrows_refl. }
  intros H. apply bind_Ok in H as (r1 & Hrev%revise_narrows & H).
  destruct r1.2.
  - apply bind_Ok in H as (xs & _ & H). destruct xs as [|w xs].
    + by injection H as <-.
    + apply IH in H. by eapply narrows_trans.
  - apply IH in H. by eapply narrows_trans.
Qed.

Lemma enforce_node_consistency_narrows (d d1 : Domains) :
  enforce_node_consistency d = Ok d1 → narrows d d1.
Proof.
  intros Hrun.
  destruct (enforce_node_consistency_Ok d) as (d1' & Hrun' & Hkeys & Hget).
  assert (d1' = d1) as -> by congruence. split; [done|].
  intros v ws'. rewrite Hget. destruct (dict_get d v) as [ws|]; [|done].
  intros [= <-]. exists ws. split; [done|]. apply list_subseteq_filter.
Qed.

Lemma ac3_loop_size cw : ∀ fuel (d : Domains) queue r,
  ac3_loop fuel cw d queue = Ok r → store_size r.1 ≤ store_size d.
Proof.
  induction fuel as [|fuel IH]; intros d queue r; [done|].
  cbn [ac3_loop]. destruct queue as [|[x y] queue]; [by intros [= <-]|].
  intros H. apply bind_Ok in H as (r1 & Hrev & H).
  apply revise_effect in Hrev as [_ [->|[Hb Hsize]]].
  - simpl in H. by apply IH in H.
  - rewrite Hb in H. apply bind_Ok in H as (xs & _ & H).
    destruct xs as [|w xs].
    + injection H as <-. simpl in *. lia.
    + apply IH in H. lia.
Qed.

(** X6. Whatever the initial arcs, [ac3] only takes candidates away: it
    keeps the keys of the store, never adds a word to a domain and never
    makes the store larger, also when it returns [False]. *)
Theorem ac3_only_removes (cw : Crossword) (d d' : Domains)
  (arcs : option (list arc)) (b : bool) :
  ac3 cw d arcs = Ok (d', b) →
  dict_keys d' = dict_keys d
  ∧ (∀ v ws', dict_get d' v = Some ws' →
              ∃ ws, dict_get d v = Some ws ∧ ws' ⊆ ws)
  ∧ store_size d' ≤ store_size d.
Proof.
  unfold ac3. intros Hrun.
  pose proof (ac3_loop_narrows _ _ _ _ _ Hrun) as [Hkeys Hsub].
  apply ac3_loop_size in Hrun. done.
Qed.

Lemma ac3_only_removes_witness :
  ac3 puzzle3 (node_consistent_store puzzle3) None
  = Ok ([(top, ["CAT"]); (down, ["ART"]); (bottom, ["STY"])], true)
  ∧ store_size [(top, ["CAT"]); (down, ["ART"]); (bottom, ["STY"])]
    ≤ store_size (node_consistent_store puzzle3).
Proof.
  split; [vm_compute; reflexivity|].
  apply (ac3_only_removes puzzle3 (node_consistent_store puzzle3)
           [(top, ["CAT"]); (down, ["ART"]); (bottom, ["STY"])] None true).
  vm_compute. reflexivity.
Defined.

(** ** Repeating a propagation step *)

Lemma node_loop_fixed var (l : list string) (d : Domains) :
  Forall (fits var) l → foldM (node_step var) d l = Ok d.
Proof.
  induction 1 as [|w l Hw _ IH]; [done|].
  cbn [foldM]. by rewrite node_step_fit.
Qed.

Lemma node_outer_fixed (d : Domains) (ks : list Var) :
  node_consistent d → (∀ k, k ∈ ks → k ∈ dict_keys d) →
  foldM node_body d ks = Ok d.
Proof.
  intros Hnc. induction ks as [|k ks IH]; intros Hks; [done|].
  cbn [foldM].
  assert (is_Some (dict_get d k)) as [ws Hws].
  { apply dict_get_is_Some, Hks. left. }
  assert (node_body d k = Ok d) as ->.
  { unfold node_body, dict_item. rewrite Hws. simpl.
    apply node_loop_fixed. by apply Hnc. }
  simpl. apply IH. intros k' Hk'. apply Hks. by right.
Qed.

(** X7. [enforce_node_consistency] is idempotent: a store in which every
    candidate has the length of its variable is returned unchanged, and
    the store it produces is such a store, so a second pass changes
    nothing. *)
Theorem enforce_node_consistency_idempotent (d : Domains) :
  (node_consistent d → enforce_node_consistency d = Ok d)
  ∧ ∃ d1, enforce_node_consistency d = Ok d1
          ∧ enforce_node_consistency d1 = Ok d1.
Proof.
  assert (∀ d0 : Domains,
            node_consistent d0 → enforce_node_consistency d0 = Ok d0) as Hfix.
  { intros d0 Hnc. by apply node_outer_fixed. }
  split; [apply Hfix|].
  destruct (enforce_node_consistency_Ok d) as (d1 & Hrun & _ & Hget).
  exists d1. split; [done|]. apply Hfix.
  intros v ws'. rewrite Hget. destruct (dict_get d v) as [ws|]; [|done].
  intros [= <-]. apply Forall_forall. intros w.
  rewrite list_elem_of_filter. tauto.
Qed.

Lemma enforce_node_consistency_idempotent_witness :
  enforce_node_consistency (node_consistent_store puzzle3)
  = Ok (node_consistent_store puzzle3).
Proof.
  apply (proj1 (enforce_node_consistency_idempotent
                  (node_consistent_store puzzle3))).
  intros v ws Hv. apply dict_get_elem_of, list_elem_of_In in Hv.
  vm_compute in Hv.
  destruct Hv as [[= <- <-]|[[= <- <-]|[[= <- <-]|[]]]];
    apply (bool_decide_unpack _); vm_compute; exact I.
Defined.

(** X8. [revise] is idempotent on two distinct variables: right after a
    call that returned, the same call returns [False] and leaves the
    store as the first call left it. *)
Theorem revise_twice (cw : Crossword) (d d' : Domains) (x y : Var) (b : bool) :
  x ≠ y → revise cw d x y = Ok (d', b) →
  revise cw d' x y = Ok (d', false).
Proof.
  intros Hxy Hrun. destruct (overlaps cw x y) as [[i j]|] eqn:Hov.
  2:{ unfold revise in *. rewrite Hov in *. by injection Hrun as <- <-. }
  pose proof Hrun as Hrun'. unfold revise in Hrun'. rewrite Hov in Hrun'.
  apply bind_Ok in Hrun' as (xs & Hx%dict_item_Ok & Hloop).
  destruct (dict_get d y) as [ys|] eqn:Hy.
  - destruct (revise_closed cw d x y i j xs ys _ Hov Hxy Hx Hy Hrun)
      as (_ & Hd' & _). simpl in Hd'. subst d'.
    unfold revise, dict_item. rewrite Hov, dict_get_set_eq. simpl.
    apply revise_loop_noop with ys.
    + by rewrite dict_get_set_ne.
    + apply Forall_forall. intros w. rewrite list_elem_of_filter. tauto.
  - destruct xs as [|w xs].
    + injection Hloop as <- <-. unfold revise, dict_item. by rewrite Hov, Hx.
    + cbn [foldM] in Hloop. apply bind_Ok in Hloop as (acc & Hstep & _).
      apply revise_step_inv in Hstep as (ys & _ & Hy' & _). congruence.
Qed.

Lemma revise_twice_witness :
  revise puzzle3 [(top, ["CAT"]); (down, ["CAT"; "ART"; "STY"]);
                  (bottom, ["CAT"; "ART"; "STY"])] top down
  = Ok ([(top, ["CAT"]); (down, ["CAT"; "ART"; "STY"]);
         (bottom, ["CAT"; "ART"; "STY"])], false).
Proof.
  apply (revise_twice puzzle3 (node_consistent_store puzzle3) _ top down true).
  - apply (bool_decide_unpack _). vm_compute. exact I.
  - vm_compute. reflexivity.
Defined.

(** ** Propagation keeps the solutions *)

Section keeps_solutions.
Context (cw : Crossword) (sol : Assignment).
Context (Hcomplete : complete cw sol) (Hcons : consistent_assignment cw sol).

Lemma solution_lookup v : v ∈ variables cw → ∃ w, dict_get sol v = Some w.
Proof. intros Hv. by apply Hcomplete, dict_get_is_Some in Hv. Qed.

Lemma revise_loop_keeps x y i j (l : list string) :
  x ≠ y → y ∈ variables cw → overlaps cw x y = Some (i, j) →
  ∀ (d : Domains) flag r,
    foldM (revise_step x y i j) (d, flag) l = Ok r →
    drawn_from d sol → drawn_from r.1 sol.
Proof.
  intros Hxy Hy Hov. induction l as [|w l IH]; intros d flag r; cbn [foldM].
  - by intros [= <-].
  - intros H Hdrawn. apply bind_Ok in H as ([d1 f1] & Hstep & Hrest).
    apply (IH _ _ _ Hrest). simpl. clear Hrest IH.
    destruct (revise_step_inv _ _ _ _ _ _ _ _ Hstep)
      as (ys & c & Hdy & Hc & Hdx).
    destruct c.
    2:{ rewrite (revise_step_kept _ _ _ _ _ _ _ _ Hdy Hc) in Hstep.
        by injection Hstep as <- <-. }
    destruct Hdx as [xs Hdx]; [done|].
    rewrite (revise_step_removed _ _ _ _ _ _ _ _ _ Hdx Hdy Hc) in Hstep.
    injection Hstep as <- <-. intros v wv Hv.
    destruct (Hdrawn v wv Hv) as (ws & Hws & Hin).
    destruct (decide (v = x)) as [->|Hne].
    2:{ exists ws. by rewrite dict_get_set_ne. }
    rewrite dict_get_set_eq. eexists. split; [done|].
    assert (ws = xs) as -> by congruence.
    apply list_elem_of_filter. split; [|done]. intros ->.
    apply all_differ_true in Hc. apply Hc.
    destruct (solution_lookup y Hy) as [wy Hwy].
    destruct (Hdrawn y wy Hwy) as (ys' & Hys' & Hwy').
    assert (ys' = ys) as -> by congruence.
    apply Exists_exists. exists wy. split; [done|].
    destruct Hcons as (_ & _ & Hagree). by apply (Hagree x y).
Qed.

Lemma revise_keeps (d : Domains) x y r :
  x ≠ y → y ∈ variables cw →
  revise cw d x y = Ok r → drawn_from d sol → drawn_from r.1 sol.
Proof.
  intros Hxy Hy. unfold revise.
  destruct (overlaps cw x y) as [[i j]|] eqn:Hov; [|by intros [= <-]].
  intros H. apply bind_Ok in H as (xs & _ & Hloop).
  by apply (revise_loop_keeps x y i j xs Hxy Hy Hov _ _ _ Hloop).
Qed.

Lemma requeue_proper x y :
  x ∈ variables cw → Forall (proper_arc cw) (requeue cw x y).
Proof.
  intros Hx. apply Forall_forall.
  intros [z x'] (Hx' & _ & Hz%neighbors_elem)%requeue_elem.
  simpl in *. subst x'. unfold proper_arc. simpl. tauto.
Qed.

Lemma ac3_loop_keeps : ∀ fuel (d : Domains) queue r,
  ac3_loop fuel cw d queue = Ok r →
  Forall (proper_arc cw) queue →
  drawn_from d sol → drawn_from r.1 sol.
Proof.
  induction fuel as [|fuel IH]; intros d queue r; [done|].
  cbn [ac3_loop]. destruct queue as [|[x y] queue]; [by intros [= <-]|].
  intros H [(Hx & Hy & Hxy) Hq]%Forall_cons Hdrawn. simpl in Hx, Hy, Hxy.
  apply bind_Ok in H as (r1 & Hrev & H).
  apply (revise_keeps d x y r1 Hxy Hy Hrev) in Hdrawn.
  destruct r1.2.
  - apply bind_Ok in H as (xs & _ & H). destruct xs as [|w xs].
    + by injection H as <-.
    + apply IH in H; [done| |done]. apply Forall_app. split; [done|].
      by apply requeue_proper.
  - by apply IH in H.
Qed.

Lemma default_arcs_proper (d : Domains) :
  covers cw d → Forall (proper_arc cw) (default_arcs cw d).
Proof.
  intros Hcov. apply Forall_forall.
  intros [x y] [Hx Hy%neighbors_elem]%default_arcs_elem.
  unfold proper_arc. simpl. split_and!; [|tauto|].
  - by apply (covers_elem cw d).
  - intros ->. tauto.
Qed.

Lemma ac3_keeps (d d' : Domains) b :
  covers cw d → ac3 cw d None = Ok (d', b) →
  drawn_from d sol → drawn_from d' sol ∧ b = true.
Proof.
  intros Hcov Hrun Hdrawn. unfold ac3 in Hrun.
  pose proof (ac3_loop_keeps _ _ _ _ Hrun (default_arcs_proper d Hcov) Hdrawn)
    as Hdrawn'.
  simpl in Hdrawn'. split; [done|]. destruct b; [done|]. exfalso.
  apply ac3_loop_false in Hrun as [Hkeys [x Hx]].
  assert (x ∈ variables cw) as Hxv.
  { apply (covers_elem cw d x Hcov). rewrite <-Hkeys.
    apply dict_get_is_Some. by rewrite Hx. }
  destruct (solution_lookup x Hxv) as [w Hw].
  destruct (Hdrawn' x w Hw) as (ws & Hws & Hin).
  assert (ws = []) as -> by congruence. by apply elem_of_nil in Hin.
Qed.

Lemma enforce_node_consistency_keeps (d d1 : Domains) :
  enforce_node_consistency d = Ok d1 →
  drawn_from d sol → drawn_from d1 sol.
Proof.
  intros Hrun Hdrawn v w Hv.
  destruct (enforce_node_consistency_Ok d) as (d1' & Hrun' & _ & Hget).
  assert (d1' = d1) as -> by congruence.
  destruct (Hdrawn v w Hv) as (ws & Hws & Hin).
  rewrite Hget, Hws. eexists. split; [done|].
  apply list_elem_of_filter. split; [|done].
  destruct Hcons as (_ & Hfit & _). by apply Hfit.
Qed.
End keeps_solutions.

(** X9. Propagation is sound: on a store whose keys are the variables,
    [ac3] with the default queue never removes a word that a complete and
    consistent assignment drawn from the store gives to its variable, and
    therefore does not return [False] when the store holds a solution. *)
Theorem ac3_keeps_solutions (cw : Crossword) (d d' : Domains) (b : bool)
  (sol : Assignment) :
  covers cw d →
  ac3 cw d None = Ok (d', b) →
  solution_in cw d sol →
  solution_in cw d' sol ∧ b = true.
Proof.
  intros Hcov Hrun (Hcomplete & Hcons & Hdrawn).
  destruct (ac3_keeps cw sol Hcomplete Hcons d d' b Hcov Hrun Hdrawn)
    as [Hdrawn' ->].
  done.
Qed.

Lemma ac3_keeps_solutions_witness :
  solution_in puzzle3 [(top, ["CAT"]); (down, ["ART"]); (bottom, ["STY"])]
              [(down, "ART"); (top, "CAT"); (bottom, "STY")].
Proof.
  apply (ac3_keeps_solutions puzzle3 (node_consistent_store puzzle3)
           [(top, ["CAT"]); (down, ["ART"]); (bottom, ["STY"])] true).
  - apply (bool_decide_unpack _). vm_compute. exact I.
  - vm_compute. reflexivity.
  - split_and!.
    + apply assignment_complete_true. vm_compute. reflexivity.
    + apply consistent_true. vm_compute. reflexivity.
    + intros v w Hv. apply dict_get_elem_of, list_elem_of_In in Hv.
      vm_compute in Hv.
      destruct Hv as [[= <- <-]|[[= <- <-]|[[= <- <-]|[]]]];
        eexists; (split; [vm_compute; reflexivity|]);
        apply (bool_decide_unpack _); vm_compute; exact I.
Defined.

(** ** The search is exhaustive *)

Lemma NoDup_fmap_eq {A B} (f : A → B) (l : list A) x y :
  NoDup (f <$> l) → x ∈ l → y ∈ l → f x = f y → x = y.
Proof.
  induction l as [|a l IH]; simpl; [by intros _ ?%elem_of_nil|].
  intros [Ha Hnd]%NoDup_cons [->|Hx]%elem_of_cons [->|Hy]%elem_of_cons Hf;
    [done| | |by apply IH].
  - destruct Ha. rewrite Hf. by apply list_elem_of_fmap_2.
  - destruct Ha. rewrite <-Hf. by apply list_elem_of_fmap_2.
Qed.

Lemma dict_entry_of_get_NoDup {K V} `{EqDecision K} (d : Dict K V) :
  NoDup (dict_keys d) → NoDup d.
Proof. unfold dict_keys. apply NoDup_fmap_1. Qed.

(** A part of a consistent assignment is consistent. *)
Lemma consistent_assignment_sub cw (a sol : Assignment) :
  NoDup (dict_keys a) → extends a sol →
  consistent_assignment cw sol → consistent_assignment cw a.
Proof.
  intros Hkeys Hext (Hdistinct & Hfit & Hagree). split_and!.
  - unfold dict_values. apply NoDup_fmap_2_strong.
    + intros [k1 w1] [k2 w2] H1 H2. simpl. intros ->.
      apply (NoDup_fmap_eq snd sol); [done| | |done].
      * apply dict_get_elem_of, Hext. by apply dict_get_of_entry.
      * apply dict_get_elem_of, Hext. by apply dict_get_of_entry.
    + by apply dict_entry_of_get_NoDup.
  - intros v w Hv. by apply Hfit, Hext.
  - intros x y wx wy i j Hxy Hy Hx Hwy. apply (Hagree x y); auto.
Qed.

Lemma extends_bind (a sol : Assignment) var w :
  extends a sol → dict_get sol var = Some w →
  extends (dict_set a var w) sol.
Proof.
  intros Hext Hsol v wv. destruct (decide (v = var)) as [->|Hne].
  - rewrite dict_get_set_eq. by intros [= <-].
  - rewrite dict_get_set_ne by done. apply Hext.
Qed.

(** When the loop over the values ends with [None], every value that makes
    a consistent assignment has been handed to the recursive call, which
    returned [None]. *)
Lemma try_values_exhausts cw rec var :
  (∀ s r, rec s = Ok r → restores s r) →
  ∀ values s s',
    var ∉ dict_keys (s_assignment s) →
    try_values cw rec var values s = Ok (s', PyNone) →
    ∀ value, value ∈ values →
      consistent cw (dict_set (s_assignment s) var value) = Ok true →
      ∃ s1 s1', s_assignment s1 = dict_set (s_assignment s) var value
                ∧ s_domains s1 = s_domains s
                ∧ rec s1 = Ok (s1', PyNone).
Proof.
  intros Hrestores. induction values as [|value0 values IH];
    intros s s' Hfresh; cbn [try_values].
  { by intros _ value ?%elem_of_nil. }
  intros H value Hin Hc.
  apply bind_Ok in H as (c & Hc0 & H). destruct c.
  - apply bind_Ok in H as ([s1 r1] & Hr1 & H). cbn [fst snd] in H.
    destruct (truthy s1 r1) eqn:Htruthy.
    { injection H as <- ->. by destruct s1 as [? [|? ?] ?]. }
    apply bind_Ok in H as (s2 & Hunbind & H).
    pose proof (Hrestores _ _ Hr1) as Hres.
    pose proof (unbind_after_failure var value0 s s1 r1 s2 Hfresh Hres
                  Htruthy Hunbind) as ->.
    assert (r1 = PyNone) as ->.
    { destruct r1; [done|]. destruct s1 as [d1 [|e a1] t1]; [|done].
      by unfold unbind_var in Hunbind. }
    apply elem_of_cons in Hin as [->|Hin].
    + exists (bind_var var value0 s), s1. done.
    + apply (IH (mkSearch (s_domains s) (s_assignment s) (s_trace s1)) s'
               Hfresh H value Hin Hc).
  - rewrite unbind_bind_var in H by done. simpl in H.
    apply elem_of_cons in Hin as [->|Hin].
    + simpl in Hc0. congruence.
    + by apply (IH _ _ Hfresh H).
Qed.

Lemma backtrack_rec_exhausts cw (sol : Assignment) :
  complete cw sol → consistent_assignment cw sol →
  ∀ fuel s s',
    backtrack_rec fuel cw s = Ok (s', PyNone) →
    NoDup (dict_keys (s_assignment s)) →
    extends (s_assignment s) sol →
    drawn_from (s_domains s) sol → False.
Proof.
  intros Hcomplete Hcons. induction fuel as [|fuel IH]; intros s s'; [done|].
  cbn [backtrack_rec log s_assignment s_domains s_trace].
  destruct (assignment_complete cw (s_assignment s)); [done|].
  intros H Hkeys Hext Hdrawn.
  apply bind_Ok in H as (var & Hvar & H).
  apply bind_Ok in H as (values & Hvalues & H).
  apply select_unassigned_variable_Ok in Hvar as [Hvar _].
  apply list_elem_of_filter in Hvar as [Hfresh%dict_mem_false Hvar].
  destruct (solution_lookup cw sol Hcomplete var Hvar) as [w Hw].
  destruct (Hdrawn var w Hw) as (ws & Hws & Hin).
  destruct (order_domain_values_sorted _ _ _ _ _ _ Hws Hvalues)
    as [Hperm _].
  rewrite <-Hperm in Hin.
  assert (NoDup (dict_keys (dict_set (s_assignment s) var w))) as Hkeys'
    by by apply dict_set_keys_NoDup.
  pose proof (extends_bind _ _ _ _ Hext Hw) as Hext'.
  destruct (try_values_exhausts cw _ var (backtrack_rec_restores cw fuel)
              values
              (log (Call_select_unassigned_variable (s_assignment s))
                 (log (Call_backtrack (s_assignment s)) s))
              s' Hfresh H w Hin) as (s1 & s1' & Hasn & Hdom & Hrec).
  { simpl. apply consistent_of_assignment; [done|].
    by apply consistent_assignment_sub with sol. }
  apply (IH _ _ Hrec); rewrite ?Hasn, ?Hdom; done.
Qed.

(** X10. The search is exhaustive: when [backtrack] returns [None] from
    an assignment with distinct keys, no complete and consistent
    assignment that extends it takes all its words from the domains of
    the store. *)
Theorem backtrack_exhaustive (cw : Crossword) (s s' : search)
  (sol : Assignment) :
  backtrack cw s = Ok (s', PyNone) →
  NoDup (dict_keys (s_assignment s)) →
  extends (s_assignment s) sol →
  ¬ solution_in cw (s_domains s) sol.
Proof.
  intros Hrun Hkeys Hext (Hcomplete & Hcons & Hdrawn).
  by apply (backtrack_rec_exhausts cw sol Hcomplete Hcons _ _ _ Hrun).
Qed.

Lemma backtrack_exhaustive_witness :
  ¬ solution_in twin_slots (node_consistent_store twin_slots)
                [(top, "CAT"); (bottom, "CAT")].
Proof.
  apply (backtrack_exhaustive twin_slots
           (mkSearch (node_consistent_store twin_slots) [] [])
           (mkSearch (node_consistent_store twin_slots) []
              [Call_backtrack []; Call_select_unassigned_variable [];
               Call_backtrack [(top, "CAT")];
               Call_select_unassigned_variable [(top, "CAT")]])).
  - vm_compute. reflexivity.
  - constructor.
  - intros v w Hv. discriminate Hv.
Defined.

(** ** Where the words of the result come from *)

Lemma extends_refl (a : Assignment) : extends a a.
Proof. by intros v w. Qed.

Lemma extends_trans (a b c : Assignment) :
  extends a b → extends b c → extends a c.
Proof. intros Hab Hbc v w Hv. by apply Hbc, Hab. Qed.

Lemma extends_set_fresh (a : Assignment) var w :
  var ∉ dict_keys a → extends a (dict_set a var w).
Proof.
  intros Hfresh v wv Hv. rewrite dict_get_set_ne; [done|].
  intros ->. apply Hfresh, dict_get_is_Some. by eexists.
Qed.

Lemma drawn_from_set (d : Domains) (a : Assignment) var w ws :
  drawn_from d a → dict_get d var = Some ws → w ∈ ws →
  drawn_from d (dict_set a var w).
Proof.
  intros Hdrawn Hws Hin v wv. destruct (decide (v = var)) as [->|Hne].
  - rewrite dict_get_set_eq. intros [= <-]. by exists ws.
  - rewrite dict_get_set_ne by done. apply Hdrawn.
Qed.

Lemma drawn_from_narrows (d d' : Domains) (a : Assignment) :
  narrows d d' → drawn_from d' a → drawn_from d a.
Proof.
  intros [_ Hsub] Hdrawn v w Hv.
  destruct (Hdrawn v w Hv) as (ws' & Hws' & Hin).
  destruct (Hsub v ws' Hws') as (ws & Hws & Hincl).
  exists ws. split; [done|]. by apply Hincl.
Qed.

(** An assignment that the loop over the values returns was returned by
    the recursive call on the given assignment with one of the values
    bound to the variable. *)
Lemma try_values_origin cw rec var :
  (∀ s r, rec s = Ok r → restores s r) →
  ∀ values s r,
    var ∉ dict_keys (s_assignment s) →
    try_values cw rec var values s = Ok (r, TheAssignment) →
    ∃ value s1, value ∈ values
      ∧ s_assignment s1 = dict_set (s_assignment s) var value
      ∧ s_domains s1 = s_domains s
      ∧ consistent cw (s_assignment s1) = Ok true
      ∧ rec s1 = Ok (r, TheAssignment).
Proof.
  intros Hrestores. induction values as [|value values IH];
    intros s r Hfresh; cbn [try_values]; [done|].
  intros H. apply bind_Ok in H as (c & Hc & H). destruct c.
  - apply bind_Ok in H as ([s1 r1] & Hr1 & H). cbn [fst snd] in H.
    destruct (truthy s1 r1) eqn:Htruthy.
    + injection H as -> ->. exists value, (bind_var var value s).
      split_and!; [apply elem_of_cons; by left|done..].
    + apply bind_Ok in H as (s2 & Hunbind & H).
      pose proof (Hrestores _ _ Hr1) as Hres.
      pose proof (unbind_after_failure var value s s1 r1 s2 Hfresh Hres
                    Htruthy Hunbind) as ->.
      destruct (IH (mkSearch (s_domains s) (s_assignment s) (s_trace s1)) r
                  Hfresh H) as (value' & s1' & Hin & Hrest).
      exists value', s1'. split; [apply elem_of_cons; by right|done].
  - rewrite unbind_bind_var in H by done. simpl in H.
    destruct (IH _ r Hfresh H) as (value' & s1' & Hin & Hrest).
    exists value', s1'. split; [apply elem_of_cons; by right|done].
Qed.

Lemma backtrack_rec_drawn cw : ∀ fuel s r,
  backtrack_rec fuel cw s = Ok (r, TheAssignment) →
  drawn_from (s_domains s) (s_assignment s) →
  extends (s_assignment s) (s_assignment r)
  ∧ drawn_from (s_domains s) (s_assignment r).
Proof.
  induction fuel as [|fuel IH]; intros s r; [done|].
  cbn [backtrack_rec log s_assignment s_domains s_trace].
  destruct (assignment_complete cw (s_assignment s)) eqn:Hcomplete.
  - intros [= <-] Hdrawn. split; [apply extends_refl|done].
  - intros H Hdrawn. apply bind_Ok in H as (var & Hvar & H).
    apply bind_Ok in H as (values & Hvalues & H).
    apply select_unassigned_variable_Ok in Hvar as [Hvar _].
    apply list_elem_of_filter in Hvar as [Hfresh%dict_mem_false Hvar].
    destruct (try_values_origin cw _ var (backtrack_rec_restores cw fuel)
                values
                (log (Call_select_unassigned_variable (s_assignment s))
                   (log (Call_backtrack (s_assignment s)) s))
                r Hfresh H)
      as (value & s1 & Hin & Hasn & Hdom & _ & Hrec).
    simpl in Hasn, Hdom.
    assert (∃ ws, dict_get (s_domains s) var = Some ws) as [ws Hws].
    { unfold order_domain_values in Hvalues.
      apply bind_Ok in Hvalues as (ws & Hws%dict_item_Ok & _). by exists ws. }
    destruct (order_domain_values_sorted _ _ _ _ _ _ Hws Hvalues)
      as [Hperm _].
    rewrite Hperm in Hin.
    destruct (IH _ _ Hrec) as [Hext Hdrawn'].
    { rewrite Hasn, Hdom. by apply drawn_from_set with ws. }
    rewrite Hasn in Hext. rewrite Hdom in Hdrawn'. split; [|done].
    apply extends_trans with (dict_set (s_assignment s) var value);
      [by apply extends_set_fresh|done].
Qed.

(** X11. An assignment that [backtrack] returns keeps every binding it
    was given and takes the word of every further variable from the
    domain of that variable in the store. *)
Theorem backtrack_draws_from_domains (cw : Crossword) (s s' : search) :
  backtrack cw s = Ok (s', TheAssignment) →
  drawn_from (s_domains s) (s_assignment s) →
  extends (s_assignment s) (s_assignment s')
  ∧ drawn_from (s_domains s) (s_assignment s').
Proof. apply backtrack_rec_drawn. Qed.

Lemma backtrack_draws_from_domains_witness :
  ∃ s', backtrack puzzle3 (mkSearch (init_domains puzzle3) [(top, "CAT")] [])
        = Ok (s', TheAssignment)
        ∧ extends [(top, "CAT")] (s_assignment s')
        ∧ drawn_from (init_domains puzzle3) (s_assignment s').
Proof.
  eexists. split; [vm_compute; reflexivity|].
  apply (backtrack_draws_from_domains puzzle3
           (mkSearch (init_domains puzzle3) [(top, "CAT")] []));
    [vm_compute; reflexivity|].
  intros v w Hv. exists (words puzzle3).
  destruct (decide (v = top)) as [->|Hne].
  - split; [vm_compute; reflexivity|].
    injection Hv as <-. apply (bool_decide_unpack _). vm_compute. exact I.
  - exfalso. simpl in Hv. by rewrite decide_False in Hv.
Defined.

(** ** [solve] decides the puzzle *)

Lemma solution_in_init cw sol :
  solution cw sol ↔ solution_in cw (init_domains cw) sol.
Proof.
  unfold solution, solution_in. split.
  - intros (Hcomplete & Hcons & Hwords). split_and!; [done..|].
    intros v w Hv. exists (words cw). split; [|by apply (Hwords v)].
    apply init_domains_lookup, Hcomplete, dict_get_is_Some. by eexists.
  - intros (Hcomplete & Hcons & Hdrawn). split_and!; [done..|].
    intros v w Hv. destruct (Hdrawn v w Hv) as (ws & Hws & Hin).
    rewrite init_domains_lookup in Hws; [congruence|].
    apply Hcomplete, dict_get_is_Some. by eexists.
Qed.

Lemma solve_found cw (d : Domains) r :
  solve cw d = Ok (r, TheAssignment) → solution_in cw d (s_assignment r).
Proof.
  unfold solve, backtrack. intros H.
  apply bind_Ok in H as (d1 & Hnode%enforce_node_consistency_narrows & H).
  apply bind_Ok in H as ([d2 b] & Hac3 & H). unfold ac3 in Hac3.
  apply ac3_loop_narrows in Hac3. cbn [fst] in Hac3, H.
  pose proof (backtrack_rec_sound _ _ _ _ H (consistent_nil cw))
    as [Hcomplete%assignment_complete_true Hcons%consistent_true].
  apply backtrack_rec_drawn in H as [_ Hdrawn]; [|by intros v w].
  split_and!; [done..|].
  by apply (drawn_from_narrows d d1), (drawn_from_narrows d1 d2).
Qed.

Lemma solve_exhausted cw (d : Domains) r sol :
  covers cw d → solve cw d = Ok (r, PyNone) → ¬ solution_in cw d sol.
Proof.
  unfold solve, backtrack. intros Hcov H (Hcomplete & Hcons & Hdrawn).
  apply bind_Ok in H as (d1 & Hnode & H).
  apply bind_Ok in H as ([d2 b] & Hac3 & H). cbn [fst] in H.
  pose proof (enforce_node_consistency_keeps cw sol Hcons _ _ Hnode Hdrawn)
    as Hdrawn1.
  apply enforce_node_consistency_narrows in Hnode as [Hkeys _].
  destruct (ac3_keeps cw sol Hcomplete Hcons d1 d2 b) as [Hdrawn2 _];
    [by apply (covers_keys cw d)|done..|].
  apply (backtrack_rec_exhausts cw sol Hcomplete Hcons _ _ _ H);
    [constructor|by intros v w|done].
Qed.

(** X12. [solve] on a freshly built creator decides the puzzle: an
    assignment it returns is a solution (complete, consistent, all words
    from the vocabulary), and when it returns [None] the puzzle has no
    solution. *)
Theorem run_decides (cw : Crossword) (r : search * retval) :
  run cw = Ok r →
  match result_of r with
  | Some a => solution cw a
  | None => ∀ sol, ¬ solution cw sol
  end.
Proof.
  unfold run, result_of. destruct r as [s [|]]; cbn [fst snd]; intros H.
  - intros sol Hsol%solution_in_init. revert Hsol.
    apply (solve_exhausted cw _ s); [apply covers_init|done].
  - by apply solution_in_init, solve_found.
Qed.

Lemma run_decides_witness :
  solution puzzle3 [(down, "ART"); (top, "CAT"); (bottom, "STY")]
  ∧ ∀ sol, ¬ solution puzzle3_unsat sol.
Proof.
  split.
  - assert (∃ r, run puzzle3 = Ok r
                 ∧ result_of r
                   = Some [(down, "ART"); (top, "CAT"); (bottom, "STY")])
      as (r & Hrun & Hres).
    { eexists. split; vm_compute; reflexivity. }
    pose proof (run_decides puzzle3 r Hrun) as H. by rewrite Hres in H.
  - assert (∃ r, run puzzle3_unsat = Ok r ∧ result_of r = None)
      as (r & Hrun & Hres).
    { eexists. split; vm_compute; reflexivity. }
    pose proof (run_decides puzzle3_unsat r Hrun) as H. by rewrite Hres in H.
Defined.

(** ** Depth of the search and absence of exceptions *)

(** X13. The recursion of [backtrack] is at most one frame deeper than the
    number of unassigned variables: with a recursion limit above that
    number the search ends, by a result or by an exception of the code,
    and a higher limit gives the same outcome. *)
Theorem backtrack_depth (cw : Crossword) (s : search) (fuel : nat) :
  length (unassigned cw (s_assignment s)) < fuel →
  halts (backtrack_rec fuel cw s)
  ∧ ∀ fuel', fuel ≤ fuel' →
             backtrack_rec fuel' cw s = backtrack_rec fuel cw s.
Proof.
  intros Hfuel.
  pose proof (backtrack_rec_halts cw fuel s Hfuel) as Hhalts.
  split; [done|]. intros fuel' Hle. by apply backtrack_rec_fuel_mono.
Qed.

Lemma backtrack_depth_witness :
  halts (backtrack_rec 3 puzzle3
           (mkSearch (init_domains puzzle3) [(top, "CAT")] []))
  ∧ ∀ fuel', 3 ≤ fuel' →
      backtrack_rec fuel' puzzle3
        (mkSearch (init_domains puzzle3) [(top, "CAT")] [])
      = backtrack_rec 3 puzzle3
          (mkSearch (init_domains puzzle3) [(top, "CAT")] []).
Proof.
  apply (backtrack_depth puzzle3
           (mkSearch (init_domains puzzle3) [(top, "CAT")] []) 3).
  vm_compute. lia.
Defined.

(** X14. On a puzzle whose overlap table is symmetric and whose overlap
    indices lie within the slots, [solve] raises nothing on any store
    whose keys are the variables: it returns [None] or an assignment. *)
Theorem solve_returns (cw : Crossword) (d : Domains) :
  well_formed cw → in_range cw → covers cw d → returns (solve cw d).
Proof.
  intros Hwf Hrange Hcov. unfold solve.
  destruct (enforce_node_consistency_ok cw d Hcov)
    as (d1 & -> & Hcov1 & Hnc1). simpl.
  destruct (ac3_returns cw Hwf Hrange d1 Hcov1 Hnc1)
    as (r & -> & Hcov2 & Hnc2). simpl.
  apply (backtrack_rec_returns cw Hrange).
  - split_and!; [constructor|done..].
  - simpl. rewrite unassigned_nil. lia.
Qed.

Lemma solve_returns_witness :
  returns (solve puzzle3 [(top, ["CAT"; "DOGS"]); (down, ["ART"]);
                          (bottom, ["STY"; "ART"])]).
Proof.
  apply (solve_returns puzzle3);
    apply (bool_decide_unpack _); vm_compute; exact I.
Defined.

(** X15. The length test of [consistent] shields its indexing: on a
    puzzle whose overlap indices lie within the slots, [consistent]
    raises nothing on an assignment whose keys are variables, whatever
    words it holds. *)
Theorem consistent_never_raises (cw : Crossword) (a : Assignment) :
  in_range cw →
  Forall (λ v, v ∈ variables cw) (dict_keys a) →
  ∃ b, consistent cw a = Ok b.
Proof. intros Hrange Hkeys. by apply consistent_returns. Qed.

Lemma consistent_never_raises_witness :
  ∃ b, consistent puzzle3 [(top, "CAT"); (down, "A")] = Ok b.
Proof.
  apply (consistent_never_raises puzzle3 [(top, "CAT"); (down, "A")]);
    apply (bool_decide_unpack _); vm_compute; exact I.
Defined.

(** ** The letter grid *)

Lemma str_get_Some_lt w k c : String.get k w = Some c → k < String.length w.
Proof.
  revert k. induction w as [|c0 w IH]; intros k; simpl; [done|].
  destruct k as [|k]; [lia|]. intros H%IH. lia.
Qed.

Lemma str_get_lt_Some w k : k < String.length w → ∃ c, String.get k w = Some c.
Proof.
  revert k. induction w as [|c0 w IH]; intros k; simpl; [lia|].
  destruct k as [|k]; [by eexists|]. intros Hk. apply IH. lia.
Qed.

(** [letter_of] is the letter of the only index whose cell is [(i, j)]. *)
Lemma letter_of_spec v word i j c :
  letter_of v word i j = Some c
  ↔ ∃ k, cell_of v k = (i, j) ∧ String.get k word = Some c.
Proof.
  unfold letter_of, cell_of. destruct v as [vi vj [] vl]; simpl; split.
  - destruct (decide _) as [[-> Hle]|]; [|done]. intros Hget.
    exists (j - vj). split; [f_equal; lia|done].
  - intros (k & [= <- <-] & Hget). rewrite decide_True by lia.
    by replace (vj + k - vj) with k by lia.
  - destruct (decide _) as [[-> Hle]|]; [|done]. intros Hget.
    exists (i - vi). split; [f_equal; lia|done].
  - intros (k & [= <- <-] & Hget). rewrite decide_True by lia.
    by replace (vi + k - vi) with k by lia.
Qed.

Lemma cell_of_inj v k k' : cell_of v k = cell_of v k' → k = k'.
Proof.
  unfold cell_of. destruct v as [vi vj [] vl]; simpl; intros [= ]; lia.
Qed.

Lemma cell_of_pair v k k' :
  cell_of v k' = ((cell_of v k).1, (cell_of v k).2) → k' = k.
Proof. intros Heq. apply (cell_of_inj v). by destruct (cell_of v k). Qed.

Lemma grid_store_Ok g i j c g' :
  grid_store g i j c = Ok g' ↔
  ∃ row, g !! i = Some row ∧ j < length row
         ∧ g' = <[i := <[j := Some c]> row]> g.
Proof.
  unfold grid_store. destruct (g !! i) as [row|]; split.
  - destruct (decide _); [|done]. intros [= <-]. by exists row.
  - intros (row' & [= <-] & Hj & ->). by rewrite decide_True.
  - done.
  - by intros (? & ? & _).
Qed.

Lemma grid_store_outcome g i j c height width :
  grid_shape height width g →
  (i < height ∧ j < width ∧ ∃ g', grid_store g i j c = Ok g')
  ∨ (¬ (i < height ∧ j < width) ∧ grid_store g i j c = Raise IndexError).
Proof.
  intros [Hlen Hrows]. unfold grid_store.
  destruct (g !! i) as [row|] eqn:Hrow.
  - pose proof (lookup_lt_Some _ _ _ Hrow) as Hi.
    rewrite Forall_forall in Hrows.
    pose proof (Hrows row (list_elem_of_lookup_2 _ _ _ Hrow)) as Hw.
    destruct (decide _); [left|right].
    + split_and!; [lia..|by eexists].
    + split; [lia|done].
  - apply lookup_ge_None in Hrow. right. split; [lia|done].
Qed.

Lemma grid_store_shape g i j c g' height width :
  grid_shape height width g → grid_store g i j c = Ok g' →
  grid_shape height width g'.
Proof.
  intros [Hlen Hrows] (row & Hrow & Hj & ->)%grid_store_Ok. split.
  - by rewrite length_insert.
  - apply Forall_insert; [done|]. rewrite length_insert.
    rewrite Forall_forall in Hrows.
    apply Hrows, (list_elem_of_lookup_2 _ _ _ Hrow).
Qed.

Lemma grid_store_get g i j c g' i' j' :
  grid_store g i j c = Ok g' →
  grid_get g' i' j'
  = if decide ((i', j') = (i, j)) then Some (Some c) else grid_get g i' j'.
Proof.
  intros (row & Hrow & Hj & ->)%grid_store_Ok. unfold grid_get.
  pose proof (lookup_lt_Some _ _ _ Hrow) as Hi.
  destruct (decide (i' = i)) as [->|Hi'].
  - rewrite list_lookup_insert_eq by done. simpl.
    destruct (decide (j' = j)) as [->|Hj'].
    + rewrite decide_True by done. by rewrite list_lookup_insert_eq.
    + rewrite decide_False by congruence.
      rewrite list_lookup_insert_ne by done. by rewrite Hrow.
  - rewrite decide_False by congruence.
    by rewrite list_lookup_insert_ne by done.
Qed.

Lemma letter_step_lt v word g k :
  k < String.length word →
  ∃ c, String.get k word = Some c
       ∧ letter_step v word g k
         = grid_store g (cell_of v k).1 (cell_of v k).2 c.
Proof.
  intros [c Hc]%str_get_lt_Some. exists c. split; [done|].
  unfold letter_step, str_index. by rewrite Hc.
Qed.

(** The inner loop of [letter_grid] over distinct indices of the word. *)
Lemma letter_loop_spec v word height width : ∀ l g,
  grid_shape height width g → NoDup l →
  Forall (λ k, k < String.length word) l →
  match foldM (letter_step v word) g l with
  | Ok g' =>
      grid_shape height width g'
      ∧ (∀ k, k ∈ l → (cell_of v k).1 < height ∧ (cell_of v k).2 < width)
      ∧ (∀ k c, k ∈ l → String.get k word = Some c →
           grid_get g' (cell_of v k).1 (cell_of v k).2 = Some (Some c))
      ∧ (∀ i j, (∀ k, k ∈ l → cell_of v k ≠ (i, j)) →
           grid_get g' i j = grid_get g i j)
  | Raise e =>
      e = IndexError
      ∧ ∃ k, k ∈ l ∧ ¬ ((cell_of v k).1 < height ∧ (cell_of v k).2 < width)
  | OutOfFuel => False
  end.
Proof.
  induction l as [|k l IH]; intros g Hshape Hnd Hlt; cbn [foldM].
  { split_and!; [done| | |done].
    - by intros k ?%elem_of_nil.
    - by intros k c ?%elem_of_nil. }
  apply NoDup_cons in Hnd as [Hk Hnd]. apply Forall_cons in Hlt as [Hlt Hlts].
  destruct (letter_step_lt v word g k Hlt) as (c & Hc & ->).
  destruct (grid_store_outcome g (cell_of v k).1 (cell_of v k).2 c
              height width Hshape)
    as [(Hi & Hj & g1 & Hg1)|[Hout Hraise]]; rewrite ?Hg1, ?Hraise; simpl.
  2:{ split; [done|]. exists k. split; [apply elem_of_cons; by left|done]. }
  pose proof (grid_store_shape _ _ _ _ _ _ _ Hshape Hg1) as Hshape1.
  specialize (IH g1 Hshape1 Hnd Hlts).
  destruct (foldM (letter_step v word) g1 l) as [g'|e|]; [| |done].
  - destruct IH as (Hshape' & Hin & Hset & Hrest). split_and!; [done| | |].
    + intros k' [->|Hk']%elem_of_cons; [done|by apply Hin].
    + intros k' c' [->|Hk']%elem_of_cons Hc'; [|by apply Hset].
      rewrite Hrest.
      * rewrite (grid_store_get _ _ _ _ _ _ _ Hg1).
        rewrite decide_True by done. congruence.
      * intros k' Hk' ->%cell_of_pair. done.
    + intros i j Hfree. rewrite Hrest.
      * rewrite (grid_store_get _ _ _ _ _ _ _ Hg1).
        rewrite decide_False; [done|]. intros Heq.
        apply (Hfree k); [apply elem_of_cons; by left|].
        rewrite Heq. by destruct (cell_of v k).
      * intros k' Hk'. apply Hfree. apply elem_of_cons. by right.
  - destruct IH as [-> (k' & Hk' & Hout)]. split; [done|].
    exists k'. split; [apply elem_of_cons; by right|done].
Qed.

(** One round of the outer loop writes the word of the entry. *)
Lemma word_step_spec v word height width g :
  grid_shape height width g →
  match word_step g (v, word) with
  | Ok g' =>
      grid_shape height width g'
      ∧ (∀ k, k < String.length word →
           (cell_of v k).1 < height ∧ (cell_of v k).2 < width)
      ∧ (∀ i j, grid_get g' i j
               = match letter_of v word i j with
                 | Some c => Some (Some c)
                 | None => grid_get g i j
                 end)
  | Raise e =>
      e = IndexError
      ∧ ∃ k, k < String.length word
             ∧ ¬ ((cell_of v k).1 < height ∧ (cell_of v k).2 < width)
  | OutOfFuel => False
  end.
Proof.
  intros Hshape. unfold word_step. cbn [fst snd].
  pose proof (letter_loop_spec v word height width
                (seq 0 (String.length word)) g Hshape (NoDup_seq _ _)) as H.
  destruct (foldM _ g _) as [g'|e|].
  - destruct H as (Hshape' & Hin & Hset & Hrest).
    { apply Forall_forall. intros k Hk%elem_of_seq. lia. }
    split_and!; [done| |].
    + intros k Hk. apply Hin, elem_of_seq. lia.
    + intros i j. destruct (letter_of v word i j) as [c|] eqn:Hletter.
      * apply letter_of_spec in Hletter as (k & Hcell & Hget).
        pose proof (str_get_Some_lt _ _ _ Hget) as Hk.
        specialize (Hset k c). rewrite Hcell in Hset. apply Hset; [|done].
        apply elem_of_seq. lia.
      * apply Hrest. intros k Hk%elem_of_seq Hcell.
        destruct (str_get_lt_Some word k) as [c Hc]; [lia|].
        assert (letter_of v word i j = Some c) as Hsome
          by (apply letter_of_spec; by exists k).
        congruence.
  - destruct H as [-> (k & Hk%elem_of_seq & Hout)].
    { apply Forall_forall. intros k Hk%elem_of_seq. lia. }
    split; [done|]. exists k. split; [lia|done].
  - destruct H. apply Forall_forall. intros k Hk%elem_of_seq. lia.
Qed.

Lemma word_loop_spec height width : ∀ (a : Assignment) g,
  grid_shape height width g →
  match foldM word_step g a with
  | Ok g' =>
      grid_shape height width g' ∧ inside height width a
      ∧ (∀ i j, grid_get g' i j
               = match last_letter a i j with
                 | Some c => Some (Some c)
                 | None => grid_get g i j
                 end)
  | Raise e => e = IndexError ∧ ¬ inside height width a
  | OutOfFuel => False
  end.
Proof.
  induction a as [|[v word] a IH]; intros g Hshape; cbn [foldM].
  { split_and!; [done| |done]. by intros v word k ?%elem_of_nil. }
  pose proof (word_step_spec v word height width g Hshape) as Hstep.
  destruct (word_step g (v, word)) as [g1|e|]; simpl; [| |done].
  - destruct Hstep as (Hshape1 & Hin1 & Hget1). specialize (IH g1 Hshape1).
    destruct (foldM word_step g1 a) as [g'|e|]; [| |done].
    + destruct IH as (Hshape' & Hin & Hget). split_and!; [done| |].
      * intros v' word' k [[= -> ->]|Hentry]%elem_of_cons Hk;
          [by apply Hin1|by apply (Hin v' word')].
      * intros i j. rewrite Hget. cbn [last_letter].
        destruct (last_letter a i j); [done|]. apply Hget1.
    + destruct IH as [-> Hout]. split; [done|]. intros Hin. apply Hout.
      intros v' word' k Hentry. apply Hin. apply elem_of_cons. by right.
  - destruct Hstep as [-> (k & Hk & Hout)]. split; [done|].
    intros Hin. apply Hout, (Hin v word k); [apply elem_of_cons; by left|done].
Qed.

Lemma blank_grid_shape height width :
  grid_shape height width (blank_grid height width).
Proof.
  unfold blank_grid. split; [by rewrite length_replicate|].
  apply Forall_replicate. by rewrite length_replicate.
Qed.

Lemma blank_grid_get height width i j :
  i < height → j < width → grid_get (blank_grid height width) i j = Some None.
Proof.
  intros Hi Hj. unfold grid_get, blank_grid.
  rewrite lookup_replicate_2 by done. simpl. by rewrite lookup_replicate_2.
Qed.

Lemma last_letter_Some (a : Assignment) i j c :
  last_letter a i j = Some c →
  ∃ v word, (v, word) ∈ a ∧ letter_of v word i j = Some c.
Proof.
  induction a as [|[v word] a IH]; cbn [last_letter]; [done|].
  destruct (last_letter a i j) as [c'|].
  - intros [= ->]. destruct IH as (v' & word' & Hin & Hl); [done|].
    exists v', word'. split; [apply elem_of_cons; by right|done].
  - intros Hl. exists v, word. split; [apply elem_of_cons; by left|done].
Qed.

Lemma last_letter_covered (a : Assignment) v word i j c :
  (v, word) ∈ a → letter_of v word i j = Some c →
  ∃ c', last_letter a i j = Some c'.
Proof.
  induction a as [|[v' word'] a IH]; [by intros ?%elem_of_nil|].
  cbn [last_letter]. intros [[= <- <-]|Hin]%elem_of_cons Hl.
  - destruct (last_letter a i j) as [c'|]; [by exists c'|by exists c].
  - destruct (IH Hin Hl) as [c' ->]. by exists c'.
Qed.

(** X16. [letter_grid] returns exactly when every letter of every assigned
    word has its cell inside the grid, and then the grid has [height] rows
    of [width] cells; otherwise it raises [IndexError]. *)
Theorem letter_grid_outcome (height width : nat) (a : Assignment) :
  match letter_grid height width a with
  | Ok g => grid_shape height width g ∧ inside height width a
  | Raise e => e = IndexError ∧ ¬ inside height width a
  | OutOfFuel => False
  end.
Proof.
  unfold letter_grid.
  pose proof (word_loop_spec height width a _
                (blank_grid_shape height width)) as H.
  destruct (foldM word_step _ a) as [g|e|]; [|done..].
  by destruct H as (? & ? & _).
Qed.

(** X17. Each cell of the grid that [letter_grid] returns holds the letter
    of the last entry of the assignment whose word passes over the cell,
    and [None] when no word does. *)
Theorem letter_grid_cells (height width : nat) (a : Assignment) (g : Grid)
  (i j : nat) :
  letter_grid height width a = Ok g → i < height → j < width →
  grid_get g i j = Some (last_letter a i j).
Proof.
  unfold letter_grid. intros Hrun Hi Hj.
  pose proof (word_loop_spec height width a _
                (blank_grid_shape height width)) as H.
  rewrite Hrun in H. destruct H as (_ & _ & ->).
  destruct (last_letter a i j); [done|]. by apply blank_grid_get.
Qed.

Lemma letter_grid_cells_witness :
  ∃ g, letter_grid 3 3 [(top, "CAT"); (down, "ART"); (bottom, "STY")] = Ok g
       ∧ grid_get g 0 1 = Some (String.get 1 "CAT")
       ∧ grid_get g 1 0 = Some None.
Proof.
  eexists. split; [vm_compute; reflexivity|]. split.
  - apply (letter_grid_cells 3 3
             [(top, "CAT"); (down, "ART"); (bottom, "STY")]);
      [vm_compute; reflexivity|lia|lia].
  - apply (letter_grid_cells 3 3
             [(top, "CAT"); (down, "ART"); (bottom, "STY")]);
      [vm_compute; reflexivity|lia|lia].
Defined.

(** X18. When the words of the assignment agree on every cell that two of
    them pass over, the grid that [letter_grid] returns shows every letter
    of every assigned word at its cell. *)
Theorem letter_grid_legible (height width : nat) (a : Assignment) (g : Grid)
  (v : Var) (word : string) (k : nat) (c : Ascii.ascii) :
  letter_grid height width a = Ok g → legible a →
  (v, word) ∈ a → String.get k word = Some c →
  grid_get g (cell_of v k).1 (cell_of v k).2 = Some (Some c).
Proof.
  unfold letter_grid. intros Hrun Hlegible Hentry Hget.
  pose proof (word_loop_spec height width a _
                (blank_grid_shape height width)) as H.
  rewrite Hrun in H. destruct H as (_ & _ & ->).
  assert (letter_of v word (cell_of v k).1 (cell_of v k).2 = Some c) as Hl.
  { apply letter_of_spec. exists k. split; [|done].
    by destruct (cell_of v k). }
  destruct (last_letter_covered a v word _ _ c Hentry Hl) as [c' Hc'].
  rewrite Hc'. do 2 f_equal.
  apply last_letter_Some in Hc' as (v' & word' & Hentry' & Hl').
  by apply (Hlegible v' word' v word (cell_of v k).1 (cell_of v k).2).
Qed.

Lemma letter_grid_legible_witness :
  ∃ g, letter_grid 3 3 [(top, "CAT"); (down, "ART")] = Ok g
       ∧ grid_get g 2 1 = Some (String.get 2 "ART").
Proof.
  eexists. split; [vm_compute; reflexivity|].
  apply (letter_grid_legible 3 3 [(top, "CAT"); (down, "ART")] _ down "ART" 2);
    [vm_compute; reflexivity| |apply (bool_decide_unpack _); vm_compute; exact I
    |reflexivity].
  intros v1 w1 v2 w2 i j c1 c2 H1 H2.
  apply elem_of_cons in H1 as [[= -> ->]|[= -> ->]%list_elem_of_singleton];
    apply elem_of_cons in H2 as [[= -> ->]|[= -> ->]%list_elem_of_singleton];
    unfold letter_of; simpl; repeat case_decide; try congruence;
    destruct_and?; subst; simpl; congruence.
Defined.

(** ** Pruning by [consistent] loses nothing *)

(** X19. [consistent] accepts every part of an assignment it accepts: when
    it returns [True] on an assignment, it returns [True] on every
    assignment that holds some of its bindings and nothing else.  So a
    branch that [backtrack] drops because [consistent] returned [False]
    holds no consistent assignment. *)
Theorem consistent_antimonotone (cw : Crossword) (a b : Assignment) :
  NoDup (dict_keys a) → extends a b →
  consistent cw b = Ok true → consistent cw a = Ok true.
Proof.
  intros Ha Hext Hcons%consistent_true.
  apply consistent_of_assignment; [done|].
  by apply consistent_assignment_sub with b.
Qed.

Lemma consistent_antimonotone_witness :
  consistent puzzle3 [(down, "ART"); (bottom, "STY")] = Ok true.
Proof.
  apply (consistent_antimonotone puzzle3 [(down, "ART"); (bottom, "STY")]
           [(top, "CAT"); (down, "ART"); (bottom, "STY")]).
  - apply (bool_decide_unpack _). vm_compute. exact I.
  - intros v w Hv. simpl in Hv. repeat case_decide; simplify_eq; done.
  - vm_compute. reflexivity.
Defined.
